(** * Shared-ownership handles: [SharedPtr], [WeakPtr] and their control blocks

    A shallow embedding of [smart_pointers.hpp].  Control blocks live in a
    heap indexed by addresses; handles are records of two raw pointers; the
    handle objects of a program live in a store and are named by their index,
    so that aliasing ([h = h], [h = std::move(h)]) is visible.  Every method is
    a computation over the program state that can return, propagate an
    exception, or run into undefined behaviour.

    What the hooks do to the outside world (calls of the deleter, of the
    allocator, destructors of the stored strategies) is recorded in a log.
    The overloads that convert between [SharedPtr<Y>] and [SharedPtr<T>] (and
    the same for [WeakPtr]) are not modelled apart from the overloads on one
    type; [operator*] and [operator->] read [element_ptr_] and are left out.
    Allocation is the only source of exceptions, together with the constructor
    of the managed object in [AllocateShared]. *)

From stdpp Require Import gmap list.
From Stdlib Require Import ZArith.

Local Open Scope Z_scope.

(** ** Raw pointers and strategies *)

(** Storage addresses.  A raw pointer is an [option]: [None] is [nullptr]. *)
Abbreviation addr := positive (only parsing).

(** What a [T*] can point to: an object the caller created, or the element
    stored in place inside the [SharedPtrEmplacer] at a given address
    ([get_elem()]). *)
Inductive object : Type :=
  | external (p : addr)
  | inplace (block : addr).

(** The destruction strategies: [std::default_delete] and caller-supplied
    callables. *)
Inductive Deleter : Type :=
  | default_delete
  | custom_deleter (id : nat).

(** The allocation strategies: [std::allocator] and caller-supplied ones. *)
Inductive Alloc : Type :=
  | std_allocator
  | custom_alloc (id : nat).

(** [size_t] is taken to be 64 bits wide; [++] wraps around. *)
Definition SIZE_MAX : Z := 2 ^ 64 - 1.
Definition wrap (n : Z) : Z := n mod 2 ^ 64.

(** ** Handles *)

Record SharedPtr : Type := {
  element_ptr_ : option object;
  control_ptr_ : option addr }.

Record WeakPtr : Type := {
  weak_element_ptr_ : option object;
  weak_control_ptr_ : option addr }.

(** ** Observable effects *)

Inductive event : Type :=
  | EvAllocate (al : Alloc) (a : addr)        (* allocate(al, 1) returned a *)
  | EvDeallocate (al : Alloc) (a : addr)      (* deallocate(al, a, 1) *)
  | EvDelete (d : Deleter) (p : option object) (* d(p) *)
  | EvDeleterDtor (d : Deleter)               (* deleter_.~Deleter() *)
  | EvAllocDtor (al : Alloc)                  (* the stored allocator's destructor *)
  | EvConstruct (a : addr)                    (* construct(get_elem(), args...) *)
  | EvDestroy (a : addr)                      (* destroy(get_elem()) *)
  | EvZeroShared (a : addr)                   (* virtual zero_shared() on block a *)
  | EvZeroSharedAndWeak (a : addr).           (* virtual zero_shared_and_weak() *)

Definition is_zero_shared (a : addr) (e : event) : bool :=
  match e with EvZeroShared a' => bool_decide (a' = a) | _ => false end.

Definition is_deallocate (a : addr) (e : event) : bool :=
  match e with EvDeallocate _ a' => bool_decide (a' = a) | _ => false end.

Definition is_allocate (e : event) : bool :=
  match e with EvAllocate _ _ => true | _ => false end.

Definition is_delete (e : event) : bool :=
  match e with EvDelete _ _ => true | _ => false end.

Fixpoint count_events (f : event → bool) (l : list event) : Z :=
  match l with
  | [] => 0
  | e :: l' => (if f e then 1 else 0) + count_events f l'
  end.

Section Model.

Context {T : Type}.

(** ** Control blocks *)

(** The members the two derived classes add to [SharedWeakCount].  A member
    whose destructor has run is [None]. *)
Inductive Derived : Type :=
  | SharedPtrPointer (value_ : option object) (deleter_ : option Deleter)
                     (allocator_ : option Alloc)
  | SharedPtrEmplacer (storage_alloc : option Alloc) (storage_elem : option T).

Record ControlBlock : Type := {
  shared_owners_ : Z;
  shared_weak_owners_ : Z;
  derived : Derived }.

Definition set_shared_owners (n : Z) (c : ControlBlock) : ControlBlock :=
  {| shared_owners_ := n;
     shared_weak_owners_ := shared_weak_owners_ c;
     derived := derived c |}.

Definition set_shared_weak_owners (n : Z) (c : ControlBlock) : ControlBlock :=
  {| shared_owners_ := shared_owners_ c;
     shared_weak_owners_ := n;
     derived := derived c |}.

Definition set_derived (d : Derived) (c : ControlBlock) : ControlBlock :=
  {| shared_owners_ := shared_owners_ c;
     shared_weak_owners_ := shared_weak_owners_ c;
     derived := d |}.

(** Storage handed out by an allocator is [Raw] until a control block is
    constructed in it. *)
Inductive cell : Type :=
  | Raw
  | Constructed (c : ControlBlock).

(** ** Program state *)

Record State : Type := {
  heap : gmap positive cell;
  log : list event;
  (* the answers the allocators give to the coming requests: [false] is a
     failed allocation; when the list is used up every request succeeds *)
  budget : list bool;
  (* the handle objects of the program; a slot is [None] once its lifetime
     has ended *)
  owning : list (option SharedPtr);
  observing : list (option WeakPtr) }.

Definition set_heap (h : gmap positive cell) (s : State) : State :=
  {| heap := h; log := log s; budget := budget s;
     owning := owning s; observing := observing s |}.

Definition set_log (l : list event) (s : State) : State :=
  {| heap := heap s; log := l; budget := budget s;
     owning := owning s; observing := observing s |}.

Definition set_budget (b : list bool) (s : State) : State :=
  {| heap := heap s; log := log s; budget := b;
     owning := owning s; observing := observing s |}.

Definition set_owning (l : list (option SharedPtr)) (s : State) : State :=
  {| heap := heap s; log := log s; budget := budget s;
     owning := l; observing := observing s |}.

Definition set_observing (l : list (option WeakPtr)) (s : State) : State :=
  {| heap := heap s; log := log s; budget := budget s;
     owning := owning s; observing := l |}.

(** ** Computations *)

Inductive outcome (A : Type) : Type :=
  | Ok (x : A) (s : State)     (* normal return *)
  | Throw (s : State)          (* an exception propagates *)
  | UB.                        (* undefined behaviour *)

Arguments Ok {A} x s.
Arguments Throw {A} s.
Arguments UB {A}.

Definition M (A : Type) : Type := State → outcome A.

Definition ret {A} (x : A) : M A := fun s => Ok x s.

Definition bind {A B} (m : M A) (k : A → M B) : M B := fun s =>
  match m s with
  | Ok x s' => k x s'
  | Throw s' => Throw s'
  | UB => UB
  end.

Definition throw {A} : M A := fun s => Throw s.

Definition undefined {A} : M A := fun _ => UB.

(** [try { body } catch (...) { handler }] *)
Definition try_catch {A} (body handler : M A) : M A := fun s =>
  match body s with
  | Throw s' => handler s'
  | r => r
  end.

End Model.

Arguments ControlBlock : clear implicits.
Arguments Derived : clear implicits.
Arguments cell : clear implicits.
Arguments State : clear implicits.
Arguments outcome : clear implicits.
Arguments M : clear implicits.
Arguments Ok {T A} x s.
Arguments Throw {T A} s.
Arguments UB {T A}.

Notation "'let*' x := m 'in' k" := (bind m (fun x => k))
  (at level 10, x name, m at level 100, k at level 200).
Notation "m ;; k" := (bind m (fun _ => k))
  (at level 100, k at level 200, right associativity).

Section Methods.

Context {T : Type}.

Implicit Types (s : State T) (a : addr) (c : ControlBlock T).

(** ** Access to storage *)

Definition emit (e : event) : M T unit := fun s =>
  Ok tt (set_log (log s ++ [e]) s).

(** Reading through a [SharedWeakCount*]: the pointer must point to a
    constructed control block. *)
Definition get_block a : M T (ControlBlock T) := fun s =>
  match heap s !! a with
  | Some (Constructed c) => Ok c s
  | _ => UB
  end.

Definition put_block a c : M T unit := fun s =>
  Ok tt (set_heap (<[a := Constructed c]> (heap s)) s).

(** [allocator_traits::allocate(al, 1)], and [operator new] for the default
    allocator: the next answer of [budget] decides whether it throws
    [std::bad_alloc]; the storage returned is not in use. *)
Definition allocate (al : Alloc) : M T addr := fun s =>
  match budget s with
  | false :: rest => Throw (set_budget rest s)
  | answers =>
      let a := fresh (dom (heap s)) in
      Ok a (set_log (log s ++ [EvAllocate al a])
             (set_heap (<[a := Raw]> (heap s)) (set_budget (tail answers) s)))
  end.

(** [allocator_traits::deallocate(al, a, 1)] *)
Definition deallocate (al : Alloc) a : M T unit := fun s =>
  match heap s !! a with
  | Some _ => Ok tt (set_log (log s ++ [EvDeallocate al a])
                      (set_heap (delete a (heap s)) s))
  | None => UB
  end.

(** ** [SharedCount] and [SharedWeakCount]

    The counter methods as functions on the object, and [a ->* f] for the call
    [a->f()] through a pointer. *)

Definition add_shared c : ControlBlock T :=
  set_shared_owners (wrap (shared_owners_ c + 1)) c.

Definition add_weak c : ControlBlock T :=
  set_shared_weak_owners (wrap (shared_weak_owners_ c + 1)) c.

Definition decrement_weak c : ControlBlock T :=
  if 0 <? shared_weak_owners_ c
  then set_shared_weak_owners (shared_weak_owners_ c - 1) c
  else c.

Definition decrement_shared c : ControlBlock T :=
  if 0 <? shared_owners_ c
  then set_shared_owners (shared_owners_ c - 1) c
  else c.

Definition arrow a (f : ControlBlock T → ControlBlock T) : M T unit :=
  let* c := get_block a in put_block a (f c).

Definition use_count a : M T Z :=
  let* c := get_block a in ret (shared_owners_ c).

(** The two cleanup hooks, dispatched on the dynamic type of the block. *)

(** [SharedPtrPointer::zero_shared]: call the deleter on the stored pointer,
    then destroy the deleter.  [SharedPtrEmplacer::zero_shared]: destroy the
    element in place through a rebound copy of the stored allocator. *)
Definition zero_shared a : M T unit :=
  let* c := get_block a in
  emit (EvZeroShared a) ;;
  match derived c with
  | SharedPtrPointer value (Some del) al =>
      emit (EvDelete del value) ;;
      emit (EvDeleterDtor del) ;;
      put_block a (set_derived (SharedPtrPointer value None al) c)
  | SharedPtrPointer _ None _ => undefined
  | SharedPtrEmplacer (Some al) (Some _) =>
      emit (EvDestroy a) ;;
      put_block a (set_derived (SharedPtrEmplacer (Some al) None) c)
  | SharedPtrEmplacer _ _ => undefined
  end.

(** [zero_shared_and_weak]: copy the stored allocator (rebound to the block
    type), destroy the stored one, deallocate [this] through the copy. *)
Definition zero_shared_and_weak a : M T unit :=
  let* c := get_block a in
  emit (EvZeroSharedAndWeak a) ;;
  match derived c with
  | SharedPtrPointer _ _ (Some al) => emit (EvAllocDtor al) ;; deallocate al a
  | SharedPtrEmplacer (Some al) _ => emit (EvAllocDtor al) ;; deallocate al a
  | _ => undefined
  end.

Definition release_shared a : M T unit :=
  let* c := get_block a in
  if shared_owners_ c =? 0 then zero_shared a else ret tt.

Definition release_weak a : M T unit :=
  let* c := get_block a in
  if shared_weak_owners_ c =? 0 then zero_shared_and_weak a else ret tt.

(** The constructors [SharedWeakCount(size_t count = 0)] of both derived
    classes start with both counts at 0. *)
Definition new_block (d : Derived T) : ControlBlock T :=
  {| shared_owners_ := 0; shared_weak_owners_ := 0; derived := d |}.

End Methods.

Notation "a ->* f" := (arrow a f) (at level 60, no associativity).

Section Handles.

Context {T : Type}.

Implicit Types (s : State T) (a : addr).

(** ** Handle objects in the store

    A reference to a handle object is its index.  Using a reference to an
    object whose lifetime has ended is undefined. *)

Definition read_shared (i : nat) : M T SharedPtr := fun s =>
  match owning s !! i with
  | Some (Some p) => Ok p s
  | _ => UB
  end.

Definition write_shared (i : nat) (p : SharedPtr) : M T unit := fun s =>
  match owning s !! i with
  | Some (Some _) => Ok tt (set_owning (<[i := Some p]> (owning s)) s)
  | _ => UB
  end.

Definition declare_shared (p : SharedPtr) : M T unit := fun s =>
  Ok tt (set_owning (owning s ++ [Some p]) s).

Definition end_shared (i : nat) : M T unit := fun s =>
  match owning s !! i with
  | Some (Some _) => Ok tt (set_owning (<[i := None]> (owning s)) s)
  | _ => UB
  end.

Definition read_weak (i : nat) : M T WeakPtr := fun s =>
  match observing s !! i with
  | Some (Some w) => Ok w s
  | _ => UB
  end.

Definition write_weak (i : nat) (w : WeakPtr) : M T unit := fun s =>
  match observing s !! i with
  | Some (Some _) => Ok tt (set_observing (<[i := Some w]> (observing s)) s)
  | _ => UB
  end.

Definition declare_weak (w : WeakPtr) : M T unit := fun s =>
  Ok tt (set_observing (observing s ++ [Some w]) s).

Definition end_weak (i : nat) : M T unit := fun s =>
  match observing s !! i with
  | Some (Some _) => Ok tt (set_observing (<[i := None]> (observing s)) s)
  | _ => UB
  end.

(** ** [SharedPtr] *)

(** [SharedPtr() noexcept {}] and [SharedPtr(std::nullptr_t) {}]: both members
    keep their default initialisers. *)
Definition SharedPtr_ctor : M T SharedPtr :=
  ret {| element_ptr_ := None; control_ptr_ := None |}.

Definition SharedPtr_ctor_nullptr : M T SharedPtr :=
  ret {| element_ptr_ := None; control_ptr_ := None |}.

(** [new control_block(...)] *)
Definition operator_new (d : Derived T) : M T addr :=
  let* a := allocate std_allocator in
  put_block a (new_block d) ;;
  ret a.

(** [SharedPtr(Y* ptr)] *)
Definition SharedPtr_ctor_ptr (ptr : option object) : M T SharedPtr :=
  let* a := operator_new
              (SharedPtrPointer ptr (Some default_delete) (Some std_allocator)) in
  a ->* add_shared ;;
  ret {| element_ptr_ := ptr; control_ptr_ := Some a |}.

(** [SharedPtr(Y* ptr, Deleter del)] *)
Definition SharedPtr_ctor_ptr_del (ptr : option object) (del : Deleter)
  : M T SharedPtr :=
  let* a := try_catch
              (let* a := operator_new
                           (SharedPtrPointer ptr (Some del) (Some std_allocator)) in
               a ->* add_shared ;;
               ret a)
              (emit (EvDelete del ptr) ;; throw) in
  ret {| element_ptr_ := ptr; control_ptr_ := Some a |}.

(** [SharedPtr(Y* ptr, Deleter del, Alloc alloc)]: the allocation comes before
    the [try] block. *)
Definition SharedPtr_ctor_ptr_del_alloc (ptr : option object) (del : Deleter)
    (alloc : Alloc) : M T SharedPtr :=
  let* a := allocate alloc in
  try_catch
    (put_block a (new_block (SharedPtrPointer ptr (Some del) (Some alloc))) ;;
     a ->* add_shared)
    (deallocate alloc a ;; emit (EvDelete del ptr) ;; throw) ;;
  ret {| element_ptr_ := ptr; control_ptr_ := Some a |}.

(** [SharedPtr(const SharedPtr& other)] *)
Definition SharedPtr_copy (other : SharedPtr) : M T SharedPtr :=
  match control_ptr_ other with
  | Some a => a ->* add_shared
  | None => ret tt
  end ;;
  ret {| element_ptr_ := element_ptr_ other; control_ptr_ := control_ptr_ other |}.

(** [SharedPtr(SharedPtr&& other)] *)
Definition SharedPtr_move (other : nat) : M T SharedPtr :=
  let* o := read_shared other in
  write_shared other {| element_ptr_ := None; control_ptr_ := None |} ;;
  ret {| element_ptr_ := element_ptr_ o; control_ptr_ := control_ptr_ o |}.

(** [~SharedPtr()]; returns the members as the destructor leaves them. *)
Definition SharedPtr_dtor (this : SharedPtr) : M T SharedPtr :=
  match control_ptr_ this with
  | Some a =>
      a ->* decrement_shared ;;
      release_shared a ;;
      let* n := use_count a in
      if n =? 0 then release_weak a else ret tt
  | None => ret tt
  end ;;
  ret {| element_ptr_ := element_ptr_ this; control_ptr_ := None |}.

(** [this.swap(other)] for a temporary [this]; returns the temporary. *)
Definition SharedPtr_swap (this : SharedPtr) (other : nat) : M T SharedPtr :=
  let* o := read_shared other in
  write_shared other this ;;
  ret o.

(** [operator=(const SharedPtr& other)]: [SharedPtr(other).swap( *this )], then
    the temporary is destroyed. *)
Definition SharedPtr_assign (this other : nat) : M T unit :=
  let* o := read_shared other in
  let* tmp := SharedPtr_copy o in
  let* tmp := SharedPtr_swap tmp this in
  SharedPtr_dtor tmp ;;
  ret tt.

(** [operator=(SharedPtr&& other)] *)
Definition SharedPtr_move_assign (this other : nat) : M T unit :=
  let* tmp := SharedPtr_move other in
  let* tmp := SharedPtr_swap tmp this in
  SharedPtr_dtor tmp ;;
  ret tt.

(** [reset()]: [SharedPtr().swap( *this )] *)
Definition SharedPtr_reset (this : nat) : M T unit :=
  let* tmp := SharedPtr_ctor in
  let* tmp := SharedPtr_swap tmp this in
  SharedPtr_dtor tmp ;;
  ret tt.

Definition SharedPtr_get (this : SharedPtr) : option object :=
  element_ptr_ this.

Definition SharedPtr_use_count (this : SharedPtr) : M T Z :=
  match control_ptr_ this with
  | Some a => use_count a
  | None => ret 0
  end.

Definition create_with_control_block (ptr : option object) (block : addr)
  : M T SharedPtr :=
  let smart_ptr := {| element_ptr_ := ptr; control_ptr_ := Some block |} in
  block ->* add_shared ;;
  ret smart_ptr.

(** ** The factory *)

Definition put_raw a : M T unit := fun s =>
  Ok tt (set_heap (<[a := Raw]> (heap s)) s).

(** [::new (block) SharedPtrEmplacer(alloc, args...)].  [elem] is what [T]'s
    constructor makes of the arguments, [None] when it throws.  The base and
    [storage_] are constructed before the body runs; when the body throws,
    [~Storage()] runs on the constructed member and placement [new] has no
    storage to give back. *)
Definition SharedPtrEmplacer_ctor a (alloc : Alloc) (elem : option T)
  : M T unit :=
  put_block a (new_block (SharedPtrEmplacer (Some alloc) None)) ;;
  match elem with
  | Some v =>
      emit (EvConstruct a) ;;
      put_block a (new_block (SharedPtrEmplacer (Some alloc) (Some v)))
  | None =>
      emit (EvAllocDtor alloc) ;;
      put_raw a ;;
      throw
  end.

Definition AllocateShared {Args : Type} (alloc : Alloc)
    (construct : Args → option T) (args : Args) : M T SharedPtr :=
  let* block := allocate alloc in
  SharedPtrEmplacer_ctor block alloc (construct args) ;;
  create_with_control_block (Some (inplace block)) block.

Definition MakeShared {Args : Type} (construct : Args → option T) (args : Args)
  : M T SharedPtr :=
  AllocateShared std_allocator construct args.

(** The element stored in place in the block at [a]. *)
Definition get_elem s a : option T :=
  match heap s !! a with
  | Some (Constructed c) =>
      match derived c with
      | SharedPtrEmplacer _ elem => elem
      | _ => None
      end
  | _ => None
  end.

(** ** [WeakPtr] *)

Definition WeakPtr_ctor : M T WeakPtr :=
  ret {| weak_element_ptr_ := None; weak_control_ptr_ := None |}.

(** [WeakPtr(const WeakPtr& other)] *)
Definition WeakPtr_copy (other : WeakPtr) : M T WeakPtr :=
  match weak_control_ptr_ other with
  | Some a => a ->* add_weak
  | None => ret tt
  end ;;
  ret {| weak_element_ptr_ := weak_element_ptr_ other;
         weak_control_ptr_ := weak_control_ptr_ other |}.

(** [WeakPtr(WeakPtr&& other)] *)
Definition WeakPtr_move (other : nat) : M T WeakPtr :=
  let* o := read_weak other in
  write_weak other {| weak_element_ptr_ := None; weak_control_ptr_ := None |} ;;
  ret {| weak_element_ptr_ := weak_element_ptr_ o;
         weak_control_ptr_ := weak_control_ptr_ o |}.

(** [WeakPtr(const SharedPtr<Y>& other)] *)
Definition WeakPtr_from_shared (other : SharedPtr) : M T WeakPtr :=
  match control_ptr_ other with
  | Some a => a ->* add_weak
  | None => ret tt
  end ;;
  ret {| weak_element_ptr_ := element_ptr_ other;
         weak_control_ptr_ := control_ptr_ other |}.

(** [~WeakPtr()] *)
Definition WeakPtr_dtor (this : WeakPtr) : M T WeakPtr :=
  match weak_control_ptr_ this with
  | Some a =>
      a ->* decrement_weak ;;
      let* n := use_count a in
      if n =? 0 then release_weak a else ret tt
  | None => ret tt
  end ;;
  ret {| weak_element_ptr_ := weak_element_ptr_ this; weak_control_ptr_ := None |}.

Definition WeakPtr_swap (this : WeakPtr) (other : nat) : M T WeakPtr :=
  let* o := read_weak other in
  write_weak other this ;;
  ret o.

Definition WeakPtr_assign (this other : nat) : M T unit :=
  let* o := read_weak other in
  let* tmp := WeakPtr_copy o in
  let* tmp := WeakPtr_swap tmp this in
  WeakPtr_dtor tmp ;;
  ret tt.

Definition WeakPtr_move_assign (this other : nat) : M T unit :=
  let* tmp := WeakPtr_move other in
  let* tmp := WeakPtr_swap tmp this in
  WeakPtr_dtor tmp ;;
  ret tt.

(** [expired()] *)
Definition WeakPtr_expired (this : WeakPtr) : M T bool :=
  match weak_control_ptr_ this with
  | None => ret true
  | Some a => let* n := use_count a in ret (n =? 0)
  end.

(** [lock()] *)
Definition WeakPtr_lock (this : WeakPtr) : M T SharedPtr :=
  let control :=
    match weak_control_ptr_ this with Some a => Some a | None => None end in
  let element :=
    match control with Some _ => weak_element_ptr_ this | None => None end in
  ret {| element_ptr_ := element; control_ptr_ := control |}.

End Handles.

(** ** Programs over handles

    The statements a scope can contain, each naming handle objects by their
    index in the store. *)

Inductive op : Type :=
  | Default                        (* SharedPtr<T> h;                    *)
  | Copy (src : nat)               (* SharedPtr<T> h(src);               *)
  | Move (src : nat)               (* SharedPtr<T> h(std::move(src));    *)
  | Assign (dst src : nat)         (* dst = src;                         *)
  | MoveAssign (dst src : nat)     (* dst = std::move(src);              *)
  | Reset (h : nat)                (* h.reset();                         *)
  | Destroy (h : nat)              (* h goes out of scope                *)
  | WDefault                       (* WeakPtr<T> w;                      *)
  | WFromShared (h : nat)          (* WeakPtr<T> w(h);                   *)
  | WCopy (src : nat)              (* WeakPtr<T> w(src);                 *)
  | WMove (src : nat)              (* WeakPtr<T> w(std::move(src));      *)
  | WAssign (dst src : nat)        (* dst = src;                         *)
  | WMoveAssign (dst src : nat)    (* dst = std::move(src);              *)
  | WDestroy (w : nat)             (* w goes out of scope                *)
  | Lock (w : nat).                (* SharedPtr<T> h = w.lock();         *)

Definition is_lock (o : op) : bool :=
  match o with Lock _ => true | _ => false end.

Section Programs.

Context {T : Type}.

Implicit Types (s : State T) (a : addr).

Definition shared_in_scope s (i : nat) : bool :=
  match owning s !! i with Some (Some _) => true | _ => false end.

Definition weak_in_scope s (i : nat) : bool :=
  match observing s !! i with Some (Some _) => true | _ => false end.

Definition well_scoped (o : op) s : bool :=
  match o with
  | Default | WDefault => true
  | Copy i | Move i | Reset i | Destroy i | WFromShared i => shared_in_scope s i
  | Assign i j | MoveAssign i j => shared_in_scope s i && shared_in_scope s j
  | WCopy i | WMove i | WDestroy i | Lock i => weak_in_scope s i
  | WAssign i j | WMoveAssign i j => weak_in_scope s i && weak_in_scope s j
  end.

Definition statement (o : op) : M T unit :=
  match o with
  | Default => let* h := SharedPtr_ctor in declare_shared h
  | Copy src =>
      let* o := read_shared src in
      let* h := SharedPtr_copy o in
      declare_shared h
  | Move src => let* h := SharedPtr_move src in declare_shared h
  | Assign dst src => SharedPtr_assign dst src
  | MoveAssign dst src => SharedPtr_move_assign dst src
  | Reset h => SharedPtr_reset h
  | Destroy h =>
      let* p := read_shared h in
      let* p := SharedPtr_dtor p in
      write_shared h p ;;
      end_shared h
  | WDefault => let* w := WeakPtr_ctor in declare_weak w
  | WFromShared h =>
      let* o := read_shared h in
      let* w := WeakPtr_from_shared o in
      declare_weak w
  | WCopy src =>
      let* o := read_weak src in
      let* w := WeakPtr_copy o in
      declare_weak w
  | WMove src => let* w := WeakPtr_move src in declare_weak w
  | WAssign dst src => WeakPtr_assign dst src
  | WMoveAssign dst src => WeakPtr_move_assign dst src
  | WDestroy w =>
      let* p := read_weak w in
      let* p := WeakPtr_dtor p in
      write_weak w p ;;
      end_weak w
  | Lock w =>
      let* o := read_weak w in
      let* h := WeakPtr_lock o in
      declare_shared h
  end.

(** A statement that names a handle which is not in scope is not part of any
    program: it is left out. *)
Definition step (o : op) : M T unit := fun s =>
  if well_scoped o s then statement o s else Ok tt s.

Fixpoint run (ops : list op) : M T unit :=
  match ops with
  | [] => ret tt
  | o :: ops' => step o ;; run ops'
  end.

(** The state a program starts in: nothing allocated, no handle declared. *)
Definition start (answers : list bool) : State T :=
  {| heap := ∅; log := []; budget := answers; owning := []; observing := [] |}.

End Programs.


(** * Reference counts as the program sees them *)

(** How many references to the block at [a] a pointer, a handle, a store
    hold. *)
Definition refs (a : addr) (c : option addr) : Z :=
  if decide (c = Some a) then 1 else 0.

Definition shared_refs (a : addr) (h : option SharedPtr) : Z :=
  match h with Some p => refs a (control_ptr_ p) | None => 0 end.

Definition weak_refs (a : addr) (h : option WeakPtr) : Z :=
  match h with Some w => refs a (weak_control_ptr_ w) | None => 0 end.

Fixpoint tally {A : Type} (f : A → Z) (l : list A) : Z :=
  match l with
  | [] => 0
  | x :: l' => f x + tally f l'
  end.

(** The number of Owning Handles in scope that reference the block at [a]. *)
Definition owners (a : addr) (l : list (option SharedPtr)) : Z :=
  tally (shared_refs a) l.

(** The number of Observing Handles in scope that reference it. *)
Definition observers (a : addr) (l : list (option WeakPtr)) : Z :=
  tally (weak_refs a) l.


Section Consistency.

Context {T : Type}.

Implicit Types (s : State T) (a : addr) (x y : option addr).

(** References to [a] held by the Owning Handles in scope, plus the one a
    temporary [SharedPtr] holds while a method runs ([x] is its
    [control_ptr_]); the same for Observing Handles. *)
Definition strong_refs a x s : Z := owners a (owning s) + refs a x.
Definition weak_refs_total a y s : Z := observers a (observing s) + refs a y.

Definition b2z (b : bool) : Z := if b then 1 else 0.

(** What the hooks of a control block still need: the deleter (or the
    element) for the first, the stored allocator for both. *)
Definition object_alive (d : Derived T) : bool :=
  match d with
  | SharedPtrPointer _ del _ => bool_decide (is_Some del)
  | SharedPtrEmplacer _ elem => bool_decide (is_Some elem)
  end.

Definition allocator_of (d : Derived T) : option Alloc :=
  match d with
  | SharedPtrPointer _ _ al => al
  | SharedPtrEmplacer al _ => al
  end.

(** The managed object lives as long as an owner is left, the allocator
    until the block is freed. *)
Definition derived_ok (c : ControlBlock T) : Prop :=
  (0 < shared_owners_ c → object_alive (derived c) = true) ∧
  is_Some (allocator_of (derived c)).

(** The storage at an address agrees with [n] strong and [m] weak
    references: a constructed block carries exactly these counts; anything
    else is referenced by nobody. *)
Definition cell_ok (n m : Z) (o : option (cell T)) : Prop :=
  match o with
  | Some (Constructed c) =>
      shared_owners_ c = n ∧ shared_weak_owners_ c = m ∧ derived_ok c
  | _ => n = 0 ∧ m = 0
  end.

(** How often the first hook ran on the block at [a], and how often its
    storage was deallocated. *)
Definition destroyed a s : Z := count_events (is_zero_shared a) (log s).
Definition deallocated a s : Z := count_events (is_deallocate a) (log s).

(** The invariant at one address, with the log tied to the counts through
    two ledgers [Z0] and [D0] that no method changes: the first hook has run
    once more when no strong reference is left, the storage has been
    deallocated once more when no reference at all is left. *)
Record Inv_at (Z0 D0 : addr → Z) x y s a : Prop := {
  inv_cell : cell_ok (strong_refs a x s) (weak_refs_total a y s) (heap s !! a);
  inv_destroyed :
    destroyed a s - b2z (strong_refs a x s =? 0) = Z0 a;
  inv_deallocated :
    deallocated a s
      - b2z ((strong_refs a x s =? 0) && (weak_refs_total a y s =? 0)) = D0 a }.

Definition Inv (Z0 D0 : addr → Z) x y s : Prop := ∀ a, Inv_at Z0 D0 x y s a.

(** A state is consistent when every control block counts exactly the
    handles in scope that reference it. *)
Definition consistent s : Prop :=
  ∀ a, cell_ok (owners a (owning s)) (observers a (observing s)) (heap s !! a).

(** The counters have room for [extra] more handles of each kind: no
    increment can wrap around. *)
Definition in_range s (extra : nat) : Prop :=
  Z.of_nat (length (owning s)) + Z.of_nat extra < SIZE_MAX ∧
  Z.of_nat (length (observing s)) + Z.of_nat extra < SIZE_MAX.

End Consistency.

Section Bounds.

Context {T : Type}.

(** What one statement can do to the store: declare at most one handle, take
    at most one reference from a block, and never reference a block that
    nobody referenced. *)
Definition step_bounds (s s' : State T) : Prop :=
  (length (owning s') ≤ S (length (owning s)))%nat ∧
  (length (observing s') ≤ S (length (observing s)))%nat ∧
  ∀ a : addr,
    owners a (owning s) - 1 ≤ owners a (owning s') ∧
    (owners a (owning s) = 0 → owners a (owning s') = 0) ∧
    (owners a (owning s) = 0 → observers a (observing s) = 0 →
     observers a (observing s') = 0).

(** Over a whole program: the references a block has lost all of stay
    lost. *)
Definition run_bounds (s s' : State T) : Prop :=
  ∀ a : addr, (owners a (owning s) = 0 → owners a (owning s') = 0) ∧
       (owners a (owning s) = 0 → observers a (observing s) = 0 →
        observers a (observing s') = 0).

(** A program that never calls [lock()]. *)
Definition lock_free (ops : list op) : Prop :=
  Forall (λ o, is_lock o = false) ops.

(** The strong count stored in the block at [a], when there is one. *)
Definition strong_count (s : State T) (a : addr) : option Z :=
  match heap s !! a with
  | Some (Constructed c) => Some (shared_owners_ c)
  | _ => None
  end.

(** The invariant of an Owning Handle: it is empty, or its control block is
    constructed and the strong count includes the handle's own reference,
    with room for one more. *)
Definition handle_ok (s : State T) (p : SharedPtr) : Prop :=
  match control_ptr_ p with
  | None => True
  | Some a =>
      ∃ c, heap s !! a = Some (Constructed c) ∧ 1 ≤ shared_owners_ c < SIZE_MAX
  end.

End Bounds.

(** * The scenarios of the specification, as concrete states *)

Module Scenario.

(** Object X at address 7 and its destruction strategy D. *)
Definition X : option object := Some (external 7%positive).
Definition D : Deleter := custom_deleter 0.

(** The control block of X, at address 1. *)
Definition block (strong weak : Z) (del : option Deleter) : cell unit :=
  Constructed {| shared_owners_ := strong; shared_weak_owners_ := weak;
                 derived := SharedPtrPointer X del (Some std_allocator) |}.

Definition H : SharedPtr :=
  {| element_ptr_ := X; control_ptr_ := Some 1%positive |}.

Definition W : WeakPtr :=
  {| weak_element_ptr_ := X; weak_control_ptr_ := Some 1%positive |}.

(** After [SharedPtr<T> H(X, D);] *)
Definition with_H : State unit :=
  {| heap := {[ 1%positive := block 1 0 (Some D) ]};
     log := [EvAllocate std_allocator 1%positive];
     budget := [];
     owning := [Some H];
     observing := [] |}.

(** After [WeakPtr<T> W(H);] *)
Definition with_H_W : State unit :=
  {| heap := {[ 1%positive := block 1 1 (Some D) ]};
     log := [EvAllocate std_allocator 1%positive];
     budget := [];
     owning := [Some H];
     observing := [Some W] |}.

(** After H went out of scope: the object is gone, the block is kept for W. *)
Definition with_W : State unit :=
  {| heap := {[ 1%positive := block 0 1 None ]};
     log := [EvAllocate std_allocator 1%positive; EvZeroShared 1%positive;
             EvDelete D X; EvDeleterDtor D];
     budget := [];
     owning := [None];
     observing := [Some W] |}.

(** Scenario A: copy H, let H go, let the copy go. *)
Definition scenario_A : list op := [Copy 0; Destroy 0; Destroy 1].

(** A program in which a handle made by [lock()] and the Observing Handle go
    out of scope while H stays. *)
Definition lock_then_leave : list op :=
  [WFromShared 0; Lock 0; Destroy 1; WDestroy 0].

(** Where [lock_then_leave] ends. *)
Definition H_left_dangling : State unit :=
  {| heap := ∅;
     log := [EvAllocate std_allocator 1%positive; EvZeroShared 1%positive;
             EvDelete D X; EvDeleterDtor D; EvZeroSharedAndWeak 1%positive;
             EvAllocDtor std_allocator; EvDeallocate std_allocator 1%positive];
     budget := [];
     owning := [Some H; None];
     observing := [None] |}.

(** A value type with two members, and its constructor. *)
Definition pair_ctor (args : Z * Z) : option (Z * Z) := Some args.
Definition throwing_ctor (args : Z * Z) : option (Z * Z) := None.

(** Where [AllocateShared] leaves the program when the constructor throws. *)
Definition block_leaked : State (Z * Z) :=
  {| heap := {[ 1%positive := Raw ]};
     log := [EvAllocate (custom_alloc 0) 1%positive; EvAllocDtor (custom_alloc 0)];
     budget := [];
     owning := [];
     observing := [] |}.

End Scenario.

(** * What the hooks log, and what a statement may do to the storage *)

Section Further.

Context {T : Type}.

(** The events of the first hook on a block with members [d], and the members
    it leaves. *)
Definition destroy_events (a : addr) (d : Derived T) : list event :=
  match d with
  | SharedPtrPointer value (Some del) _ =>
      [EvZeroShared a; EvDelete del value; EvDeleterDtor del]
  | SharedPtrPointer _ None _ => [EvZeroShared a]
  | SharedPtrEmplacer _ _ => [EvZeroShared a; EvDestroy a]
  end.

Definition spent (d : Derived T) : Derived T :=
  match d with
  | SharedPtrPointer value _ al => SharedPtrPointer value None al
  | SharedPtrEmplacer al _ => SharedPtrEmplacer al None
  end.

(** The events of the second hook. *)
Definition free_events (a : addr) (al : Alloc) : list event :=
  [EvZeroSharedAndWeak a; EvAllocDtor al; EvDeallocate al a].

(** A computation that returns keeps the relation [R] between the state it
    starts in and the state it returns in, and it does not throw. *)
Definition respects (R : State T → State T → Prop) {A : Type} (m : M T A) : Prop :=
  ∀ s, match m s with
       | Ok _ s' => R s s'
       | Throw _ => False
       | UB => True
       end.

(** From [s] to [s'] storage was at most given back: the log has grown by
    events that are not allocations, the allocator was not asked, no address
    came into use, and every address deallocated on the way is out of use. *)
Definition frees_only (s s' : State T) : Prop :=
  (∃ evs, log s' = log s ++ evs ∧ count_events is_allocate evs = 0) ∧
  budget s' = budget s ∧
  (∀ a : addr, heap s !! a = None → heap s' !! a = None) ∧
  (∀ a : addr, deallocated a s < deallocated a s' → heap s' !! a = None).

(** The same state with other handles in scope. *)
Definition with_store (lo : list (option SharedPtr)) (lw : list (option WeakPtr))
    (s : State T) : State T :=
  set_observing lw (set_owning lo s).

Definition outcome_map {A : Type} (f : State T → State T) (r : outcome T A)
  : outcome T A :=
  match r with
  | Ok x s => Ok x (f s)
  | Throw s => Throw (f s)
  | UB => UB
  end.

(** A computation on the storage and the log only: which handles are in
    scope makes no difference to it, and it leaves them as they are. *)
Definition storage_only {A : Type} (m : M T A) : Prop :=
  ∀ lo lw s, m (with_store lo lw s) = outcome_map (with_store lo lw) (m s).

(** From [s] to [s'] the Owning Handles in scope are the same objects with
    the same members. *)
Definition same_owners (s s' : State T) : Prop := owning s' = owning s.

(** From [s] to [s'] nothing happened to the storage at [b]: its content is
    the same and neither hook ran on it. *)
Definition untouched (b : addr) (s s' : State T) : Prop :=
  heap s' !! b = heap s !! b ∧
  destroyed b s' = destroyed b s ∧
  deallocated b s' = deallocated b s.

End Further.

(** The statements on Observing Handles that do not make an Owning Handle. *)
Definition is_weak_op (o : op) : bool :=
  match o with
  | WDefault | WFromShared _ | WCopy _ | WMove _
  | WAssign _ _ | WMoveAssign _ _ | WDestroy _ => true
  | _ => false
  end.

(** More states of the scenarios. *)
Module MoreScenarios.

Import Scenario.

(** After [SharedPtr<T> H(X, D); SharedPtr<T> E;] *)
Definition with_H_E : State unit :=
  {| heap := {[ 1%positive := block 1 0 (Some D) ]};
     log := [EvAllocate std_allocator 1%positive];
     budget := [];
     owning := [Some H; Some {| element_ptr_ := None; control_ptr_ := None |}];
     observing := [] |}.

(** After [SharedPtr<T> H(X, D); WeakPtr<T> W(H); WeakPtr<T> V;] *)
Definition with_H_W_V : State unit :=
  {| heap := {[ 1%positive := block 1 1 (Some D) ]};
     log := [EvAllocate std_allocator 1%positive];
     budget := [];
     owning := [Some H];
     observing := [Some W;
                   Some {| weak_element_ptr_ := None; weak_control_ptr_ := None |}] |}.

(** After [SharedPtr<T> H(X, D); WeakPtr<T> W(H); SharedPtr<T> L = W.lock();] *)
Definition with_H_W_L : State unit :=
  {| heap := {[ 1%positive := block 1 1 (Some D) ]};
     log := [EvAllocate std_allocator 1%positive];
     budget := [];
     owning := [Some H; Some H];
     observing := [Some W] |}.

(** After L went out of scope: X is destroyed, H is in scope. *)
Definition X_destroyed_under_H : State unit :=
  {| heap := {[ 1%positive := block 0 1 None ]};
     log := [EvAllocate std_allocator 1%positive; EvZeroShared 1%positive;
             EvDelete D X; EvDeleterDtor D];
     budget := [];
     owning := [Some H; None];
     observing := [Some W] |}.

(** The control block of X as the members of [ControlBlock]. *)
Definition block_of_X (strong weak : Z) : ControlBlock unit :=
  {| shared_owners_ := strong; shared_weak_owners_ := weak;
     derived := SharedPtrPointer X (Some D) (Some std_allocator) |}.

End MoreScenarios.


(** * Verification

    The programs are verified through one invariant, [Inv]: at every address
    the heap holds a constructed block whose two counts are the numbers of
    handles that reference it, or nothing that anybody references; and the
    number of hook calls in the log moves together with the counts reaching
    zero.  Each method is shown to keep it, with the reference held by the
    temporary of an assignment counted apart; the statements and the programs
    follow. *)

(** ** Arithmetic and counting *)

Lemma wrap_small (n : Z) : 0 ≤ n < 2 ^ 64 → wrap n = n.
Proof. intros H. unfold wrap. apply Z.mod_small. exact H. Qed.

Lemma count_events_app (f : event → bool) (l1 l2 : list event) :
  count_events f (l1 ++ l2) = count_events f l1 + count_events f l2.
Proof.
  induction l1 as [|e l1 IH]; simpl; [reflexivity|].
  rewrite IH. destruct (f e); lia.
Qed.

Section Tally.

Context {A : Type} (f : A → Z).
Hypothesis f_range : ∀ x, 0 ≤ f x ≤ 1.

Lemma tally_app (l1 l2 : list A) : tally f (l1 ++ l2) = tally f l1 + tally f l2.
Proof using Type. induction l1 as [|x l1 IH]; simpl; lia. Qed.

Lemma tally_nonneg (l : list A) : 0 ≤ tally f l.
Proof using f_range.
  induction l as [|x l IH]; simpl; [lia|]. specialize (f_range x). lia.
Qed.

Lemma tally_le_length (l : list A) : tally f l ≤ Z.of_nat (length l).
Proof using f_range.
  induction l as [|x l IH]; simpl length; simpl tally; [lia|].
  specialize (f_range x). lia.
Qed.

Lemma tally_insert (l : list A) (i : nat) (x y : A) :
  l !! i = Some x → tally f (<[i := y]> l) = tally f l - f x + f y.
Proof using Type.
  revert i. induction l as [|z l IH]; intros [|i] H; simpl in *; try discriminate.
  - injection H as ->. lia.
  - rewrite (IH i H). lia.
Qed.

Lemma tally_lookup (l : list A) (i : nat) (x : A) :
  l !! i = Some x → f x ≤ tally f l.
Proof using f_range.
  revert i. induction l as [|z l IH]; intros [|i] H; simpl in *; try discriminate.
  - injection H as ->. pose proof (tally_nonneg l). lia.
  - specialize (IH i H). specialize (f_range z). lia.
Qed.

End Tally.

Lemma refs_range (a : addr) (c : option addr) : 0 ≤ refs a c ≤ 1.
Proof. unfold refs. case_decide; lia. Qed.

Lemma shared_refs_range (a : addr) (h : option SharedPtr) : 0 ≤ shared_refs a h ≤ 1.
Proof. destruct h; simpl; [apply refs_range | lia]. Qed.

Lemma weak_refs_range (a : addr) (h : option WeakPtr) : 0 ≤ weak_refs a h ≤ 1.
Proof. destruct h; simpl; [apply refs_range | lia]. Qed.

Lemma refs_same (a : addr) : refs a (Some a) = 1.
Proof. unfold refs. case_decide; congruence. Qed.

Lemma refs_other (a a' : addr) : a' ≠ a → refs a (Some a') = 0.
Proof. unfold refs. intros H. case_decide; congruence. Qed.

Lemma refs_null (a : addr) : refs a None = 0.
Proof. reflexivity. Qed.

Lemma owners_nonneg (a : addr) (l : list (option SharedPtr)) : 0 ≤ owners a l.
Proof. apply tally_nonneg, shared_refs_range. Qed.

Lemma observers_nonneg (a : addr) (l : list (option WeakPtr)) : 0 ≤ observers a l.
Proof. apply tally_nonneg, weak_refs_range. Qed.

Lemma owners_le_length (a : addr) (l : list (option SharedPtr)) :
  owners a l ≤ Z.of_nat (length l).
Proof. apply tally_le_length, shared_refs_range. Qed.

Lemma observers_le_length (a : addr) (l : list (option WeakPtr)) :
  observers a l ≤ Z.of_nat (length l).
Proof. apply tally_le_length, weak_refs_range. Qed.

Lemma owners_lookup (a : addr) (l : list (option SharedPtr)) (i : nat) (p : SharedPtr) :
  l !! i = Some (Some p) → control_ptr_ p = Some a → 1 ≤ owners a l.
Proof.
  intros H Hc. pose proof (tally_lookup _ (shared_refs_range a) _ _ _ H) as Hle.
  simpl in Hle. rewrite Hc, refs_same in Hle. exact Hle.
Qed.

Lemma observers_lookup (a : addr) (l : list (option WeakPtr)) (i : nat) (w : WeakPtr) :
  l !! i = Some (Some w) → weak_control_ptr_ w = Some a → 1 ≤ observers a l.
Proof.
  intros H Hc. pose proof (tally_lookup _ (weak_refs_range a) _ _ _ H) as Hle.
  simpl in Hle. rewrite Hc, refs_same in Hle. exact Hle.
Qed.

(** ** Evaluating the counter methods and the hooks *)

Section Evaluation.

Context {T : Type}.

Implicit Types (s : State T) (a : addr) (c : ControlBlock T).

Lemma bind_eq {A B} (m : M T A) (k : A → M T B) s :
  (let* x := m in k x) s
  = match m s with Ok x s' => k x s' | Throw s' => Throw s' | UB => UB end.
Proof. reflexivity. Qed.

Lemma bind_Ok {A B} (m : M T A) (k : A → M T B) s (x : A) s' :
  m s = Ok x s' → (let* y := m in k y) s = k x s'.
Proof. intros E. rewrite bind_eq, E. reflexivity. Qed.

Lemma bind_assoc {A B C} (m : M T A) (k1 : A → M T B) (k2 : B → M T C) s :
  (let* y := (let* x := m in k1 x) in k2 y) s
  = (let* x := m in let* y := k1 x in k2 y) s.
Proof. rewrite !bind_eq. destruct (m s); reflexivity. Qed.

Lemma ret_Ok {A} (x : A) s : ret x s = Ok x s.
Proof. reflexivity. Qed.

Lemma emit_Ok (e : event) s : emit e s = Ok tt (set_log (log s ++ [e]) s).
Proof. reflexivity. Qed.

Lemma put_block_Ok a c s :
  put_block a c s = Ok tt (set_heap (<[a := Constructed c]> (heap s)) s).
Proof. reflexivity. Qed.

Lemma get_block_Ok a c s :
  heap s !! a = Some (Constructed c) → get_block a s = Ok c s.
Proof. intros H. unfold get_block. rewrite H. reflexivity. Qed.

Lemma arrow_Ok a c f s :
  heap s !! a = Some (Constructed c) →
  (a ->* f) s = Ok tt (set_heap (<[a := Constructed (f c)]> (heap s)) s).
Proof. intros H. unfold arrow. rewrite bind_eq, (get_block_Ok _ _ _ H). reflexivity. Qed.

Lemma use_count_Ok a c s :
  heap s !! a = Some (Constructed c) → use_count a s = Ok (shared_owners_ c) s.
Proof. intros H. unfold use_count. rewrite bind_eq, (get_block_Ok _ _ _ H). reflexivity. Qed.

Lemma release_shared_eq a c s :
  heap s !! a = Some (Constructed c) →
  release_shared a s = if shared_owners_ c =? 0 then zero_shared a s else Ok tt s.
Proof.
  intros H. unfold release_shared. rewrite bind_eq, (get_block_Ok _ _ _ H).
  destruct (shared_owners_ c =? 0); reflexivity.
Qed.

Lemma release_weak_eq a c s :
  heap s !! a = Some (Constructed c) →
  release_weak a s
  = if shared_weak_owners_ c =? 0 then zero_shared_and_weak a s else Ok tt s.
Proof.
  intros H. unfold release_weak. rewrite bind_eq, (get_block_Ok _ _ _ H).
  destruct (shared_weak_owners_ c =? 0); reflexivity.
Qed.

(** The first hook on a block whose object is alive: it logs its own call and
    the work of the destruction strategy, and leaves the allocator alone. *)
Lemma zero_shared_Ok a c s :
  heap s !! a = Some (Constructed c) →
  object_alive (derived c) = true →
  is_Some (allocator_of (derived c)) →
  ∃ evs d,
    zero_shared a s
    = Ok tt (set_heap (<[a := Constructed (set_derived d c)]> (heap s))
               (set_log (log s ++ EvZeroShared a :: evs) s)) ∧
    allocator_of d = allocator_of (derived c) ∧
    (∀ a', count_events (is_zero_shared a') evs = 0) ∧
    (∀ a', count_events (is_deallocate a') evs = 0).
Proof.
  intros H Halive [al Hal]. unfold zero_shared.
  rewrite bind_eq, (get_block_Ok _ _ _ H).
  destruct (derived c) as [v [del|] al'|[al'|] [el|]]; simpl in *; try discriminate.
  - exists [EvDelete del v; EvDeleterDtor del], (SharedPtrPointer v None al').
    split; [|auto].
    unfold bind, emit, put_block, set_heap, set_log; simpl.
    rewrite <- !app_assoc. reflexivity.
  - exists [EvDestroy a], (SharedPtrEmplacer (Some al') None).
    split; [|auto].
    unfold bind, emit, put_block, set_heap, set_log; simpl.
    rewrite <- !app_assoc. reflexivity.
Qed.

(** The second hook: the stored allocator is destroyed and the storage goes
    back through a copy of it. *)
Lemma zero_shared_and_weak_Ok a c al s :
  heap s !! a = Some (Constructed c) →
  allocator_of (derived c) = Some al →
  zero_shared_and_weak a s
  = Ok tt (set_heap (delete a (heap s))
             (set_log (log s ++ [EvZeroSharedAndWeak a; EvAllocDtor al;
                                 EvDeallocate al a]) s)).
Proof.
  intros H Hal. unfold zero_shared_and_weak.
  rewrite bind_eq, (get_block_Ok _ _ _ H).
  assert (Hd : (emit (EvAllocDtor al) ;; deallocate al a)
                (set_log (log s ++ [EvZeroSharedAndWeak a]) s)
          = Ok tt (set_heap (delete a (heap s))
             (set_log (log s ++ [EvZeroSharedAndWeak a; EvAllocDtor al;
                                 EvDeallocate al a]) s))).
  { unfold bind, emit, deallocate, set_heap, set_log; simpl. rewrite H.
    rewrite <- !app_assoc. reflexivity. }
  destruct (derived c) as [v del al'|al' el]; simpl in Hal; subst;
    rewrite bind_eq; exact Hd.
Qed.

End Evaluation.

(** One step of a computation: reassociate, run the first action with the
    equation [E] that evaluates it, go on with the rest. *)
Ltac mstep E :=
  rewrite ?bind_assoc; rewrite (bind_Ok _ _ _ _ _ E); cbv beta.

(** ** The invariant is kept by every method *)

(** Reduce the [match] on an outcome that has just been rewritten. *)
Ltac next := cbv beta iota.

(** Expose the counts and the log of an explicit state. *)
Ltac count_simpl :=
  unfold strong_refs, weak_refs_total, destroyed, deallocated in *;
  simpl;
  rewrite ?count_events_app; simpl.

(** Turn boolean comparisons into propositions, by cases where they are not
    decided by a hypothesis. *)
Ltac z_cases :=
  repeat match goal with
  | H : (_ =? _) = true |- _ => apply Z.eqb_eq in H
  | H : (_ =? _) = false |- _ => apply Z.eqb_neq in H
  | H : (_ <? _) = true |- _ => apply Z.ltb_lt in H
  | H : (_ <? _) = false |- _ => apply Z.ltb_ge in H
  | |- context [?a =? ?b] => destruct (Z.eqb_spec a b)
  | H : context [?a =? ?b] |- _ => destruct (Z.eqb_spec a b)
  end.

(** Look up in a heap that was updated at one address, at that address or at
    another one. *)
Ltac map_simpl :=
  rewrite ?lookup_delete_eq, ?lookup_insert_eq;
  rewrite ?lookup_delete_ne, ?lookup_insert_ne by congruence;
  rewrite ?lookup_delete_eq, ?lookup_insert_eq;
  rewrite ?lookup_delete_ne, ?lookup_insert_ne by congruence;
  rewrite ?refs_same, ?refs_null in *;
  rewrite ?refs_other in * by congruence;
  rewrite ?bool_decide_eq_true_2 by congruence;
  rewrite ?bool_decide_eq_false_2 by congruence.

(** The two halves of [derived_ok] for a block whose counts changed. *)
Ltac derived_finish :=
  unfold derived_ok in *; simpl in *;
  repeat match goal with H : _ ∧ _ |- _ => destruct H end;
  split;
  [ intros;
    first [ lia
          | match goal with
            | H : _ → object_alive _ = true |- _ => apply H; lia
            end ]
  | first [ assumption | congruence | eauto ] ].

(** Close a field of [Inv_at] once the state is explicit. *)
Ltac inv_arith :=
  try assumption; z_cases; unfold b2z in *; simpl in *; z_cases;
  try assumption; try lia;
  try (split; [lia | split; [lia | derived_finish]]).

Section Steps.

Context {T : Type}.

Implicit Types (s : State T) (a : addr) (x y : option addr).

Variables (Z0 D0 : addr → Z).

(** A block that somebody references is constructed and carries the
    counts. *)
Lemma Inv_block x y s a :
  Inv Z0 D0 x y s →
  0 < strong_refs a x s ∨ 0 < weak_refs_total a y s →
  ∃ c, heap s !! a = Some (Constructed c) ∧
       shared_owners_ c = strong_refs a x s ∧
       shared_weak_owners_ c = weak_refs_total a y s ∧
       derived_ok c.
Proof.
  intros HI Hpos. destruct (HI a) as [Hc _ _].
  destruct (heap s !! a) as [[|c]|]; simpl in Hc; try lia.
  exists c. tauto.
Qed.

(** Handles entering or leaving the store do not matter as long as the
    references are only moved between the store and the temporary. *)
Lemma Inv_set_owning x x' y s (l : list (option SharedPtr)) :
  Inv Z0 D0 x y s →
  (∀ a, owners a l + refs a x' = owners a (owning s) + refs a x) →
  Inv Z0 D0 x' y (set_owning l s).
Proof.
  intros HI Hl a. destruct (HI a) as [Hc Hz Hd].
  constructor; unfold strong_refs, weak_refs_total, destroyed, deallocated in *;
    simpl; rewrite ?Hl; assumption.
Qed.

Lemma Inv_set_observing x y y' s (l : list (option WeakPtr)) :
  Inv Z0 D0 x y s →
  (∀ a, observers a l + refs a y' = observers a (observing s) + refs a y) →
  Inv Z0 D0 x y' (set_observing l s).
Proof.
  intros HI Hl a. destruct (HI a) as [Hc Hz Hd].
  constructor; unfold strong_refs, weak_refs_total, destroyed, deallocated in *;
    simpl; rewrite ?Hl; assumption.
Qed.

(** [~SharedPtr()] gives back the reference the handle held.  The
    destructor does not look at the store, so the store the references are
    counted in can be any [l]. *)
Lemma SharedPtr_dtor_inv y s p (l : list (option SharedPtr)) :
  Inv Z0 D0 (control_ptr_ p) y (set_owning l s) →
  ∃ s', SharedPtr_dtor p s
          = Ok {| element_ptr_ := element_ptr_ p; control_ptr_ := None |} s' ∧
        Inv Z0 D0 None y (set_owning l s') ∧
        owning s' = owning s ∧ observing s' = observing s.
Proof.
  intros HI. unfold SharedPtr_dtor.
  destruct (control_ptr_ p) as [a0|].
  2:{ exists s. auto. }
  destruct (Inv_block _ _ _ a0 HI) as (c & Hh & Hs & Hw & Hd).
  { left. unfold strong_refs. rewrite refs_same.
    pose proof (owners_nonneg a0 (owning (set_owning l s))). lia. }
  pose proof (owners_nonneg a0 l) as Hn.
  pose proof (observers_nonneg a0 (observing s)) as Hm.
  pose proof (refs_range a0 y) as Hy.
  unfold strong_refs in Hs. rewrite refs_same in Hs. simpl in Hh, Hs, Hw.
  set (c1 := set_shared_owners (shared_owners_ c - 1) c).
  assert (Hdec : decrement_shared c = c1).
  { unfold decrement_shared. destruct (0 <? shared_owners_ c) eqn:E; [reflexivity|lia]. }
  rewrite bind_eq, bind_eq, (arrow_Ok _ _ _ _ Hh), Hdec. next.
  set (s1 := set_heap _ s).
  assert (Hh1 : heap s1 !! a0 = Some (Constructed c1)) by apply lookup_insert_eq.
  rewrite bind_eq, (release_shared_eq _ _ _ Hh1).
  destruct (shared_owners_ c1 =? 0) eqn:Hz.
  - (* the last owner: the first hook runs *)
    destruct Hd as [Halive Hal].
    destruct (zero_shared_Ok a0 c1 s1 Hh1 (Halive ltac:(lia)) Hal)
      as (evs & d & -> & Hald & Hzs & Hde).
    next. set (s2 := set_heap _ _).
    assert (Hh2 : heap s2 !! a0 = Some (Constructed (set_derived d c1)))
      by apply lookup_insert_eq.
    rewrite bind_eq, (use_count_Ok _ _ _ Hh2). next.
    change (shared_owners_ (set_derived d c1)) with (shared_owners_ c1).
    rewrite Hz. rewrite (release_weak_eq _ _ _ Hh2).
    change (shared_weak_owners_ (set_derived d c1)) with (shared_weak_owners_ c).
    destruct (shared_weak_owners_ c =? 0) eqn:Hwz.
    + (* no observer either: the second hook runs *)
      destruct Hal as [al Hal].
      rewrite (zero_shared_and_weak_Ok a0 _ al s2 Hh2) by (simpl in *; congruence).
      next. eexists. split; [reflexivity|]. split; [|auto].
      intros a. destruct (HI a) as [Hc' Hz' Hd'].
      destruct (decide (a = a0)) as [->|Hne];
        constructor; count_simpl; rewrite ?Hzs, ?Hde; map_simpl; subst c1;
        inv_arith.
    + eexists. split; [reflexivity|]. split; [|auto].
      intros a. destruct (HI a) as [Hc' Hz' Hd'].
      destruct (decide (a = a0)) as [->|Hne];
        constructor; count_simpl; rewrite ?Hzs, ?Hde; map_simpl; subst c1;
        inv_arith.
  - rewrite bind_eq, (use_count_Ok _ _ _ Hh1), Hz. next.
    eexists. split; [reflexivity|]. split; [|auto].
    intros a. destruct (HI a) as [Hc' Hz' Hd'].
    destruct (decide (a = a0)) as [->|Hne];
      constructor; count_simpl; map_simpl; subst c1; inv_arith.
Qed.

(** The copy constructor takes one more reference to a block that is alive
    because its source references it. *)
Lemma SharedPtr_copy_inv y s p :
  Inv Z0 D0 None y s →
  (∀ a, control_ptr_ p = Some a → 1 ≤ owners a (owning s)) →
  Z.of_nat (length (owning s)) < SIZE_MAX →
  ∃ s', SharedPtr_copy p s = Ok p s' ∧
        Inv Z0 D0 (control_ptr_ p) y s' ∧
        owning s' = owning s ∧ observing s' = observing s.
Proof.
  intros HI Hp Hlen. unfold SharedPtr_copy. rewrite bind_eq.
  destruct p as [e [a0|]]; simpl in *.
  2:{ exists s. auto. }
  specialize (Hp a0 eq_refl).
  destruct (Inv_block _ _ _ a0 HI) as (c & Hh & Hs & Hw & Hd).
  { left. unfold strong_refs. rewrite refs_null. lia. }
  unfold strong_refs in Hs. rewrite refs_null in Hs.
  pose proof (owners_le_length a0 (owning s)) as Hle.
  assert (Hadd : add_shared c = set_shared_owners (shared_owners_ c + 1) c).
  { unfold add_shared. rewrite wrap_small; [reflexivity|]. unfold SIZE_MAX in Hlen. lia. }
  rewrite (arrow_Ok _ _ _ _ Hh), Hadd. next.
  eexists. split; [reflexivity|]. split; [|auto].
  intros a. destruct (HI a) as [Hc' Hz' Hd'].
  destruct (decide (a = a0)) as [->|Hne];
    constructor; count_simpl; map_simpl; inv_arith.
Qed.

(** The same for the weak count, whoever the source is. *)
Lemma add_weak_inv x s a0 :
  Inv Z0 D0 x None s →
  1 ≤ strong_refs a0 x s ∨ 1 ≤ observers a0 (observing s) →
  Z.of_nat (length (observing s)) < SIZE_MAX →
  ∃ s', (a0 ->* add_weak) s = Ok tt s' ∧
        Inv Z0 D0 x (Some a0) s' ∧
        owning s' = owning s ∧ observing s' = observing s.
Proof.
  intros HI Hp Hlen.
  destruct (Inv_block _ _ _ a0 HI) as (c & Hh & Hs & Hw & Hd).
  { unfold weak_refs_total. rewrite refs_null. lia. }
  unfold weak_refs_total in Hw. rewrite refs_null in Hw.
  pose proof (observers_le_length a0 (observing s)) as Hle.
  pose proof (observers_nonneg a0 (observing s)) as Hm.
  assert (Hadd : add_weak c = set_shared_weak_owners (shared_weak_owners_ c + 1) c).
  { unfold add_weak. rewrite wrap_small; [reflexivity|]. unfold SIZE_MAX in Hlen. lia. }
  rewrite (arrow_Ok _ _ _ _ Hh), Hadd.
  eexists. split; [reflexivity|]. split; [|auto].
  intros a. destruct (HI a) as [Hc' Hz' Hd'].
  destruct (decide (a = a0)) as [->|Hne];
    constructor; count_simpl; map_simpl; inv_arith.
Qed.

Lemma WeakPtr_copy_inv s w :
  Inv Z0 D0 None None s →
  (∀ a, weak_control_ptr_ w = Some a → 1 ≤ observers a (observing s)) →
  Z.of_nat (length (observing s)) < SIZE_MAX →
  ∃ s', WeakPtr_copy w s = Ok w s' ∧
        Inv Z0 D0 None (weak_control_ptr_ w) s' ∧
        owning s' = owning s ∧ observing s' = observing s.
Proof.
  intros HI Hp Hlen. unfold WeakPtr_copy. rewrite bind_eq.
  destruct w as [e [a0|]]; simpl in *.
  2:{ exists s. auto. }
  destruct (add_weak_inv None s a0 HI) as (s' & -> & HI' & Ho & Hb); auto.
  exists s'. auto.
Qed.

Lemma WeakPtr_from_shared_inv s p :
  Inv Z0 D0 None None s →
  (∀ a, control_ptr_ p = Some a → 1 ≤ owners a (owning s)) →
  Z.of_nat (length (observing s)) < SIZE_MAX →
  ∃ s', WeakPtr_from_shared p s
          = Ok {| weak_element_ptr_ := element_ptr_ p;
                  weak_control_ptr_ := control_ptr_ p |} s' ∧
        Inv Z0 D0 None (control_ptr_ p) s' ∧
        owning s' = owning s ∧ observing s' = observing s.
Proof.
  intros HI Hp Hlen. unfold WeakPtr_from_shared. rewrite bind_eq.
  destruct p as [e [a0|]]; simpl in *.
  2:{ exists s. auto. }
  destruct (add_weak_inv None s a0 HI) as (s' & -> & HI' & Ho & Hb); auto.
  { left. unfold strong_refs. rewrite refs_null. specialize (Hp a0 eq_refl). lia. }
  exists s'. auto.
Qed.

(** [~WeakPtr()] gives back the weak reference, and frees the block when it
    was the last reference of any kind. *)
Lemma WeakPtr_dtor_inv x s w (l : list (option WeakPtr)) :
  Inv Z0 D0 x (weak_control_ptr_ w) (set_observing l s) →
  ∃ s', WeakPtr_dtor w s
          = Ok {| weak_element_ptr_ := weak_element_ptr_ w;
                  weak_control_ptr_ := None |} s' ∧
        Inv Z0 D0 x None (set_observing l s') ∧
        owning s' = owning s ∧ observing s' = observing s.
Proof.
  intros HI. unfold WeakPtr_dtor.
  destruct (weak_control_ptr_ w) as [a0|].
  2:{ exists s. auto. }
  pose proof (owners_nonneg a0 (owning s)) as Hn.
  pose proof (observers_nonneg a0 l) as Hm.
  pose proof (refs_range a0 x) as Hx.
  destruct (Inv_block _ _ _ a0 HI) as (c & Hh & Hs & Hw & Hd).
  { right. unfold weak_refs_total. rewrite refs_same. simpl. lia. }
  unfold weak_refs_total in Hw. rewrite refs_same in Hw.
  unfold strong_refs in Hs. simpl in Hh, Hs, Hw.
  set (c1 := set_shared_weak_owners (shared_weak_owners_ c - 1) c).
  assert (Hdec : decrement_weak c = c1).
  { unfold decrement_weak. destruct (0 <? shared_weak_owners_ c) eqn:E; [reflexivity|lia]. }
  rewrite bind_eq, bind_eq, (arrow_Ok _ _ _ _ Hh), Hdec. next.
  set (s1 := set_heap _ s).
  assert (Hh1 : heap s1 !! a0 = Some (Constructed c1)) by apply lookup_insert_eq.
  rewrite bind_eq, (use_count_Ok _ _ _ Hh1). next.
  change (shared_owners_ c1) with (shared_owners_ c).
  destruct (shared_owners_ c =? 0) eqn:Hz.
  - rewrite (release_weak_eq _ _ _ Hh1).
    destruct (shared_weak_owners_ c1 =? 0) eqn:Hwz.
    + destruct Hd as [Halive [al Hal]].
      rewrite (zero_shared_and_weak_Ok a0 _ al s1 Hh1) by (simpl in *; congruence).
      next. eexists. split; [reflexivity|]. split; [|auto].
      intros a. destruct (HI a) as [Hc' Hz' Hd'].
      destruct (decide (a = a0)) as [->|Hne];
        constructor; count_simpl; map_simpl; subst c1; inv_arith.
    + eexists. split; [reflexivity|]. split; [|auto].
      intros a. destruct (HI a) as [Hc' Hz' Hd'].
      destruct (decide (a = a0)) as [->|Hne];
        constructor; count_simpl; map_simpl; subst c1; inv_arith.
  - eexists. split; [reflexivity|]. split; [|auto].
    intros a. destruct (HI a) as [Hc' Hz' Hd'].
    destruct (decide (a = a0)) as [->|Hne];
      constructor; count_simpl; map_simpl; subst c1; inv_arith.
Qed.

End Steps.

(** ** Statements keep the invariant *)

Section Statements.

Context {T : Type}.

Implicit Types (s : State T) (a : addr) (x y : option addr).

Lemma set_owning_same s : set_owning (owning s) s = s.
Proof. destruct s; reflexivity. Qed.

Lemma set_observing_same s : set_observing (observing s) s = s.
Proof. destruct s; reflexivity. Qed.

Lemma read_shared_Ok i p s :
  owning s !! i = Some (Some p) → read_shared i s = Ok p s.
Proof. intros H. unfold read_shared. rewrite H. reflexivity. Qed.

Lemma write_shared_Ok i p q s :
  owning s !! i = Some (Some q) →
  write_shared i p s = Ok tt (set_owning (<[i := Some p]> (owning s)) s).
Proof. intros H. unfold write_shared. rewrite H. reflexivity. Qed.

Lemma end_shared_Ok i q s :
  owning s !! i = Some (Some q) →
  end_shared i s = Ok tt (set_owning (<[i := None]> (owning s)) s).
Proof. intros H. unfold end_shared. rewrite H. reflexivity. Qed.

Lemma read_weak_Ok i w s :
  observing s !! i = Some (Some w) → read_weak i s = Ok w s.
Proof. intros H. unfold read_weak. rewrite H. reflexivity. Qed.

Lemma write_weak_Ok i w q s :
  observing s !! i = Some (Some q) →
  write_weak i w s = Ok tt (set_observing (<[i := Some w]> (observing s)) s).
Proof. intros H. unfold write_weak. rewrite H. reflexivity. Qed.

Lemma end_weak_Ok i q s :
  observing s !! i = Some (Some q) →
  end_weak i s = Ok tt (set_observing (<[i := None]> (observing s)) s).
Proof. intros H. unfold end_weak. rewrite H. reflexivity. Qed.

Lemma shared_in_scope_lookup s i :
  shared_in_scope s i = true → ∃ p, owning s !! i = Some (Some p).
Proof.
  unfold shared_in_scope. destruct (owning s !! i) as [[p|]|]; try discriminate.
  eauto.
Qed.

Lemma weak_in_scope_lookup s i :
  weak_in_scope s i = true → ∃ w, observing s !! i = Some (Some w).
Proof.
  unfold weak_in_scope. destruct (observing s !! i) as [[w|]|]; try discriminate.
  eauto.
Qed.

(** Counting after the store changed. *)

Lemma owners_declare a (l : list (option SharedPtr)) p :
  owners a (l ++ [Some p]) = owners a l + refs a (control_ptr_ p).
Proof. unfold owners. rewrite tally_app. simpl. lia. Qed.

Lemma owners_write a (l : list (option SharedPtr)) i q h :
  l !! i = Some (Some q) →
  owners a (<[i := h]> l) = owners a l - refs a (control_ptr_ q) + shared_refs a h.
Proof. intros H. unfold owners. rewrite (tally_insert _ _ _ _ _ H). reflexivity. Qed.

Lemma owners_holds a (l : list (option SharedPtr)) i q :
  l !! i = Some (Some q) → refs a (control_ptr_ q) ≤ owners a l.
Proof. intros H. exact (tally_lookup _ (shared_refs_range a) _ _ _ H). Qed.

Lemma observers_declare a (l : list (option WeakPtr)) w :
  observers a (l ++ [Some w]) = observers a l + refs a (weak_control_ptr_ w).
Proof. unfold observers. rewrite tally_app. simpl. lia. Qed.

Lemma observers_write a (l : list (option WeakPtr)) i q h :
  l !! i = Some (Some q) →
  observers a (<[i := h]> l)
  = observers a l - refs a (weak_control_ptr_ q) + weak_refs a h.
Proof. intros H. unfold observers. rewrite (tally_insert _ _ _ _ _ H). reflexivity. Qed.

Lemma observers_holds a (l : list (option WeakPtr)) i q :
  l !! i = Some (Some q) → refs a (weak_control_ptr_ q) ≤ observers a l.
Proof. intros H. exact (tally_lookup _ (weak_refs_range a) _ _ _ H). Qed.

Variables (Z0 D0 : addr → Z).

Lemma SharedPtr_dtor_inv_here y s p :
  Inv Z0 D0 (control_ptr_ p) y s →
  ∃ s', SharedPtr_dtor p s
          = Ok {| element_ptr_ := element_ptr_ p; control_ptr_ := None |} s' ∧
        Inv Z0 D0 None y s' ∧
        owning s' = owning s ∧ observing s' = observing s.
Proof.
  intros HI. rewrite <- (set_owning_same s) in HI.
  destruct (SharedPtr_dtor_inv _ _ _ _ _ _ HI) as (s' & E & HI' & Ho & Hb).
  exists s'. rewrite <- Ho, set_owning_same in HI'. auto.
Qed.

Lemma WeakPtr_dtor_inv_here x s w :
  Inv Z0 D0 x (weak_control_ptr_ w) s →
  ∃ s', WeakPtr_dtor w s
          = Ok {| weak_element_ptr_ := weak_element_ptr_ w;
                  weak_control_ptr_ := None |} s' ∧
        Inv Z0 D0 x None s' ∧
        owning s' = owning s ∧ observing s' = observing s.
Proof.
  intros HI. rewrite <- (set_observing_same s) in HI.
  destruct (WeakPtr_dtor_inv _ _ _ _ _ _ HI) as (s' & E & HI' & Ho & Hb).
  exists s'. rewrite <- Hb, set_observing_same in HI'. auto.
Qed.

Lemma statement_Copy s src p :
  Inv Z0 D0 None None s → in_range s 1 →
  owning s !! src = Some (Some p) →
  ∃ s', statement (Copy src) s = Ok tt s' ∧
        Inv Z0 D0 None None s' ∧ step_bounds s s'.
Proof.
  intros HI [Hr1 Hr2] Hp. unfold statement.
  rewrite bind_eq, (read_shared_Ok _ _ _ Hp). next.
  destruct (SharedPtr_copy_inv Z0 D0 None s p HI) as (s1 & E1 & HI1 & Ho1 & Hb1).
  { intros a Ha. eapply owners_lookup; eauto. }
  { lia. }
  rewrite bind_eq, E1. next. unfold declare_shared.
  eexists. split; [reflexivity|]. split.
  - eapply Inv_set_owning; [exact HI1|]. intros a.
    rewrite owners_declare, refs_null. lia.
  - unfold step_bounds. simpl. rewrite Ho1, Hb1, length_app. simpl.
    split; [lia|]. split; [lia|]. intros a. rewrite owners_declare.
    pose proof (refs_range a (control_ptr_ p)).
    pose proof (owners_holds a _ _ _ Hp). repeat split; lia.
Qed.

Lemma statement_Default s :
  Inv Z0 D0 None None s →
  ∃ s', statement Default s = Ok tt s' ∧
        Inv Z0 D0 None None s' ∧ step_bounds s s'.
Proof.
  intros HI. unfold statement, SharedPtr_ctor, declare_shared.
  eexists. split; [reflexivity|]. split.
  - eapply Inv_set_owning; [exact HI|]. intros a.
    rewrite owners_declare. simpl. rewrite ?refs_null. lia.
  - unfold step_bounds. simpl. rewrite length_app. simpl.
    split; [lia|]. split; [lia|]. intros a. rewrite owners_declare. simpl.
    rewrite refs_null. repeat split; lia.
Qed.

Lemma statement_Move s src p :
  Inv Z0 D0 None None s →
  owning s !! src = Some (Some p) →
  ∃ s', statement (Move src) s = Ok tt s' ∧
        Inv Z0 D0 None None s' ∧ step_bounds s s'.
Proof.
  intros HI Hp. unfold statement, SharedPtr_move.
  rewrite bind_eq, bind_eq, (read_shared_Ok _ _ _ Hp). next.
  rewrite bind_eq, (write_shared_Ok _ _ _ _ Hp). next.
  unfold ret, declare_shared. simpl.
  eexists. split; [reflexivity|]. split.
  - intros a. destruct (HI a) as [Hc Hz Hd].
    assert (E : owners a (<[src:=Some {| element_ptr_ := None; control_ptr_ := None |}]>
                            (owning s) ++
                          [Some {| element_ptr_ := element_ptr_ p;
                                   control_ptr_ := control_ptr_ p |}])
                = owners a (owning s)).
    { rewrite owners_declare, (owners_write _ _ _ _ _ Hp). simpl.
      rewrite refs_null. lia. }
    constructor; unfold strong_refs, weak_refs_total, destroyed, deallocated in *;
      simpl; rewrite E; assumption.
  - unfold step_bounds. simpl. rewrite length_app, length_insert. simpl.
    split; [lia|]. split; [lia|]. intros a.
    rewrite owners_declare, (owners_write _ _ _ _ _ Hp). simpl.
    rewrite refs_null. repeat split; lia.
Qed.

Lemma statement_Assign s dst src pd ps :
  Inv Z0 D0 None None s → in_range s 1 →
  owning s !! dst = Some (Some pd) →
  owning s !! src = Some (Some ps) →
  ∃ s', statement (Assign dst src) s = Ok tt s' ∧
        Inv Z0 D0 None None s' ∧ step_bounds s s'.
Proof.
  intros HI [Hr1 Hr2] Hd Hs. unfold statement, SharedPtr_assign.
  rewrite bind_eq, (read_shared_Ok _ _ _ Hs). next.
  destruct (SharedPtr_copy_inv Z0 D0 None s ps HI) as (s1 & E1 & HI1 & Ho1 & Hb1).
  { intros a Ha. eapply owners_lookup; eauto. }
  { lia. }
  rewrite bind_eq, E1. next. unfold SharedPtr_swap.
  assert (Hd1 : owning s1 !! dst = Some (Some pd)) by (rewrite Ho1; exact Hd).
  rewrite bind_eq, bind_eq, (read_shared_Ok _ _ _ Hd1). next.
  rewrite bind_eq, (write_shared_Ok _ _ _ _ Hd1). next. unfold ret at 1.
  set (s2 := set_owning _ s1).
  assert (HI2 : Inv Z0 D0 (control_ptr_ pd) None s2).
  { eapply Inv_set_owning; [exact HI1|]. intros a.
    rewrite (owners_write _ _ _ _ _ Hd1). simpl. lia. }
  destruct (SharedPtr_dtor_inv_here None s2 pd HI2) as (s3 & E3 & HI3 & Ho3 & Hb3).
  rewrite bind_eq, E3. next. unfold ret.
  eexists. split; [reflexivity|]. split; [exact HI3|].
  unfold step_bounds. rewrite Ho3, Hb3. simpl. rewrite Hb1, Ho1, length_insert.
  split; [lia|]. split; [lia|]. intros a.
  rewrite (owners_write _ _ _ _ _ Hd). simpl.
  pose proof (refs_range a (control_ptr_ pd)).
  pose proof (refs_range a (control_ptr_ ps)).
  pose proof (owners_holds a _ _ _ Hd).
  pose proof (owners_holds a _ _ _ Hs). repeat split; lia.
Qed.

Lemma statement_MoveAssign s dst src pd ps :
  Inv Z0 D0 None None s →
  owning s !! dst = Some (Some pd) →
  owning s !! src = Some (Some ps) →
  ∃ s', statement (MoveAssign dst src) s = Ok tt s' ∧
        Inv Z0 D0 None None s' ∧ step_bounds s s'.
Proof.
  intros HI Hd Hs. unfold statement, SharedPtr_move_assign, SharedPtr_move.
  rewrite bind_eq, bind_eq, (read_shared_Ok _ _ _ Hs). next.
  rewrite bind_eq, (write_shared_Ok _ _ _ _ Hs). next. unfold ret at 1.
  set (empty := {| element_ptr_ := None; control_ptr_ := None |}).
  set (tmp := {| element_ptr_ := element_ptr_ ps; control_ptr_ := control_ptr_ ps |}).
  set (s1 := set_owning _ s).
  assert (HI1 : Inv Z0 D0 (control_ptr_ ps) None s1).
  { eapply Inv_set_owning; [exact HI|]. intros a.
    rewrite (owners_write _ _ _ _ _ Hs). simpl. rewrite !refs_null. lia. }
  (* what the temporary is swapped with: the handle itself when dst = src *)
  assert (Hq : ∃ q, owning s1 !! dst = Some (Some q) ∧
                    ∀ a, refs a (control_ptr_ q) ≤ refs a (control_ptr_ pd)).
  { simpl. destruct (decide (dst = src)) as [->|Hne].
    - exists empty. split.
      + apply list_lookup_insert_eq. eapply lookup_lt_Some; eauto.
      + intros a. simpl. rewrite refs_null. apply refs_range.
    - exists pd. split; [|intros; lia].
      rewrite list_lookup_insert_ne by congruence. exact Hd. }
  destruct Hq as (q & Hq & Hqle).
  unfold SharedPtr_swap.
  rewrite bind_eq, bind_eq, (read_shared_Ok _ _ _ Hq). next.
  rewrite bind_eq, (write_shared_Ok _ _ _ _ Hq). next. unfold ret at 1.
  set (s2 := set_owning _ s1).
  assert (HI2 : Inv Z0 D0 (control_ptr_ q) None s2).
  { eapply Inv_set_owning; [exact HI1|]. intros a.
    rewrite (owners_write _ _ _ _ _ Hq). simpl. lia. }
  destruct (SharedPtr_dtor_inv_here None s2 q HI2) as (s3 & E3 & HI3 & Ho3 & Hb3).
  rewrite bind_eq, E3. next. unfold ret.
  eexists. split; [reflexivity|]. split; [exact HI3|].
  unfold step_bounds. rewrite Ho3, Hb3. simpl. rewrite !length_insert.
  split; [lia|]. split; [lia|]. intros a.
  simpl in Hq. rewrite (owners_write _ _ _ _ _ Hq), (owners_write _ _ _ _ _ Hs).
  simpl. rewrite !refs_null.
  pose proof (refs_range a (control_ptr_ q)). specialize (Hqle a).
  pose proof (refs_range a (control_ptr_ pd)).
  pose proof (owners_holds a _ _ _ Hd). repeat split; lia.
Qed.

Lemma statement_Reset s h p :
  Inv Z0 D0 None None s →
  owning s !! h = Some (Some p) →
  ∃ s', statement (Reset h) s = Ok tt s' ∧
        Inv Z0 D0 None None s' ∧ step_bounds s s'.
Proof.
  intros HI Hp. unfold statement, SharedPtr_reset, SharedPtr_ctor, SharedPtr_swap.
  rewrite bind_eq. unfold ret at 1. next.
  rewrite bind_eq, bind_eq, (read_shared_Ok _ _ _ Hp). next.
  rewrite bind_eq, (write_shared_Ok _ _ _ _ Hp). next. unfold ret at 1.
  set (s1 := set_owning _ s).
  assert (HI1 : Inv Z0 D0 (control_ptr_ p) None s1).
  { eapply Inv_set_owning; [exact HI|]. intros a.
    rewrite (owners_write _ _ _ _ _ Hp). simpl. rewrite !refs_null. lia. }
  destruct (SharedPtr_dtor_inv_here None s1 p HI1) as (s2 & E2 & HI2 & Ho2 & Hb2).
  rewrite bind_eq, E2. next. unfold ret.
  eexists. split; [reflexivity|]. split; [exact HI2|].
  unfold step_bounds. rewrite Ho2, Hb2. simpl. rewrite !length_insert.
  split; [lia|]. split; [lia|]. intros a.
  rewrite (owners_write _ _ _ _ _ Hp). simpl. rewrite !refs_null.
  pose proof (refs_range a (control_ptr_ p)).
  pose proof (owners_holds a _ _ _ Hp). repeat split; lia.
Qed.

Lemma statement_Destroy s h p :
  Inv Z0 D0 None None s →
  owning s !! h = Some (Some p) →
  ∃ s', statement (Destroy h) s = Ok tt s' ∧
        Inv Z0 D0 None None s' ∧ step_bounds s s'.
Proof.
  intros HI Hp. unfold statement.
  rewrite bind_eq, (read_shared_Ok _ _ _ Hp). next.
  (* the references as they are counted once the handle is gone *)
  assert (HI1 : Inv Z0 D0 (control_ptr_ p) None
                  (set_owning (<[h := None]> (owning s)) s)).
  { eapply Inv_set_owning; [exact HI|]. intros a.
    rewrite (owners_write _ _ _ _ _ Hp). simpl. rewrite !refs_null. lia. }
  destruct (SharedPtr_dtor_inv Z0 D0 None s p _ HI1) as (s1 & E1 & HI1' & Ho1 & Hb1).
  rewrite bind_eq, E1. next.
  assert (Hp1 : owning s1 !! h = Some (Some p)) by (rewrite Ho1; exact Hp).
  rewrite bind_eq, (write_shared_Ok _ _ _ _ Hp1). next.
  set (s2 := set_owning _ s1).
  assert (Hp2 : owning s2 !! h
                = Some (Some {| element_ptr_ := element_ptr_ p; control_ptr_ := None |})).
  { simpl. apply list_lookup_insert_eq. eapply lookup_lt_Some; eauto. }
  rewrite (end_shared_Ok _ _ _ Hp2).
  eexists. split; [reflexivity|].
  assert (E : set_owning (<[h:=None]> (owning s2)) s2
              = set_owning (<[h:=None]> (owning s)) s1).
  { subst s2. simpl. rewrite list_insert_insert_eq, Ho1. reflexivity. }
  rewrite E. split; [exact HI1'|].
  unfold step_bounds. simpl. rewrite Hb1, !length_insert.
  split; [lia|]. split; [lia|]. intros a.
  rewrite (owners_write _ _ _ _ _ Hp). simpl.
  pose proof (refs_range a (control_ptr_ p)).
  pose proof (owners_holds a _ _ _ Hp). repeat split; lia.
Qed.

Lemma statement_WDefault s :
  Inv Z0 D0 None None s →
  ∃ s', statement WDefault s = Ok tt s' ∧
        Inv Z0 D0 None None s' ∧ step_bounds s s'.
Proof.
  intros HI. unfold statement, WeakPtr_ctor, declare_weak.
  eexists. split; [reflexivity|]. split.
  - eapply Inv_set_observing; [exact HI|]. intros a.
    rewrite observers_declare. simpl. rewrite ?refs_null. lia.
  - unfold step_bounds. simpl. rewrite length_app. simpl.
    split; [lia|]. split; [lia|]. intros a. rewrite observers_declare. simpl.
    rewrite refs_null. repeat split; lia.
Qed.

Lemma statement_WFromShared s h p :
  Inv Z0 D0 None None s → in_range s 1 →
  owning s !! h = Some (Some p) →
  ∃ s', statement (WFromShared h) s = Ok tt s' ∧
        Inv Z0 D0 None None s' ∧ step_bounds s s'.
Proof.
  intros HI [Hr1 Hr2] Hp. unfold statement.
  rewrite bind_eq, (read_shared_Ok _ _ _ Hp). next.
  destruct (WeakPtr_from_shared_inv Z0 D0 s p HI) as (s1 & E1 & HI1 & Ho1 & Hb1).
  { intros a Ha. eapply owners_lookup; eauto. }
  { lia. }
  rewrite bind_eq, E1. next. unfold declare_weak.
  eexists. split; [reflexivity|]. split.
  - eapply Inv_set_observing; [exact HI1|]. intros a.
    rewrite observers_declare, refs_null. simpl. lia.
  - unfold step_bounds. simpl. rewrite Ho1, Hb1, length_app. simpl.
    split; [lia|]. split; [lia|]. intros a. rewrite observers_declare. simpl.
    pose proof (refs_range a (control_ptr_ p)).
    pose proof (owners_holds a _ _ _ Hp). repeat split; lia.
Qed.

Lemma statement_WCopy s src w :
  Inv Z0 D0 None None s → in_range s 1 →
  observing s !! src = Some (Some w) →
  ∃ s', statement (WCopy src) s = Ok tt s' ∧
        Inv Z0 D0 None None s' ∧ step_bounds s s'.
Proof.
  intros HI [Hr1 Hr2] Hw. unfold statement.
  rewrite bind_eq, (read_weak_Ok _ _ _ Hw). next.
  destruct (WeakPtr_copy_inv Z0 D0 s w HI) as (s1 & E1 & HI1 & Ho1 & Hb1).
  { intros a Ha. eapply observers_lookup; eauto. }
  { lia. }
  rewrite bind_eq, E1. next. unfold declare_weak.
  eexists. split; [reflexivity|]. split.
  - eapply Inv_set_observing; [exact HI1|]. intros a.
    rewrite observers_declare, refs_null. lia.
  - unfold step_bounds. simpl. rewrite Ho1, Hb1, length_app. simpl.
    split; [lia|]. split; [lia|]. intros a. rewrite observers_declare.
    pose proof (refs_range a (weak_control_ptr_ w)).
    pose proof (observers_holds a _ _ _ Hw). repeat split; lia.
Qed.

Lemma statement_WMove s src w :
  Inv Z0 D0 None None s →
  observing s !! src = Some (Some w) →
  ∃ s', statement (WMove src) s = Ok tt s' ∧
        Inv Z0 D0 None None s' ∧ step_bounds s s'.
Proof.
  intros HI Hw. unfold statement, WeakPtr_move.
  rewrite bind_eq, bind_eq, (read_weak_Ok _ _ _ Hw). next.
  rewrite bind_eq, (write_weak_Ok _ _ _ _ Hw). next.
  unfold ret, declare_weak. simpl.
  assert (E : ∀ a,
    observers a (<[src:=Some {| weak_element_ptr_ := None; weak_control_ptr_ := None |}]>
                   (observing s) ++
                 [Some {| weak_element_ptr_ := weak_element_ptr_ w;
                          weak_control_ptr_ := weak_control_ptr_ w |}])
    = observers a (observing s)).
  { intros a. rewrite observers_declare, (observers_write _ _ _ _ _ Hw). simpl.
    rewrite refs_null. lia. }
  eexists. split; [reflexivity|]. split.
  - intros a. destruct (HI a) as [Hc Hz Hd].
    constructor; unfold strong_refs, weak_refs_total, destroyed, deallocated in *;
      simpl; rewrite ?E; assumption.
  - unfold step_bounds. simpl. rewrite length_app, length_insert. simpl.
    split; [lia|]. split; [lia|]. intros a. rewrite E. repeat split; lia.
Qed.

Lemma statement_WAssign s dst src wd ws :
  Inv Z0 D0 None None s → in_range s 1 →
  observing s !! dst = Some (Some wd) →
  observing s !! src = Some (Some ws) →
  ∃ s', statement (WAssign dst src) s = Ok tt s' ∧
        Inv Z0 D0 None None s' ∧ step_bounds s s'.
Proof.
  intros HI [Hr1 Hr2] Hd Hs. unfold statement, WeakPtr_assign.
  rewrite bind_eq, (read_weak_Ok _ _ _ Hs). next.
  destruct (WeakPtr_copy_inv Z0 D0 s ws HI) as (s1 & E1 & HI1 & Ho1 & Hb1).
  { intros a Ha. eapply observers_lookup; eauto. }
  { lia. }
  rewrite bind_eq, E1. next. unfold WeakPtr_swap.
  assert (Hd1 : observing s1 !! dst = Some (Some wd)) by (rewrite Hb1; exact Hd).
  rewrite bind_eq, bind_eq, (read_weak_Ok _ _ _ Hd1). next.
  rewrite bind_eq, (write_weak_Ok _ _ _ _ Hd1). next. unfold ret at 1.
  set (s2 := set_observing _ s1).
  assert (HI2 : Inv Z0 D0 None (weak_control_ptr_ wd) s2).
  { eapply Inv_set_observing; [exact HI1|]. intros a.
    rewrite (observers_write _ _ _ _ _ Hd1). simpl. lia. }
  destruct (WeakPtr_dtor_inv_here None s2 wd HI2) as (s3 & E3 & HI3 & Ho3 & Hb3).
  rewrite bind_eq, E3. next. unfold ret.
  eexists. split; [reflexivity|]. split; [exact HI3|].
  unfold step_bounds. rewrite Ho3, Hb3. simpl. rewrite Hb1, Ho1, length_insert.
  split; [lia|]. split; [lia|]. intros a.
  rewrite (observers_write _ _ _ _ _ Hd). simpl.
  pose proof (refs_range a (weak_control_ptr_ wd)).
  pose proof (refs_range a (weak_control_ptr_ ws)).
  pose proof (observers_holds a _ _ _ Hd).
  pose proof (observers_holds a _ _ _ Hs). repeat split; lia.
Qed.

Lemma statement_WMoveAssign s dst src wd ws :
  Inv Z0 D0 None None s →
  observing s !! dst = Some (Some wd) →
  observing s !! src = Some (Some ws) →
  ∃ s', statement (WMoveAssign dst src) s = Ok tt s' ∧
        Inv Z0 D0 None None s' ∧ step_bounds s s'.
Proof.
  intros HI Hd Hs. unfold statement, WeakPtr_move_assign, WeakPtr_move.
  rewrite bind_eq, bind_eq, (read_weak_Ok _ _ _ Hs). next.
  rewrite bind_eq, (write_weak_Ok _ _ _ _ Hs). next. unfold ret at 1.
  set (empty := {| weak_element_ptr_ := None; weak_control_ptr_ := None |}).
  set (tmp := {| weak_element_ptr_ := weak_element_ptr_ ws;
                 weak_control_ptr_ := weak_control_ptr_ ws |}).
  set (s1 := set_observing _ s).
  assert (HI1 : Inv Z0 D0 None (weak_control_ptr_ ws) s1).
  { eapply Inv_set_observing; [exact HI|]. intros a.
    rewrite (observers_write _ _ _ _ _ Hs). simpl. rewrite !refs_null. lia. }
  assert (Hq : ∃ q, observing s1 !! dst = Some (Some q) ∧
                    ∀ a, refs a (weak_control_ptr_ q) ≤ refs a (weak_control_ptr_ wd)).
  { simpl. destruct (decide (dst = src)) as [->|Hne].
    - exists empty. split.
      + apply list_lookup_insert_eq. eapply lookup_lt_Some; eauto.
      + intros a. simpl. rewrite refs_null. apply refs_range.
    - exists wd. split; [|intros; lia].
      rewrite list_lookup_insert_ne by congruence. exact Hd. }
  destruct Hq as (q & Hq & Hqle).
  unfold WeakPtr_swap.
  rewrite bind_eq, bind_eq, (read_weak_Ok _ _ _ Hq). next.
  rewrite bind_eq, (write_weak_Ok _ _ _ _ Hq). next. unfold ret at 1.
  set (s2 := set_observing _ s1).
  assert (HI2 : Inv Z0 D0 None (weak_control_ptr_ q) s2).
  { eapply Inv_set_observing; [exact HI1|]. intros a.
    rewrite (observers_write _ _ _ _ _ Hq). simpl. lia. }
  destruct (WeakPtr_dtor_inv_here None s2 q HI2) as (s3 & E3 & HI3 & Ho3 & Hb3).
  rewrite bind_eq, E3. next. unfold ret.
  eexists. split; [reflexivity|]. split; [exact HI3|].
  unfold step_bounds. rewrite Ho3, Hb3. simpl. rewrite !length_insert.
  split; [lia|]. split; [lia|]. intros a.
  simpl in Hq. rewrite (observers_write _ _ _ _ _ Hq), (observers_write _ _ _ _ _ Hs).
  simpl. rewrite !refs_null.
  pose proof (refs_range a (weak_control_ptr_ q)). specialize (Hqle a).
  pose proof (refs_range a (weak_control_ptr_ wd)).
  pose proof (observers_holds a _ _ _ Hd). repeat split; lia.
Qed.

Lemma statement_WDestroy s i w :
  Inv Z0 D0 None None s →
  observing s !! i = Some (Some w) →
  ∃ s', statement (WDestroy i) s = Ok tt s' ∧
        Inv Z0 D0 None None s' ∧ step_bounds s s'.
Proof.
  intros HI Hw. unfold statement.
  rewrite bind_eq, (read_weak_Ok _ _ _ Hw). next.
  assert (HI1 : Inv Z0 D0 None (weak_control_ptr_ w)
                  (set_observing (<[i := None]> (observing s)) s)).
  { eapply Inv_set_observing; [exact HI|]. intros a.
    rewrite (observers_write _ _ _ _ _ Hw). simpl. rewrite !refs_null. lia. }
  destruct (WeakPtr_dtor_inv Z0 D0 None s w _ HI1) as (s1 & E1 & HI1' & Ho1 & Hb1).
  rewrite bind_eq, E1. next.
  assert (Hw1 : observing s1 !! i = Some (Some w)) by (rewrite Hb1; exact Hw).
  rewrite bind_eq, (write_weak_Ok _ _ _ _ Hw1). next.
  set (s2 := set_observing _ s1).
  assert (Hw2 : observing s2 !! i
                = Some (Some {| weak_element_ptr_ := weak_element_ptr_ w;
                                weak_control_ptr_ := None |})).
  { simpl. apply list_lookup_insert_eq. eapply lookup_lt_Some; eauto. }
  rewrite (end_weak_Ok _ _ _ Hw2).
  eexists. split; [reflexivity|].
  assert (E : set_observing (<[i:=None]> (observing s2)) s2
              = set_observing (<[i:=None]> (observing s)) s1).
  { subst s2. simpl. rewrite list_insert_insert_eq, Hb1. reflexivity. }
  rewrite E. split; [exact HI1'|].
  unfold step_bounds. simpl. rewrite Ho1, !length_insert.
  split; [lia|]. split; [lia|]. intros a.
  rewrite (observers_write _ _ _ _ _ Hw). simpl.
  pose proof (refs_range a (weak_control_ptr_ w)).
  pose proof (observers_holds a _ _ _ Hw). repeat split; lia.
Qed.

(** Every statement but [lock()] runs to completion from a state that
    satisfies the invariant, and keeps it. *)
Lemma step_inv (o : op) s :
  is_lock o = false →
  Inv Z0 D0 None None s → in_range s 1 →
  ∃ s', step o s = Ok tt s' ∧ Inv Z0 D0 None None s' ∧ step_bounds s s'.
Proof.
  intros Hlock HI Hr. unfold step.
  destruct (well_scoped o s) eqn:Hscope.
  2:{ exists s. split; [reflexivity|]. split; [exact HI|].
      unfold step_bounds. repeat split; lia. }
  destruct o; simpl in Hscope; try discriminate;
    repeat match goal with
    | H : _ && _ = true |- _ => apply andb_prop in H; destruct H
    | H : shared_in_scope _ _ = true |- _ =>
        apply shared_in_scope_lookup in H; destruct H
    | H : weak_in_scope _ _ = true |- _ =>
        apply weak_in_scope_lookup in H; destruct H
    end;
    eauto using statement_Default, statement_Copy, statement_Move,
      statement_Assign, statement_MoveAssign, statement_Reset,
      statement_Destroy, statement_WDefault, statement_WFromShared,
      statement_WCopy, statement_WMove, statement_WAssign,
      statement_WMoveAssign, statement_WDestroy.
Qed.

End Statements.

(** ** Programs keep the invariant *)

Section Runs.

Context {T : Type}.

Implicit Types (s : State T) (a : addr) (ops : list op).

Lemma consistent_Inv s :
  consistent s →
  Inv (λ a, destroyed a s - b2z (owners a (owning s) =? 0))
      (λ a, deallocated a s
            - b2z ((owners a (owning s) =? 0) && (observers a (observing s) =? 0)))
      None None s.
Proof.
  intros H a. specialize (H a).
  constructor; unfold strong_refs, weak_refs_total; rewrite ?refs_null, ?Z.add_0_r;
    auto.
Qed.

Lemma Inv_consistent Z0 D0 s : Inv Z0 D0 None None s → consistent s.
Proof.
  intros H a. destruct (H a) as [Hc _ _].
  unfold strong_refs, weak_refs_total in Hc.
  rewrite ?refs_null, ?Z.add_0_r in Hc. exact Hc.
Qed.

Lemma run_app ops1 ops2 s :
  run (ops1 ++ ops2) s
  = match run ops1 s with
    | Ok _ s' => run ops2 s'
    | Throw s' => Throw s'
    | UB => UB
    end.
Proof.
  revert s. induction ops1 as [|o ops1 IH]; intros s; simpl; [reflexivity|].
  rewrite !bind_eq. destruct (step o s) as [[] s'| |]; auto.
Qed.

Lemma run_one (o : op) s : run [o] s = step o s.
Proof.
  simpl. rewrite bind_eq. destruct (step o s) as [[] s'| |]; reflexivity.
Qed.

Lemma in_range_one s n : in_range s (S n) → in_range s 1.
Proof. unfold in_range. lia. Qed.

Lemma in_range_le s n m : (m ≤ n)%nat → in_range s n → in_range s m.
Proof. unfold in_range. lia. Qed.

Lemma in_range_step s s' n m :
  in_range s (S n + m) → step_bounds s s' → in_range s' (n + m).
Proof.
  unfold in_range, step_bounds. intros [H1 H2] (L1 & L2 & _). lia.
Qed.

Lemma run_inv Z0 D0 ops s (n : nat) :
  lock_free ops →
  Inv Z0 D0 None None s → in_range s (length ops + n) →
  ∃ s', run ops s = Ok tt s' ∧ Inv Z0 D0 None None s' ∧
        run_bounds s s' ∧ in_range s' n.
Proof.
  revert s. induction ops as [|o ops IH]; intros s Hlf HI Hr.
  - exists s. split; [reflexivity|]. split; [exact HI|]. split; [|exact Hr].
    intros a. tauto.
  - apply Forall_cons in Hlf. destruct Hlf as [Ho Hlf]. simpl in Hr.
    destruct (step_inv Z0 D0 o s Ho HI (in_range_one _ _ Hr)) as (s1 & E1 & HI1 & Hb1).
    destruct (IH s1 Hlf HI1 (in_range_step _ _ _ _ Hr Hb1))
      as (s2 & E2 & HI2 & Hb2 & Hr2).
    exists s2. simpl. rewrite bind_eq, E1. split; [exact E2|]. split; [exact HI2|].
    split; [|exact Hr2].
    intros a. destruct Hb1 as (_ & _ & Hb1). specialize (Hb1 a). specialize (Hb2 a).
    split; intros; [apply Hb2; apply Hb1; assumption|].
    apply Hb2; apply Hb1; assumption.
Qed.

Lemma lock_free_take ops k : lock_free ops → lock_free (take k ops).
Proof. unfold lock_free. apply Forall_take. Qed.

Lemma in_range_0 s n : in_range s n → in_range s (n + 0).
Proof. rewrite Nat.add_0_r. auto. Qed.

(** A consistent state stays consistent, and the program cannot go wrong. *)
Lemma run_consistent ops s :
  consistent s → lock_free ops → in_range s (length ops) →
  ∃ s', run ops s = Ok tt s' ∧ consistent s'.
Proof.
  intros Hc Hlf Hr.
  destruct (run_inv _ _ ops s 0 Hlf (consistent_Inv s Hc) (in_range_0 _ _ Hr))
    as (s' & E & HI & _).
  exists s'. split; [exact E|]. eapply Inv_consistent; eauto.
Qed.

(** The state before and after the statement at position [k] of a program,
    both satisfying the invariant the program started with. *)
Lemma run_split Z0 D0 ops s k (o : op) :
  lock_free ops →
  Inv Z0 D0 None None s → in_range s (length ops) →
  ops !! k = Some o →
  ∃ s1 s2, run (take k ops) s = Ok tt s1 ∧ step o s1 = Ok tt s2 ∧
           run (take (S k) ops) s = Ok tt s2 ∧
           Inv Z0 D0 None None s1 ∧ Inv Z0 D0 None None s2 ∧
           step_bounds s1 s2 ∧ run_bounds s s1.
Proof.
  intros Hlf HI Hr Hk.
  pose proof (lookup_lt_Some _ _ _ Hk) as Hlt.
  destruct (run_inv Z0 D0 (take k ops) s 1 (lock_free_take _ k Hlf) HI)
    as (s1 & E1 & HI1 & Hb1 & Hr1).
  { eapply in_range_le; [|exact Hr]. rewrite length_take. lia. }
  assert (Ho : is_lock o = false).
  { unfold lock_free in Hlf. rewrite Forall_lookup in Hlf. eapply Hlf; eauto. }
  destruct (step_inv Z0 D0 o s1 Ho HI1 Hr1) as (s2 & E2 & HI2 & Hb2).
  exists s1, s2. split; [exact E1|]. split; [exact E2|].
  split; [|auto].
  rewrite (take_S_r _ _ _ Hk), run_app, E1, run_one. exact E2.
Qed.

(** ** The claims about programs *)

(** C3.  In every program of copy, move, assignment, reset and destruction
    statements on Owning Handles (statements on Observing Handles other than
    [lock()] may be mixed in) that starts in a consistent state and stays
    within the range of the counters: every prefix of the program runs to its
    end, and there [use_count()] of every Owning Handle in scope that has a
    control block returns the number of Owning Handles in scope that reference
    that block. *)
Theorem use_count_is_number_of_owners ops s (k : nat) :
  consistent s → lock_free ops → in_range s (length ops) →
  ∃ s', run (take k ops) s = Ok tt s' ∧
        ∀ (i : nat) (p : SharedPtr) a,
          owning s' !! i = Some (Some p) →
          control_ptr_ p = Some a →
          SharedPtr_use_count p s' = Ok (owners a (owning s')) s'.
Proof.
  intros Hc Hlf Hr.
  destruct (run_consistent (take k ops) s Hc (lock_free_take _ k Hlf))
    as (s' & E & Hc').
  { eapply in_range_le; [|exact Hr]. rewrite length_take. lia. }
  exists s'. split; [exact E|]. intros i p a Hp Ha.
  unfold SharedPtr_use_count. rewrite Ha.
  pose proof (owners_lookup a _ _ _ Hp Ha) as Hpos.
  specialize (Hc' a).
  destruct (heap s' !! a) as [[|c]|] eqn:Hh; simpl in Hc'; try lia.
  destruct Hc' as (Hs & _).
  rewrite (use_count_Ok _ _ _ Hh), Hs. reflexivity.
Qed.

(** X26.  In every program of copy, move, assignment, reset and destruction
    statements on handles without [lock()], started in a consistent state in
    which the block at [a] has an owner: the program runs to its end; the
    first cleanup hook has then run on the block exactly once if no owner is
    left and not at all otherwise; it never runs twice during one statement,
    and it runs during a statement exactly when the strong count was 1 before
    the statement and no owner is left after it. *)
Theorem managed_object_destroyed_exactly_once ops s a :
  consistent s → lock_free ops → in_range s (length ops) →
  1 ≤ owners a (owning s) →
  (∃ s', run ops s = Ok tt s' ∧
         destroyed a s' - destroyed a s = b2z (owners a (owning s') =? 0)) ∧
  (∀ (k : nat) (o : op), ops !! k = Some o →
     ∃ s1 s2, run (take k ops) s = Ok tt s1 ∧
              run (take (S k) ops) s = Ok tt s2 ∧
              0 ≤ destroyed a s2 - destroyed a s1 ≤ 1 ∧
              (destroyed a s2 - destroyed a s1 = 1 ↔
               strong_count s1 a = Some 1 ∧ owners a (owning s2) = 0)).
Proof.
  intros Hc Hlf Hr Ha.
  pose proof (consistent_Inv s Hc) as HI. split.
  - destruct (run_inv _ _ ops s 0 Hlf HI (in_range_0 _ _ Hr)) as (s' & E & HI' & _).
    exists s'. split; [exact E|].
    destruct (HI' a) as [_ Hz _]. simpl in Hz.
    unfold strong_refs in Hz. rewrite refs_null, Z.add_0_r in Hz.
    destruct (Z.eqb_spec (owners a (owning s)) 0); [lia|]. simpl in Hz. lia.
  - intros k o Hk.
    destruct (run_split _ _ ops s k o Hlf HI Hr Hk)
      as (s1 & s2 & E1 & E2 & E12 & HI1 & HI2 & Hb & _).
    exists s1, s2. split; [exact E1|]. split; [exact E12|].
    destruct (HI1 a) as [Hc1 Hz1 _]. destruct (HI2 a) as [_ Hz2 _].
    destruct Hb as (_ & _ & Hb). destruct (Hb a) as (Hb1 & Hb2 & _).
    unfold strong_refs in *. rewrite refs_null, Z.add_0_r in *.
    pose proof (owners_nonneg a (owning s1)).
    pose proof (owners_nonneg a (owning s2)).
    assert (Hsc : strong_count s1 a = Some 1 ↔ owners a (owning s1) = 1).
    { unfold strong_count.
      destruct (heap s1 !! a) as [[|c]|]; simpl in Hc1;
        try (split; [discriminate | lia]).
      destruct Hc1 as (Hs & _). split; [intros [= E]; lia | intros E; f_equal; lia]. }
    rewrite Hsc.
    destruct (Z.eqb_spec (owners a (owning s1)) 0);
      destruct (Z.eqb_spec (owners a (owning s2)) 0);
      unfold b2z in *; lia.
Qed.

(** C7.  [expired()] returns true exactly when the control block pointer is
    null or the strong count of the block it points to is 0; and at the end of
    every program without [lock()] that starts in a consistent state,
    [expired()] of every Observing Handle in scope that has a control block
    returns (the block is still allocated, also when the object is gone), and
    returns true exactly when no Owning Handle references the block any
    more. *)
Theorem expired_iff_no_owner :
  (∀ s (w : WeakPtr),
     WeakPtr_expired w s = Ok true s ↔
     weak_control_ptr_ w = None ∨
     ∃ a, weak_control_ptr_ w = Some a ∧ strong_count s a = Some 0) ∧
  (∀ ops s,
     consistent s → lock_free ops → in_range s (length ops) →
     ∃ s', run ops s = Ok tt s' ∧
           ∀ (i : nat) (w : WeakPtr) a,
             observing s' !! i = Some (Some w) →
             weak_control_ptr_ w = Some a →
             WeakPtr_expired w s' = Ok (owners a (owning s') =? 0) s').
Proof.
  split.
  - intros s w. unfold WeakPtr_expired, strong_count.
    destruct (weak_control_ptr_ w) as [a|].
    2:{ split; [left; reflexivity | reflexivity]. }
    rewrite bind_eq. unfold use_count. rewrite bind_eq. unfold get_block, ret.
    destruct (heap s !! a) as [[|c]|] eqn:Hh.
    + split; [discriminate|].
      intros [?|(a' & [= <-] & E)]; [discriminate|]. rewrite Hh in E. discriminate.
    + split.
      * intros [= E]. right. exists a. split; [reflexivity|].
        apply Z.eqb_eq in E. rewrite Hh. congruence.
      * intros [?|(a' & [= <-] & E)]; [discriminate|]. rewrite Hh in E.
        injection E as ->. reflexivity.
    + split; [discriminate|].
      intros [?|(a' & [= <-] & E)]; [discriminate|]. rewrite Hh in E. discriminate.
  - intros ops s Hc Hlf Hr.
    destruct (run_consistent ops s Hc Hlf Hr) as (s' & E & Hc').
    exists s'. split; [exact E|]. intros i w a Hw Ha.
    unfold WeakPtr_expired. rewrite Ha.
    pose proof (observers_lookup a _ _ _ Hw Ha) as Hpos.
    specialize (Hc' a).
    destruct (heap s' !! a) as [[|c]|] eqn:Hh; simpl in Hc'; try lia.
    destruct Hc' as (Hs & _).
    rewrite bind_eq, (use_count_Ok _ _ _ Hh), Hs. reflexivity.
Qed.

(** X25.  Without [lock()], the storage of a control block is deallocated
    exactly once if the program ends with no handle of either kind
    referencing it and not at all otherwise, and during a statement exactly
    when some handle referenced it before and none does after. *)
Theorem lock_free_block_deallocated_exactly_once ops s a :
  consistent s → lock_free ops → in_range s (length ops) →
  1 ≤ owners a (owning s) + observers a (observing s) →
  (∃ s', run ops s = Ok tt s' ∧
         deallocated a s' - deallocated a s
         = b2z ((owners a (owning s') =? 0) && (observers a (observing s') =? 0))) ∧
  (∀ (k : nat) (o : op), ops !! k = Some o →
     ∃ s1 s2, run (take k ops) s = Ok tt s1 ∧
              run (take (S k) ops) s = Ok tt s2 ∧
              0 ≤ deallocated a s2 - deallocated a s1 ≤ 1 ∧
              (deallocated a s2 - deallocated a s1 = 1 ↔
               1 ≤ owners a (owning s1) + observers a (observing s1) ∧
               owners a (owning s2) = 0 ∧ observers a (observing s2) = 0)).
Proof.
  intros Hc Hlf Hr Ha.
  pose proof (consistent_Inv s Hc) as HI.
  pose proof (owners_nonneg a (owning s)).
  pose proof (observers_nonneg a (observing s)). split.
  - destruct (run_inv _ _ ops s 0 Hlf HI (in_range_0 _ _ Hr)) as (s' & E & HI' & _).
    exists s'. split; [exact E|].
    destruct (HI' a) as [_ _ Hd]. simpl in Hd.
    unfold strong_refs, weak_refs_total in Hd. rewrite !refs_null, !Z.add_0_r in Hd.
    destruct (Z.eqb_spec (owners a (owning s)) 0);
      destruct (Z.eqb_spec (observers a (observing s)) 0); simpl in Hd; lia.
  - intros k o Hk.
    destruct (run_split _ _ ops s k o Hlf HI Hr Hk)
      as (s1 & s2 & E1 & E2 & E12 & HI1 & HI2 & Hb & _).
    exists s1, s2. split; [exact E1|]. split; [exact E12|].
    destruct (HI1 a) as [_ _ Hd1]. destruct (HI2 a) as [_ _ Hd2].
    destruct Hb as (_ & _ & Hb). destruct (Hb a) as (Hb1 & Hb2 & Hb3).
    unfold strong_refs, weak_refs_total in *. rewrite !refs_null, !Z.add_0_r in *.
    pose proof (owners_nonneg a (owning s1)).
    pose proof (owners_nonneg a (owning s2)).
    pose proof (observers_nonneg a (observing s1)).
    pose proof (observers_nonneg a (observing s2)).
    destruct (Z.eqb_spec (owners a (owning s1)) 0);
      destruct (Z.eqb_spec (owners a (owning s2)) 0);
      destruct (Z.eqb_spec (observers a (observing s1)) 0);
      destruct (Z.eqb_spec (observers a (observing s2)) 0);
      unfold b2z in *; simpl in *; lia.
Qed.

End Runs.

(** ** Constructors and failures *)

Section Constructors.

Context {T : Type}.

Implicit Types (s : State T) (a : addr).

Lemma allocate_Ok (al : Alloc) s :
  head (budget s) ≠ Some false →
  ∃ s1, allocate al s = Ok (fresh (dom (heap s))) s1 ∧
        heap s1 = <[fresh (dom (heap s)) := Raw]> (heap s) ∧
        log s1 = log s ++ [EvAllocate al (fresh (dom (heap s)))] ∧
        owning s1 = owning s ∧ observing s1 = observing s.
Proof.
  intros Hb. unfold allocate.
  destruct (budget s) as [|[|] rest]; simpl in Hb; try congruence;
    eexists; (split; [reflexivity|]); repeat split; reflexivity.
Qed.

Lemma allocate_fails (al : Alloc) s (rest : list bool) :
  budget s = false :: rest → allocate al s = Throw (set_budget rest s).
Proof. intros Hb. unfold allocate. rewrite Hb. reflexivity. Qed.

Lemma fresh_is_free s : heap s !! fresh (dom (heap s)) = None.
Proof. apply not_elem_of_dom. apply is_fresh. Qed.

(** The state before any handle exists is consistent. *)
Lemma start_consistent (answers : list bool) : consistent (start (T := T) answers).
Proof. intros a. unfold start; simpl. rewrite lookup_empty. split; reflexivity. Qed.

(** Declaring the first handle of a freshly constructed block keeps the
    state consistent. *)
Lemma consistent_first_owner s s' a (c : ControlBlock T) (p : SharedPtr) :
  consistent s →
  heap s !! a = None →
  heap s' !! a = Some (Constructed c) →
  (∀ a', a' ≠ a → heap s' !! a' = heap s !! a') →
  shared_owners_ c = 1 → shared_weak_owners_ c = 0 → derived_ok c →
  control_ptr_ p = Some a →
  owning s' = owning s ++ [Some p] →
  observing s' = observing s →
  consistent s'.
Proof.
  intros Hc Hfree Hh Hother Hs Hw Hd Hp Ho Hb a'.
  rewrite Ho, Hb, owners_declare, Hp.
  destruct (decide (a' = a)) as [->|Hne].
  - specialize (Hc a). rewrite Hfree in Hc. destruct Hc as [Hc1 Hc2].
    rewrite Hh, refs_same, Hc1, Hc2. simpl. auto.
  - rewrite (Hother a' Hne), refs_other, Z.add_0_r by congruence. apply Hc.
Qed.

Lemma first_reference_ok (d : Derived T) :
  object_alive d = true → is_Some (allocator_of d) →
  shared_owners_ (add_shared (new_block d)) = 1 ∧
  shared_weak_owners_ (add_shared (new_block d)) = 0 ∧
  derived_ok (add_shared (new_block d)).
Proof. intros Ha Hal. split; [reflexivity|]. split; [reflexivity|]. split; auto. Qed.

(** [new control_block(...)] and the first [add_shared()], whatever
    follows. *)
Lemma operator_new_add_shared {A} s s1 (d : Derived T) (k : addr → M T A) :
  allocate std_allocator s = Ok (fresh (dom (heap s))) s1 →
  (let* a := operator_new d in a ->* add_shared ;; k a) s
  = k (fresh (dom (heap s)))
      (set_heap (<[fresh (dom (heap s)) := Constructed (add_shared (new_block d))]>
                   (<[fresh (dom (heap s)) := Constructed (new_block d)]> (heap s1)))
         s1).
Proof.
  intros E1. set (a := fresh (dom (heap s))) in *.
  assert (Hh2 : heap (set_heap (<[a := Constructed (new_block d)]> (heap s1)) s1) !! a
                = Some (Constructed (new_block d))) by apply lookup_insert_eq.
  unfold operator_new.
  mstep E1. mstep (put_block_Ok a (new_block d) s1).
  mstep (ret_Ok a (set_heap (<[a := Constructed (new_block d)]> (heap s1)) s1)).
  mstep (arrow_Ok a (new_block d) add_shared _ Hh2). reflexivity.
Qed.

(** What every constructor that creates a control block comes to, when
    nothing throws: a block with one strong reference in storage that was
    free, and the handle that holds the reference. *)
Lemma consistent_constructed s s1 s' (d : Derived T) (ptr : option object)
    (m : gmap positive (cell T)) :
  consistent s →
  heap s1 = <[fresh (dom (heap s)) := Raw]> (heap s) →
  owning s1 = owning s → observing s1 = observing s →
  object_alive d = true → is_Some (allocator_of d) →
  (∀ a', a' ≠ fresh (dom (heap s)) → m !! a' = heap s1 !! a') →
  heap s' = <[fresh (dom (heap s)) := Constructed (add_shared (new_block d))]> m →
  owning s' = owning s1 ++ [Some {| element_ptr_ := ptr;
                                    control_ptr_ := Some (fresh (dom (heap s))) |}] →
  observing s' = observing s1 →
  consistent s'.
Proof.
  intros Hc Hh1 Ho1 Hb1 Ha Hal Hm Hh' Ho' Hb'.
  destruct (first_reference_ok d Ha Hal) as (Hs & Hw & Hd).
  apply (consistent_first_owner s s' (fresh (dom (heap s)))
           (add_shared (new_block d))
           {| element_ptr_ := ptr; control_ptr_ := Some (fresh (dom (heap s))) |}
           Hc (fresh_is_free s)); auto.
  - rewrite Hh'. apply lookup_insert_eq.
  - intros a' Hne. rewrite Hh', lookup_insert_ne, (Hm a' Hne), Hh1 by congruence.
    apply lookup_insert_ne. congruence.
  - rewrite Ho', Ho1. reflexivity.
  - rewrite Hb', Hb1. reflexivity.
Qed.

(** [SharedPtr<T> h(ptr);] *)
Lemma SharedPtr_ctor_ptr_consistent s (ptr : option object) :
  consistent s →
  head (budget s) ≠ Some false →
  ∃ s', (let* h := SharedPtr_ctor_ptr ptr in declare_shared h) s = Ok tt s' ∧
        consistent s'.
Proof.
  intros Hc Hb.
  destruct (allocate_Ok std_allocator s Hb) as (s1 & E1 & Hh1 & Hl1 & Ho1 & Hb1).
  set (d := SharedPtrPointer (T := T) ptr (Some default_delete) (Some std_allocator)).
  assert (E : SharedPtr_ctor_ptr ptr s
              = Ok {| element_ptr_ := ptr; control_ptr_ := Some (fresh (dom (heap s))) |}
                  (set_heap (<[fresh (dom (heap s)) := Constructed (add_shared (new_block d))]>
                               (<[fresh (dom (heap s)) := Constructed (new_block d)]>
                                  (heap s1))) s1)).
  { unfold SharedPtr_ctor_ptr. fold d.
    rewrite (operator_new_add_shared s s1 d _ E1). reflexivity. }
  mstep E. eexists. split; [reflexivity|].
  apply (consistent_constructed s s1 _ d ptr
           (<[fresh (dom (heap s)) := Constructed (new_block d)]> (heap s1))
           Hc Hh1 Ho1 Hb1 eq_refl (ex_intro _ _ eq_refl)); try reflexivity.
  intros a' Hne. apply lookup_insert_ne. intros E0. apply Hne. rewrite <- E0.
  reflexivity.
Qed.

(** [SharedPtr<T> h(ptr, del);] *)
Lemma SharedPtr_ctor_ptr_del_consistent s (ptr : option object) (del : Deleter) :
  consistent s →
  head (budget s) ≠ Some false →
  ∃ s', (let* h := SharedPtr_ctor_ptr_del ptr del in declare_shared h) s = Ok tt s' ∧
        consistent s'.
Proof.
  intros Hc Hb.
  destruct (allocate_Ok std_allocator s Hb) as (s1 & E1 & Hh1 & Hl1 & Ho1 & Hb1).
  set (d := SharedPtrPointer (T := T) ptr (Some del) (Some std_allocator)).
  assert (E' : SharedPtr_ctor_ptr_del ptr del s
               = Ok {| element_ptr_ := ptr; control_ptr_ := Some (fresh (dom (heap s))) |}
                   (set_heap (<[fresh (dom (heap s)) := Constructed (add_shared (new_block d))]>
                                (<[fresh (dom (heap s)) := Constructed (new_block d)]>
                                   (heap s1))) s1)).
  { unfold SharedPtr_ctor_ptr_del. rewrite bind_eq. unfold try_catch. fold d.
    rewrite (operator_new_add_shared s s1 d _ E1). reflexivity. }
  mstep E'. eexists. split; [reflexivity|].
  apply (consistent_constructed s s1 _ d ptr
           (<[fresh (dom (heap s)) := Constructed (new_block d)]> (heap s1))
           Hc Hh1 Ho1 Hb1 eq_refl (ex_intro _ _ eq_refl)); try reflexivity.
  intros a' Hne. apply lookup_insert_ne. intros E0. apply Hne. rewrite <- E0.
  reflexivity.
Qed.

(** [SharedPtr<T> h(ptr, del, alloc);] *)
Lemma SharedPtr_ctor_ptr_del_alloc_consistent s (ptr : option object)
    (del : Deleter) (alloc : Alloc) :
  consistent s →
  head (budget s) ≠ Some false →
  ∃ s', (let* h := SharedPtr_ctor_ptr_del_alloc ptr del alloc in declare_shared h) s
        = Ok tt s' ∧
        consistent s'.
Proof.
  intros Hc Hb.
  destruct (allocate_Ok alloc s Hb) as (s1 & E1 & Hh1 & Hl1 & Ho1 & Hb1).
  set (a := fresh (dom (heap s))) in *.
  set (d := SharedPtrPointer (T := T) ptr (Some del) (Some alloc)).
  assert (Hh2 : heap (set_heap (<[a := Constructed (new_block d)]> (heap s1)) s1) !! a
                = Some (Constructed (new_block d))) by apply lookup_insert_eq.
  assert (E' : SharedPtr_ctor_ptr_del_alloc ptr del alloc s
               = Ok {| element_ptr_ := ptr; control_ptr_ := Some a |}
                   (set_heap (<[a := Constructed (add_shared (new_block d))]>
                                (<[a := Constructed (new_block d)]> (heap s1))) s1)).
  { unfold SharedPtr_ctor_ptr_del_alloc. mstep E1. rewrite bind_eq.
    unfold try_catch. fold d.
    rewrite (bind_Ok _ _ _ _ _ (put_block_Ok a (new_block d) s1)).
    rewrite (arrow_Ok a (new_block d) add_shared _ Hh2). reflexivity. }
  mstep E'. eexists. split; [reflexivity|].
  apply (consistent_constructed s s1 _ d ptr
           (<[a := Constructed (new_block d)]> (heap s1))
           Hc Hh1 Ho1 Hb1 eq_refl (ex_intro _ _ eq_refl)); try reflexivity.
  intros a' Hne. apply lookup_insert_ne. intros E0. apply Hne. rewrite <- E0.
  reflexivity.
Qed.

(** [AllocateShared] when the constructor of the object returns. *)
Lemma AllocateShared_Ok {Args : Type} (alloc : Alloc)
    (construct : Args → option T) (args : Args) (v : T) s s1 a :
  allocate alloc s = Ok a s1 →
  construct args = Some v →
  AllocateShared alloc construct args s
  = Ok {| element_ptr_ := Some (inplace a); control_ptr_ := Some a |}
      (set_heap
         (<[a := Constructed (add_shared (new_block (SharedPtrEmplacer (Some alloc) (Some v))))]>
            (<[a := Constructed (new_block (SharedPtrEmplacer (Some alloc) (Some v)))]>
               (<[a := Constructed (new_block (SharedPtrEmplacer (Some alloc) None))]>
                  (heap s1))))
         (set_log (log s1 ++ [EvConstruct a]) s1)).
Proof.
  intros E1 Hv. unfold AllocateShared. mstep E1. rewrite Hv.
  unfold SharedPtrEmplacer_ctor, create_with_control_block.
  mstep (put_block_Ok a (new_block (SharedPtrEmplacer (Some alloc) None)) s1).
  set (s2 := set_heap _ s1).
  mstep (emit_Ok (EvConstruct a) s2).
  set (s3 := set_log _ s2).
  mstep (put_block_Ok a (new_block (SharedPtrEmplacer (Some alloc) (Some v))) s3).
  set (s4 := set_heap _ s3).
  assert (Hh4 : heap s4 !! a
                = Some (Constructed (new_block (SharedPtrEmplacer (Some alloc) (Some v)))))
    by apply lookup_insert_eq.
  mstep (arrow_Ok _ _ add_shared _ Hh4). reflexivity.
Qed.

(** [SharedPtr<T> h = AllocateShared<T>(alloc, args...);] *)
Lemma AllocateShared_consistent {Args : Type} (alloc : Alloc)
    (construct : Args → option T) (args : Args) (v : T) s :
  consistent s →
  head (budget s) ≠ Some false →
  construct args = Some v →
  ∃ s', (let* h := AllocateShared alloc construct args in declare_shared h) s
        = Ok tt s' ∧
        consistent s'.
Proof.
  intros Hc Hb Hv.
  destruct (allocate_Ok alloc s Hb) as (s1 & E1 & Hh1 & Hl1 & Ho1 & Hb1).
  mstep (AllocateShared_Ok alloc construct args v s s1 _ E1 Hv).
  eexists. split; [reflexivity|].
  apply (consistent_constructed s s1 _ (SharedPtrEmplacer (Some alloc) (Some v))
           (Some (inplace (fresh (dom (heap s)))))
           (<[fresh (dom (heap s)) :=
                Constructed (new_block (SharedPtrEmplacer (Some alloc) (Some v)))]>
              (<[fresh (dom (heap s)) :=
                   Constructed (new_block (SharedPtrEmplacer (Some alloc) None))]>
                 (heap s1)))
           Hc Hh1 Ho1 Hb1 eq_refl (ex_intro _ _ eq_refl)); try reflexivity.
  intros a' Hne. rewrite !lookup_insert_ne; [reflexivity| |];
    intros E0; apply Hne; rewrite <- E0; reflexivity.
Qed.

(** The two constructors that take a deleter, when the allocation of the
    control block fails. *)
Lemma SharedPtr_ctor_ptr_del_fails s ptr del (rest : list bool) :
  budget s = false :: rest →
  SharedPtr_ctor_ptr_del ptr del s
  = Throw (set_log (log s ++ [EvDelete del ptr]) (set_budget rest s)).
Proof.
  intros Hb. unfold SharedPtr_ctor_ptr_del. rewrite bind_eq. unfold try_catch.
  unfold operator_new. rewrite !bind_assoc, bind_eq, (allocate_fails _ _ _ Hb).
  reflexivity.
Qed.

Lemma SharedPtr_ctor_ptr_del_alloc_fails s ptr del (alloc : Alloc) (rest : list bool) :
  budget s = false :: rest →
  SharedPtr_ctor_ptr_del_alloc ptr del alloc s = Throw (set_budget rest s).
Proof.
  intros Hb. unfold SharedPtr_ctor_ptr_del_alloc.
  rewrite bind_eq, (allocate_fails _ _ _ Hb). reflexivity.
Qed.

(** [AllocateShared] when the constructor of the object throws. *)
Lemma AllocateShared_ctor_throws {Args : Type} (alloc : Alloc)
    (construct : Args → option T) (args : Args) s :
  head (budget s) ≠ Some false →
  construct args = None →
  ∃ s', AllocateShared alloc construct args s = Throw s' ∧
        heap s' !! fresh (dom (heap s)) = Some Raw ∧
        log s' = log s ++ [EvAllocate alloc (fresh (dom (heap s))); EvAllocDtor alloc].
Proof.
  intros Hb Hv.
  destruct (allocate_Ok alloc s Hb) as (s1 & E1 & Hh1 & Hl1 & _).
  unfold AllocateShared. rewrite (bind_Ok _ _ _ _ _ E1). cbv beta. rewrite Hv.
  unfold SharedPtrEmplacer_ctor. eexists. split; [reflexivity|]. simpl. split.
  - apply lookup_insert_eq.
  - rewrite Hl1, <- app_assoc. reflexivity.
Qed.

(** [lock()] reads the two pointers and nothing else: the state it returns
    in is the state it was called in. *)
Lemma WeakPtr_lock_eq (w : WeakPtr) s :
  WeakPtr_lock w s
  = Ok {| element_ptr_ := match weak_control_ptr_ w with
                          | Some _ => weak_element_ptr_ w
                          | None => None
                          end;
          control_ptr_ := weak_control_ptr_ w |} s.
Proof. unfold WeakPtr_lock. destruct (weak_control_ptr_ w); reflexivity. Qed.

End Constructors.

(** ** The claims about single operations *)

Section Operations.

Context {T : Type}.

Implicit Types (s : State T) (a : addr).

Lemma decrement_add_shared (c : ControlBlock T) :
  0 ≤ shared_owners_ c < SIZE_MAX → decrement_shared (add_shared c) = c.
Proof.
  intros H. destruct c as [n m d]. unfold decrement_shared, add_shared. simpl in *.
  rewrite wrap_small by (unfold SIZE_MAX in H; lia).
  destruct (0 <? n + 1) eqn:E; [|lia].
  unfold set_shared_owners. simpl. f_equal. lia.
Qed.

(** C8.  Assigning an Owning Handle to itself, by copy or by move, returns
    with the whole program state as it was: the handle's members, the counts
    of its control block and the log of hook calls are unchanged.  For the
    copy the handle is any handle that satisfies the Owning Handle invariant;
    the move does not look at the control block at all. *)
Theorem self_assignment_changes_nothing s (i : nat) (p : SharedPtr) :
  owning s !! i = Some (Some p) →
  (handle_ok s p → SharedPtr_assign i i s = Ok tt s) ∧
  SharedPtr_move_assign i i s = Ok tt s.
Proof.
  intros Hp. split.
  - intros Hok. unfold SharedPtr_assign.
    mstep (read_shared_Ok _ _ _ Hp).
    unfold SharedPtr_copy, SharedPtr_swap, SharedPtr_dtor.
    destruct p as [e [a|]]; simpl in *.
    + destruct Hok as (c & Hh & Hc).
      mstep (arrow_Ok _ _ add_shared _ Hh).
      mstep (ret_Ok {| element_ptr_ := e; control_ptr_ := Some a |}
               (set_heap (<[a:=Constructed (add_shared c)]> (heap s)) s)).
      set (s1 := set_heap _ s).
      assert (Hp1 : owning s1 !! i
                    = Some (Some {| element_ptr_ := e; control_ptr_ := Some a |}))
        by exact Hp.
      mstep (read_shared_Ok _ _ _ Hp1).
      mstep (write_shared_Ok _ {| element_ptr_ := e; control_ptr_ := Some a |} _ _ Hp1).
      set (s2 := set_owning _ s1).
      mstep (ret_Ok {| element_ptr_ := e; control_ptr_ := Some a |} s2).
      simpl control_ptr_. cbv iota.
      assert (Hh2 : heap s2 !! a = Some (Constructed (add_shared c)))
        by apply lookup_insert_eq.
      mstep (arrow_Ok _ _ decrement_shared _ Hh2).
      rewrite decrement_add_shared by lia.
      set (s3 := set_heap _ s2).
      assert (Hh3 : heap s3 !! a = Some (Constructed c)) by apply lookup_insert_eq.
      assert (Hnz : (shared_owners_ c =? 0) = false) by (apply Z.eqb_neq; lia).
      assert (Hrel : release_shared a s3 = Ok tt s3)
        by (rewrite (release_shared_eq _ _ _ Hh3), Hnz; reflexivity).
      mstep Hrel.
      mstep (use_count_Ok _ _ _ Hh3). rewrite Hnz.
      mstep (ret_Ok tt s3).
      mstep (ret_Ok {| element_ptr_ := e; control_ptr_ := None |} s3).
      unfold ret.
      do 2 f_equal. subst s3 s2 s1. destruct s as [h lg bud own obs]; simpl in *.
      unfold set_heap, set_owning; simpl. f_equal.
      * rewrite insert_insert_eq. apply insert_id. exact Hh.
      * apply list_insert_id. exact Hp.
    + mstep (ret_Ok tt s).
      mstep (ret_Ok {| element_ptr_ := e; control_ptr_ := None |} s).
      mstep (read_shared_Ok _ _ _ Hp).
      mstep (write_shared_Ok _ {| element_ptr_ := e; control_ptr_ := None |} _ _ Hp).
      set (s1 := set_owning _ s).
      mstep (ret_Ok {| element_ptr_ := e; control_ptr_ := None |} s1).
      simpl control_ptr_. cbv iota.
      mstep (ret_Ok tt s1).
      mstep (ret_Ok {| element_ptr_ := e; control_ptr_ := None |} s1).
      unfold ret.
      do 2 f_equal. subst s1. destruct s as [h lg bud own obs]; simpl in *.
      unfold set_owning; simpl. f_equal. apply list_insert_id. exact Hp.
  - unfold SharedPtr_move_assign, SharedPtr_move, SharedPtr_swap.
    set (empty := {| element_ptr_ := None; control_ptr_ := None |}).
    mstep (read_shared_Ok _ _ _ Hp).
    mstep (write_shared_Ok _ empty _ _ Hp).
    set (s1 := set_owning _ s).
    mstep (ret_Ok {| element_ptr_ := element_ptr_ p; control_ptr_ := control_ptr_ p |} s1).
    assert (Hp1 : owning s1 !! i = Some (Some empty)).
    { simpl. apply list_lookup_insert_eq. eapply lookup_lt_Some; eauto. }
    mstep (read_shared_Ok _ _ _ Hp1).
    mstep (write_shared_Ok _
             {| element_ptr_ := element_ptr_ p; control_ptr_ := control_ptr_ p |}
             _ _ Hp1).
    set (s2 := set_owning _ s1).
    mstep (ret_Ok empty s2).
    unfold SharedPtr_dtor. simpl control_ptr_. cbv iota.
    mstep (ret_Ok tt s2).
    mstep (ret_Ok {| element_ptr_ := element_ptr_ empty; control_ptr_ := None |} s2).
    unfold ret.
    do 2 f_equal. subst s2 s1. destruct s as [h lg bud own obs]; simpl in *.
    unfold set_owning; simpl. f_equal.
    rewrite list_insert_insert_eq. destruct p. apply list_insert_id. exact Hp.
Qed.

(** C9.  When the allocator answers the request and [T]'s constructor makes
    [v] of the arguments, [AllocateShared] returns a handle with a control
    block in storage that was free, whose [get()] points to the element of
    that block, the element is [v], [use_count()] is 1, and the call logs an
    allocation by the supplied allocator, the construction of the element, and
    nothing else.  [MakeShared] is the same with [std::allocator]. *)
Theorem factory_constructs_with_one_allocation {Args : Type}
    (alloc : Alloc) (construct : Args → option T) (args : Args) (v : T) s :
  head (budget s) ≠ Some false →
  construct args = Some v →
  ∃ a s',
    let h := {| element_ptr_ := Some (inplace a); control_ptr_ := Some a |} in
    AllocateShared alloc construct args s = Ok h s' ∧
    (alloc = std_allocator → MakeShared construct args s = Ok h s') ∧
    heap s !! a = None ∧
    SharedPtr_get h = Some (inplace a) ∧
    get_elem s' a = Some v ∧
    SharedPtr_use_count h s' = Ok 1 s' ∧
    log s' = log s ++ [EvAllocate alloc a; EvConstruct a] ∧
    count_events is_allocate (log s') = count_events is_allocate (log s) + 1.
Proof.
  intros Hb Hv.
  exists (fresh (dom (heap s))).
  destruct (allocate_Ok alloc s Hb) as (s1 & E1 & Hh1 & Hl1 & _).
  pose proof (fresh_is_free s) as Hfresh.
  set (a := fresh (dom (heap s))) in *.
  assert (E : ∃ s', AllocateShared alloc construct args s
                    = Ok {| element_ptr_ := Some (inplace a); control_ptr_ := Some a |} s' ∧
                    heap s' !! a = Some (Constructed
                       {| shared_owners_ := 1; shared_weak_owners_ := 0;
                          derived := SharedPtrEmplacer (Some alloc) (Some v) |}) ∧
                    log s' = log s ++ [EvAllocate alloc a; EvConstruct a]).
  { rewrite (AllocateShared_Ok alloc construct args v s s1 a E1 Hv).
    eexists. split; [reflexivity|]. simpl. split.
    - rewrite lookup_insert_eq. reflexivity.
    - rewrite Hl1, <- app_assoc. reflexivity. }
  destruct E as (s' & E & Hh' & Hl').
  exists s'. cbv zeta. split; [exact E|]. split; [intros ->; exact E|].
  split; [exact Hfresh|]. split; [reflexivity|]. split.
  - unfold get_elem. rewrite Hh'. reflexivity.
  - split.
    + unfold SharedPtr_use_count. simpl. rewrite (use_count_Ok _ _ _ Hh'). reflexivity.
    + split; [exact Hl'|]. rewrite Hl', count_events_app. simpl. lia.
Qed.

(** C10.  A default-constructed Owning Handle, and one constructed from the
    null-pointer literal, is empty: constructing it leaves the state as it is
    (nothing is allocated), [get()] is null, [use_count()] is 0, and its
    destructor leaves the state as it is (no hook runs, no count changes). *)
Theorem empty_handle_is_inert s :
  let empty := {| element_ptr_ := None; control_ptr_ := None |} in
  SharedPtr_ctor s = Ok empty s ∧
  SharedPtr_ctor_nullptr s = Ok empty s ∧
  SharedPtr_get empty = None ∧
  SharedPtr_use_count empty s = Ok 0 s ∧
  SharedPtr_dtor empty s = Ok empty s.
Proof. cbv zeta. repeat split. Qed.

End Operations.

(** ** The scenarios *)

Module ScenarioFacts.

Import Scenario.

Lemma with_H_built :
  (let* h := SharedPtr_ctor_ptr_del X D in declare_shared h) (start []) = Ok tt with_H.
Proof. vm_compute. reflexivity. Qed.

Lemma with_H_W_built : run [WFromShared 0] with_H = Ok tt with_H_W.
Proof. vm_compute. reflexivity. Qed.

Lemma with_W_built : run [Destroy 0] with_H_W = Ok tt with_W.
Proof. vm_compute. reflexivity. Qed.

Lemma with_H_consistent : consistent with_H.
Proof.
  intros a. destruct (decide (a = 1%positive)) as [->|Hne].
  - vm_compute. repeat split; eauto.
  - unfold with_H; simpl. rewrite lookup_singleton_ne by congruence.
    unfold owners; simpl. rewrite refs_other by congruence. split; reflexivity.
Qed.

Lemma with_H_W_consistent : consistent with_H_W.
Proof.
  intros a. destruct (decide (a = 1%positive)) as [->|Hne].
  - vm_compute. repeat split; eauto.
  - unfold with_H_W; simpl. rewrite lookup_singleton_ne by congruence.
    unfold owners, observers; simpl. rewrite !refs_other by congruence.
    split; reflexivity.
Qed.

Lemma scenario_A_lock_free : lock_free scenario_A.
Proof. repeat constructor. Qed.

Lemma with_H_in_range (n : nat) : (n ≤ 1000)%nat → in_range with_H n.
Proof. unfold in_range, SIZE_MAX. simpl. lia. Qed.

Lemma with_H_W_in_range (n : nat) : (n ≤ 1000)%nat → in_range with_H_W n.
Proof. unfold in_range, SIZE_MAX. simpl. lia. Qed.

(** Scenario A, step by step. *)
Example scenario_A_use_counts :
  SharedPtr_use_count H with_H = Ok 1 with_H ∧
  ∃ s1 s2 s3,
    run [Copy 0] with_H = Ok tt s1 ∧
    SharedPtr_use_count H s1 = Ok 2 s1 ∧
    run [Destroy 0] s1 = Ok tt s2 ∧
    SharedPtr_use_count H s2 = Ok 1 s2 ∧
    count_events is_delete (log s2) = 0 ∧
    run [Destroy 1] s2 = Ok tt s3 ∧
    count_events is_delete (log s3) = 1 ∧
    heap s3 = ∅.
Proof.
  split; [reflexivity|]. do 3 eexists.
  split; [vm_compute; reflexivity|].
  split; [vm_compute; reflexivity|].
  split; [vm_compute; reflexivity|].
  split; [vm_compute; reflexivity|].
  split; [vm_compute; reflexivity|].
  split; [vm_compute; reflexivity|].
  split; vm_compute; reflexivity.
Qed.

(** Scenario B: H goes first, then W. *)
Example scenario_B_expiry :
  run [Destroy 0] with_H_W = Ok tt with_W ∧
  count_events is_delete (log with_W) = 1 ∧
  WeakPtr_expired W with_W = Ok true with_W ∧
  ∃ s, run [WDestroy 0] with_W = Ok tt s ∧
       count_events is_delete (log s) = 1 ∧
       deallocated 1%positive s = 1 ∧
       heap s = ∅.
Proof.
  split; [vm_compute; reflexivity|].
  split; [vm_compute; reflexivity|].
  split; [vm_compute; reflexivity|].
  eexists. split; [vm_compute; reflexivity|].
  split; [vm_compute; reflexivity|].
  split; vm_compute; reflexivity.
Qed.

End ScenarioFacts.

(** ** Where the code leaves the specification *)

(** C1.  [lock()] on an Observing Handle whose object is alive returns a
    handle to the object but leaves the strong count of the block at 1; and
    on an Observing Handle that reports [expired()], with the control block
    still allocated, it returns a handle that is not empty. *)
Theorem lock_takes_no_reference_and_ignores_expiry :
  WeakPtr_expired Scenario.W Scenario.with_H_W = Ok false Scenario.with_H_W ∧
  WeakPtr_lock Scenario.W Scenario.with_H_W = Ok Scenario.H Scenario.with_H_W ∧
  strong_count Scenario.with_H_W 1%positive = Some 1 ∧
  WeakPtr_expired Scenario.W Scenario.with_W = Ok true Scenario.with_W ∧
  WeakPtr_lock Scenario.W Scenario.with_W = Ok Scenario.H Scenario.with_W ∧
  control_ptr_ Scenario.H = Some 1%positive.
Proof. repeat split; vm_compute; reflexivity. Qed.

(** C2.  With a handle L made by [lock()] in the program, the managed
    object is destroyed at a step that is not the end of the last Owning
    Handle: after [SharedPtr<T> H(X, D); WeakPtr<T> W(H); SharedPtr<T> L =
    W.lock();] two Owning Handles reference the block, the strong count is 1
    and D has not been called; the end of L runs the first hook and calls D on
    X, and H is still in scope, points to the block and reports
    [use_count() == 0]. *)
Theorem lock_destroys_object_under_an_owner :
  run [WFromShared 0; Lock 0] Scenario.with_H = Ok tt MoreScenarios.with_H_W_L ∧
  owning MoreScenarios.with_H_W_L = [Some Scenario.H; Some Scenario.H] ∧
  owners 1%positive (owning MoreScenarios.with_H_W_L) = 2 ∧
  strong_count MoreScenarios.with_H_W_L 1%positive = Some 1 ∧
  destroyed 1%positive MoreScenarios.with_H_W_L = 0 ∧
  count_events is_delete (log MoreScenarios.with_H_W_L) = 0 ∧
  step (Destroy 1) MoreScenarios.with_H_W_L
  = Ok tt MoreScenarios.X_destroyed_under_H ∧
  log MoreScenarios.X_destroyed_under_H
  = log MoreScenarios.with_H_W_L
    ++ [EvZeroShared 1%positive; EvDelete Scenario.D Scenario.X;
        EvDeleterDtor Scenario.D] ∧
  destroyed 1%positive MoreScenarios.X_destroyed_under_H = 1 ∧
  owning MoreScenarios.X_destroyed_under_H !! 0%nat = Some (Some Scenario.H) ∧
  owners 1%positive (owning MoreScenarios.X_destroyed_under_H) = 1 ∧
  SharedPtr_use_count Scenario.H MoreScenarios.X_destroyed_under_H
  = Ok 0 MoreScenarios.X_destroyed_under_H.
Proof. repeat split; vm_compute; reflexivity. Qed.

(** C4.  With a handle made by [lock()] in the program, the storage of the
    control block is deallocated while the Owning Handle H is still in scope
    and still points to it. *)
Theorem lock_frees_block_under_an_owner :
  run Scenario.lock_then_leave Scenario.with_H = Ok tt Scenario.H_left_dangling ∧
  owning Scenario.H_left_dangling !! 0%nat = Some (Some Scenario.H) ∧
  owners 1%positive (owning Scenario.H_left_dangling) = 1 ∧
  heap Scenario.H_left_dangling !! 1%positive = None ∧
  destroyed 1%positive Scenario.H_left_dangling = 1 ∧
  deallocated 1%positive Scenario.H_left_dangling = 1.
Proof. repeat split; vm_compute; reflexivity. Qed.

(** C5.  When the allocation of the control block fails, the constructor that
    takes a deleter calls it on the raw pointer before the exception leaves,
    and the constructor that also takes an allocator lets the exception leave
    without calling it. *)
Theorem allocation_failure_with_allocator_skips_deleter :
  SharedPtr_ctor_ptr_del (T := unit) Scenario.X Scenario.D (start [false])
  = Throw (set_log [EvDelete Scenario.D Scenario.X] (start [])) ∧
  SharedPtr_ctor_ptr_del_alloc (T := unit) Scenario.X Scenario.D (custom_alloc 0)
    (start [false])
  = Throw (start []).
Proof. split; vm_compute; reflexivity. Qed.

(** C6.  When the constructor of the managed object throws in
    [AllocateShared], the stored allocator is destroyed, and the exception
    leaves with the block still allocated: nothing is deallocated. *)
Theorem constructor_failure_leaks_block :
  AllocateShared (custom_alloc 0) Scenario.throwing_ctor (1, 2) (start [])
  = Throw Scenario.block_leaked ∧
  heap Scenario.block_leaked !! 1%positive = Some Raw ∧
  deallocated 1%positive Scenario.block_leaked = 0.
Proof. repeat split; vm_compute; reflexivity. Qed.

(** ** The theorems at the scenarios *)

Lemma use_count_is_number_of_owners_witness :
  ∃ s', run (take 1 Scenario.scenario_A) Scenario.with_H = Ok tt s' ∧
        ∀ (i : nat) (p : SharedPtr) (a : positive),
          owning s' !! i = Some (Some p) →
          control_ptr_ p = Some a →
          SharedPtr_use_count p s' = Ok (owners a (owning s')) s'.
Proof.
  apply (use_count_is_number_of_owners Scenario.scenario_A Scenario.with_H 1).
  - exact ScenarioFacts.with_H_consistent.
  - exact ScenarioFacts.scenario_A_lock_free.
  - apply ScenarioFacts.with_H_in_range. simpl. lia.
Defined.

Lemma managed_object_destroyed_exactly_once_witness :
  (∃ s', run Scenario.scenario_A Scenario.with_H = Ok tt s' ∧
         destroyed 1%positive s' - destroyed 1%positive Scenario.with_H
         = b2z (owners 1%positive (owning s') =? 0)) ∧
  (∀ (k : nat) (o : op), Scenario.scenario_A !! k = Some o →
     ∃ s1 s2, run (take k Scenario.scenario_A) Scenario.with_H = Ok tt s1 ∧
              run (take (S k) Scenario.scenario_A) Scenario.with_H = Ok tt s2 ∧
              0 ≤ destroyed 1%positive s2 - destroyed 1%positive s1 ≤ 1 ∧
              (destroyed 1%positive s2 - destroyed 1%positive s1 = 1 ↔
               strong_count s1 1%positive = Some 1 ∧
               owners 1%positive (owning s2) = 0)).
Proof.
  apply (managed_object_destroyed_exactly_once Scenario.scenario_A Scenario.with_H 1).
  - exact ScenarioFacts.with_H_consistent.
  - exact ScenarioFacts.scenario_A_lock_free.
  - apply ScenarioFacts.with_H_in_range. simpl. lia.
  - vm_compute. discriminate.
Defined.

Lemma expired_iff_no_owner_witness :
  ∃ s', run [Destroy 0] Scenario.with_H_W = Ok tt s' ∧
        ∀ (i : nat) (w : WeakPtr) (a : positive),
          observing s' !! i = Some (Some w) →
          weak_control_ptr_ w = Some a →
          WeakPtr_expired w s' = Ok (owners a (owning s') =? 0) s'.
Proof.
  apply (proj2 expired_iff_no_owner [Destroy 0] Scenario.with_H_W).
  - exact ScenarioFacts.with_H_W_consistent.
  - repeat constructor.
  - apply ScenarioFacts.with_H_W_in_range. simpl. lia.
Defined.

Lemma self_assignment_changes_nothing_witness :
  SharedPtr_assign 0 0 Scenario.with_H = Ok tt Scenario.with_H ∧
  SharedPtr_move_assign 0 0 Scenario.with_H = Ok tt Scenario.with_H.
Proof.
  destruct (self_assignment_changes_nothing Scenario.with_H 0 Scenario.H)
    as [Hcopy Hmove].
  - reflexivity.
  - split; [|exact Hmove]. apply Hcopy.
    eexists. split; [reflexivity|]. vm_compute. split; [discriminate | reflexivity].
Defined.

Lemma factory_constructs_with_one_allocation_witness :
  ∃ a s',
    let h := {| element_ptr_ := Some (inplace a); control_ptr_ := Some a |} in
    AllocateShared std_allocator Scenario.pair_ctor (3, 4) (start []) = Ok h s' ∧
    (std_allocator = std_allocator →
     MakeShared Scenario.pair_ctor (3, 4) (start []) = Ok h s') ∧
    heap (start (T := Z * Z) []) !! a = None ∧
    SharedPtr_get h = Some (inplace a) ∧
    get_elem s' a = Some (3, 4) ∧
    SharedPtr_use_count h s' = Ok 1 s' ∧
    log s' = log (start (T := Z * Z) []) ++ [EvAllocate std_allocator a; EvConstruct a] ∧
    count_events is_allocate (log s')
    = count_events is_allocate (log (start (T := Z * Z) [])) + 1.
Proof.
  apply (factory_constructs_with_one_allocation std_allocator Scenario.pair_ctor
           (3, 4) (3, 4) (start [])).
  - simpl. discriminate.
  - reflexivity.
Defined.

Lemma lock_free_block_deallocated_exactly_once_witness :
  ∃ s', run [WFromShared 0; Destroy 0; WDestroy 0] Scenario.with_H = Ok tt s' ∧
        deallocated 1%positive s' - deallocated 1%positive Scenario.with_H
        = b2z ((owners 1%positive (owning s') =? 0)
               && (observers 1%positive (observing s') =? 0)).
Proof.
  apply (lock_free_block_deallocated_exactly_once
           [WFromShared 0; Destroy 0; WDestroy 0] Scenario.with_H 1).
  - exact ScenarioFacts.with_H_consistent.
  - repeat constructor.
  - apply ScenarioFacts.with_H_in_range. simpl. lia.
  - vm_compute. discriminate.
Defined.

(** * Further properties of the code *)

(** ** The destructors, exactly *)

Section Destructors.

Context {T : Type}.

Implicit Types (s : State T) (a : addr) (c : ControlBlock T).

Lemma zero_shared_exact a c s :
  heap s !! a = Some (Constructed c) →
  object_alive (derived c) = true →
  is_Some (allocator_of (derived c)) →
  zero_shared a s
  = Ok tt (set_heap (<[a := Constructed (set_derived (spent (derived c)) c)]> (heap s))
             (set_log (log s ++ destroy_events a (derived c)) s)).
Proof.
  intros H Halive [al Hal]. unfold zero_shared.
  rewrite bind_eq, (get_block_Ok _ _ _ H).
  destruct (derived c) as [v [del|] al'|[al'|] [el|]]; simpl in *; try discriminate;
    unfold bind, emit, put_block, set_heap, set_log; simpl;
    rewrite <- !app_assoc; reflexivity.
Qed.

Lemma decrement_shared_pos c :
  0 < shared_owners_ c →
  decrement_shared c = set_shared_owners (shared_owners_ c - 1) c.
Proof.
  intros H. unfold decrement_shared.
  destruct (0 <? shared_owners_ c) eqn:E; [reflexivity|]. apply Z.ltb_ge in E. lia.
Qed.

Lemma decrement_weak_pos c :
  0 < shared_weak_owners_ c →
  decrement_weak c = set_shared_weak_owners (shared_weak_owners_ c - 1) c.
Proof.
  intros H. unfold decrement_weak.
  destruct (0 <? shared_weak_owners_ c) eqn:E; [reflexivity|]. apply Z.ltb_ge in E. lia.
Qed.

(** [~SharedPtr()] of a handle that is not the last owner. *)
Lemma SharedPtr_dtor_not_last a c (e : option object) s :
  heap s !! a = Some (Constructed c) →
  1 < shared_owners_ c →
  SharedPtr_dtor {| element_ptr_ := e; control_ptr_ := Some a |} s
  = Ok {| element_ptr_ := e; control_ptr_ := None |}
      (set_heap (<[a := Constructed (set_shared_owners (shared_owners_ c - 1) c)]>
                   (heap s)) s).
Proof.
  intros Hh Hs. unfold SharedPtr_dtor. simpl control_ptr_. cbv iota.
  mstep (arrow_Ok _ _ decrement_shared _ Hh).
  rewrite decrement_shared_pos by lia.
  set (c1 := set_shared_owners _ c). set (s1 := set_heap _ s).
  assert (Hh1 : heap s1 !! a = Some (Constructed c1)) by apply lookup_insert_eq.
  assert (Hnz : (shared_owners_ c1 =? 0) = false) by (apply Z.eqb_neq; simpl; lia).
  assert (Hrel : release_shared a s1 = Ok tt s1)
    by (rewrite (release_shared_eq _ _ _ Hh1), Hnz; reflexivity).
  mstep Hrel. mstep (use_count_Ok _ _ _ Hh1). rewrite Hnz.
  mstep (ret_Ok tt s1). reflexivity.
Qed.

(** [~SharedPtr()] of the last owner while an observer is left: the first hook
    runs, the block stays. *)
Lemma SharedPtr_dtor_last_observed a c (e : option object) s :
  heap s !! a = Some (Constructed c) →
  shared_owners_ c = 1 →
  shared_weak_owners_ c ≠ 0 →
  object_alive (derived c) = true →
  is_Some (allocator_of (derived c)) →
  SharedPtr_dtor {| element_ptr_ := e; control_ptr_ := Some a |} s
  = Ok {| element_ptr_ := e; control_ptr_ := None |}
      (set_heap (<[a := Constructed {| shared_owners_ := 0;
                                       shared_weak_owners_ := shared_weak_owners_ c;
                                       derived := spent (derived c) |}]> (heap s))
         (set_log (log s ++ destroy_events a (derived c)) s)).
Proof.
  intros Hh Hs Hw Halive Hal. unfold SharedPtr_dtor. simpl control_ptr_. cbv iota.
  mstep (arrow_Ok _ _ decrement_shared _ Hh).
  rewrite decrement_shared_pos by lia.
  set (c1 := set_shared_owners _ c). set (s1 := set_heap _ s).
  assert (Hh1 : heap s1 !! a = Some (Constructed c1)) by apply lookup_insert_eq.
  assert (Hz : (shared_owners_ c1 =? 0) = true) by (apply Z.eqb_eq; simpl; lia).
  assert (Hrel : release_shared a s1
                 = Ok tt (set_heap (<[a := Constructed (set_derived (spent (derived c1)) c1)]>
                                      (heap s1))
                            (set_log (log s1 ++ destroy_events a (derived c1)) s1))).
  { rewrite (release_shared_eq _ _ _ Hh1), Hz. apply zero_shared_exact; assumption. }
  mstep Hrel. set (s2 := set_heap _ _).
  assert (Hh2 : heap s2 !! a = Some (Constructed (set_derived (spent (derived c1)) c1)))
    by apply lookup_insert_eq.
  mstep (use_count_Ok _ _ _ Hh2).
  change (shared_owners_ (set_derived (spent (derived c1)) c1)) with (shared_owners_ c1).
  rewrite Hz.
  assert (Hwnz : (shared_weak_owners_ c =? 0) = false) by (apply Z.eqb_neq; exact Hw).
  assert (Hrw : release_weak a s2 = Ok tt s2)
    by (rewrite (release_weak_eq _ _ _ Hh2); simpl; rewrite Hwnz; reflexivity).
  mstep Hrw. unfold ret.
  subst s2 s1 c1. unfold set_heap, set_log, set_derived, set_shared_owners; simpl.
  rewrite insert_insert_eq, Hs. reflexivity.
Qed.

(** [~SharedPtr()] of the last owner with no observer left: both hooks run,
    the storage goes back. *)
Lemma SharedPtr_dtor_last a c (e : option object) (al : Alloc) s :
  heap s !! a = Some (Constructed c) →
  shared_owners_ c = 1 →
  shared_weak_owners_ c = 0 →
  object_alive (derived c) = true →
  allocator_of (derived c) = Some al →
  SharedPtr_dtor {| element_ptr_ := e; control_ptr_ := Some a |} s
  = Ok {| element_ptr_ := e; control_ptr_ := None |}
      (set_heap (delete a (heap s))
         (set_log (log s ++ destroy_events a (derived c) ++ free_events a al) s)).
Proof.
  intros Hh Hs Hw Halive Hal. unfold SharedPtr_dtor. simpl control_ptr_. cbv iota.
  mstep (arrow_Ok _ _ decrement_shared _ Hh).
  rewrite decrement_shared_pos by lia.
  set (c1 := set_shared_owners _ c). set (s1 := set_heap _ s).
  assert (Hh1 : heap s1 !! a = Some (Constructed c1)) by apply lookup_insert_eq.
  assert (Hz : (shared_owners_ c1 =? 0) = true) by (apply Z.eqb_eq; simpl; lia).
  assert (Hrel : release_shared a s1
                 = Ok tt (set_heap (<[a := Constructed (set_derived (spent (derived c1)) c1)]>
                                      (heap s1))
                            (set_log (log s1 ++ destroy_events a (derived c1)) s1))).
  { rewrite (release_shared_eq _ _ _ Hh1), Hz. apply zero_shared_exact; eauto. }
  mstep Hrel. set (s2 := set_heap _ _).
  assert (Hh2 : heap s2 !! a = Some (Constructed (set_derived (spent (derived c1)) c1)))
    by apply lookup_insert_eq.
  mstep (use_count_Ok _ _ _ Hh2).
  change (shared_owners_ (set_derived (spent (derived c1)) c1)) with (shared_owners_ c1).
  rewrite Hz.
  assert (Hal2 : allocator_of (derived (set_derived (spent (derived c1)) c1)) = Some al).
  { simpl. destruct (derived c); simpl in *; assumption. }
  assert (Hrw : release_weak a s2
                = Ok tt (set_heap (delete a (heap s2))
                           (set_log (log s2 ++ free_events a al) s2))).
  { rewrite (release_weak_eq _ _ _ Hh2). simpl shared_weak_owners_. rewrite Hw. simpl.
    exact (zero_shared_and_weak_Ok a _ al s2 Hh2 Hal2). }
  mstep Hrw. unfold ret.
  subst s2 s1 c1. unfold set_heap, set_log; simpl.
  rewrite !delete_insert_eq, <- app_assoc. reflexivity.
Qed.

(** [~WeakPtr()] while an owner is left, or while another observer is. *)
Lemma WeakPtr_dtor_not_last a c (e : option object) s :
  heap s !! a = Some (Constructed c) →
  0 < shared_weak_owners_ c →
  shared_owners_ c ≠ 0 ∨ 1 < shared_weak_owners_ c →
  WeakPtr_dtor {| weak_element_ptr_ := e; weak_control_ptr_ := Some a |} s
  = Ok {| weak_element_ptr_ := e; weak_control_ptr_ := None |}
      (set_heap (<[a := Constructed (set_shared_weak_owners (shared_weak_owners_ c - 1) c)]>
                   (heap s)) s).
Proof.
  intros Hh Hw Hor. unfold WeakPtr_dtor. simpl weak_control_ptr_. cbv iota.
  mstep (arrow_Ok _ _ decrement_weak _ Hh).
  rewrite decrement_weak_pos by lia.
  set (c1 := set_shared_weak_owners _ c). set (s1 := set_heap _ s).
  assert (Hh1 : heap s1 !! a = Some (Constructed c1)) by apply lookup_insert_eq.
  mstep (use_count_Ok _ _ _ Hh1).
  change (shared_owners_ c1) with (shared_owners_ c).
  destruct (shared_owners_ c =? 0) eqn:Hz.
  - apply Z.eqb_eq in Hz. destruct Hor as [Hor|Hor]; [lia|].
    assert (Hwnz : (shared_weak_owners_ c1 =? 0) = false)
      by (apply Z.eqb_neq; simpl; lia).
    assert (Hrw : release_weak a s1 = Ok tt s1)
      by (rewrite (release_weak_eq _ _ _ Hh1), Hwnz; reflexivity).
    mstep Hrw. reflexivity.
  - mstep (ret_Ok tt s1). reflexivity.
Qed.

(** [~WeakPtr()] of the last observer of a block whose object is gone. *)
Lemma WeakPtr_dtor_last a c (e : option object) (al : Alloc) s :
  heap s !! a = Some (Constructed c) →
  shared_owners_ c = 0 →
  shared_weak_owners_ c = 1 →
  allocator_of (derived c) = Some al →
  WeakPtr_dtor {| weak_element_ptr_ := e; weak_control_ptr_ := Some a |} s
  = Ok {| weak_element_ptr_ := e; weak_control_ptr_ := None |}
      (set_heap (delete a (heap s)) (set_log (log s ++ free_events a al) s)).
Proof.
  intros Hh Hs Hw Hal. unfold WeakPtr_dtor. simpl weak_control_ptr_. cbv iota.
  mstep (arrow_Ok _ _ decrement_weak _ Hh).
  rewrite decrement_weak_pos by lia.
  set (c1 := set_shared_weak_owners _ c). set (s1 := set_heap _ s).
  assert (Hh1 : heap s1 !! a = Some (Constructed c1)) by apply lookup_insert_eq.
  mstep (use_count_Ok _ _ _ Hh1).
  change (shared_owners_ c1) with (shared_owners_ c). rewrite Hs. simpl.
  assert (Hrw : release_weak a s1
                = Ok tt (set_heap (delete a (heap s1))
                           (set_log (log s1 ++ free_events a al) s1))).
  { rewrite (release_weak_eq _ _ _ Hh1). simpl shared_weak_owners_. rewrite Hw. simpl.
    exact (zero_shared_and_weak_Ok a c1 al s1 Hh1 Hal). }
  mstep Hrw. unfold ret.
  subst s1. unfold set_heap, set_log; simpl. rewrite delete_insert_eq. reflexivity.
Qed.

End Destructors.

(** ** A handle that is constructed and destroyed *)

Section RoundTrips.

Context {T : Type}.

Implicit Types (s : State T) (a : addr).

(** What the three constructors from a raw pointer come to when the
    allocation succeeds. *)
Lemma pointer_ctor_result s s1 a (ptr : option object) (del : Deleter) (al : Alloc) :
  allocate al s = Ok a s1 →
  (let* _ := put_block a (new_block (SharedPtrPointer ptr (Some del) (Some al))) in
   a ->* add_shared) s1
  = Ok tt (set_heap
             (<[a := Constructed {| shared_owners_ := 1; shared_weak_owners_ := 0;
                                    derived := SharedPtrPointer ptr (Some del) (Some al) |}]>
                (heap s1)) s1).
Proof.
  intros _.
  set (d := SharedPtrPointer (T := T) ptr (Some del) (Some al)).
  assert (Hh : heap (set_heap (<[a := Constructed (new_block d)]> (heap s1)) s1) !! a
               = Some (Constructed (new_block d))) by apply lookup_insert_eq.
  mstep (put_block_Ok a (new_block d) s1).
  rewrite (arrow_Ok a (new_block d) add_shared _ Hh).
  unfold set_heap; simpl. rewrite insert_insert_eq. reflexivity.
Qed.

Lemma SharedPtr_ctor_ptr_Ok s s1 (ptr : option object) :
  allocate std_allocator s = Ok (fresh (dom (heap s))) s1 →
  SharedPtr_ctor_ptr ptr s
  = Ok {| element_ptr_ := ptr; control_ptr_ := Some (fresh (dom (heap s))) |}
      (set_heap
         (<[fresh (dom (heap s)) :=
              Constructed {| shared_owners_ := 1; shared_weak_owners_ := 0;
                             derived := SharedPtrPointer ptr (Some default_delete)
                                          (Some std_allocator) |}]>
            (heap s1)) s1).
Proof.
  intros E1. unfold SharedPtr_ctor_ptr.
  rewrite (operator_new_add_shared s s1 _ _ E1).
  unfold ret, set_heap; simpl. rewrite insert_insert_eq. reflexivity.
Qed.

Lemma SharedPtr_ctor_ptr_del_Ok s s1 (ptr : option object) (del : Deleter) :
  allocate std_allocator s = Ok (fresh (dom (heap s))) s1 →
  SharedPtr_ctor_ptr_del ptr del s
  = Ok {| element_ptr_ := ptr; control_ptr_ := Some (fresh (dom (heap s))) |}
      (set_heap
         (<[fresh (dom (heap s)) :=
              Constructed {| shared_owners_ := 1; shared_weak_owners_ := 0;
                             derived := SharedPtrPointer ptr (Some del)
                                          (Some std_allocator) |}]>
            (heap s1)) s1).
Proof.
  intros E1. unfold SharedPtr_ctor_ptr_del. rewrite bind_eq. unfold try_catch.
  rewrite (operator_new_add_shared s s1 _ _ E1).
  unfold ret, set_heap; simpl. rewrite insert_insert_eq. reflexivity.
Qed.

Lemma SharedPtr_ctor_ptr_del_alloc_Ok s s1 a (ptr : option object) (del : Deleter)
    (alloc : Alloc) :
  allocate alloc s = Ok a s1 →
  SharedPtr_ctor_ptr_del_alloc ptr del alloc s
  = Ok {| element_ptr_ := ptr; control_ptr_ := Some a |}
      (set_heap
         (<[a := Constructed {| shared_owners_ := 1; shared_weak_owners_ := 0;
                                derived := SharedPtrPointer ptr (Some del) (Some alloc) |}]>
            (heap s1)) s1).
Proof.
  intros E1. unfold SharedPtr_ctor_ptr_del_alloc. mstep E1.
  rewrite bind_eq. unfold try_catch.
  rewrite (pointer_ctor_result s s1 a ptr del alloc E1). reflexivity.
Qed.

(** The heap a constructor has added one block to, once the block is
    deleted. *)
Lemma heap_restored s s1 :
  heap s1 = <[fresh (dom (heap s)) := Raw]> (heap s) →
  delete (fresh (dom (heap s))) (heap s1) = heap s.
Proof.
  intros ->. rewrite delete_insert_eq. apply delete_id, fresh_is_free.
Qed.

(** The destructor of the only handle of a block made from a raw pointer. *)
Lemma sole_pointer_owner_dtor s a (ptr : option object) (del : Deleter) (al : Alloc)
    (m : gmap positive (cell T)) :
  heap s = <[a := Constructed {| shared_owners_ := 1; shared_weak_owners_ := 0;
                                 derived := SharedPtrPointer ptr (Some del) (Some al) |}]> m →
  SharedPtr_dtor {| element_ptr_ := ptr; control_ptr_ := Some a |} s
  = Ok {| element_ptr_ := ptr; control_ptr_ := None |}
      (set_heap (delete a m)
         (set_log (log s ++ [EvZeroShared a; EvDelete del ptr; EvDeleterDtor del;
                             EvZeroSharedAndWeak a; EvAllocDtor al; EvDeallocate al a])
            s)).
Proof.
  intros Hh.
  rewrite (SharedPtr_dtor_last a
             {| shared_owners_ := 1; shared_weak_owners_ := 0;
                derived := SharedPtrPointer ptr (Some del) (Some al) |} ptr al s);
    try reflexivity.
  - rewrite Hh, delete_insert_eq. reflexivity.
  - rewrite Hh. apply lookup_insert_eq.
Qed.

(** X1.  [{ SharedPtr<T> h(ptr); }]: when the allocation succeeds, the handle
    owns a new block alone; when it is destroyed, [std::default_delete] is
    called once on [ptr] (null or not), then destroyed, then the stored
    allocator is destroyed and the block is deallocated through
    [std::allocator]; the heap is what it was before. *)
Theorem raw_pointer_handle_round_trip (ptr : option object) s :
  head (budget s) ≠ Some false →
  ∃ s1 s2,
    let a := fresh (dom (heap s)) in
    SharedPtr_ctor_ptr ptr s = Ok {| element_ptr_ := ptr; control_ptr_ := Some a |} s1 ∧
    SharedPtr_use_count {| element_ptr_ := ptr; control_ptr_ := Some a |} s1 = Ok 1 s1 ∧
    SharedPtr_dtor {| element_ptr_ := ptr; control_ptr_ := Some a |} s1
    = Ok {| element_ptr_ := ptr; control_ptr_ := None |} s2 ∧
    heap s2 = heap s ∧
    log s2 = log s ++ [EvAllocate std_allocator a;
                       EvZeroShared a; EvDelete default_delete ptr;
                       EvDeleterDtor default_delete;
                       EvZeroSharedAndWeak a; EvAllocDtor std_allocator;
                       EvDeallocate std_allocator a].
Proof.
  intros Hb.
  destruct (allocate_Ok std_allocator s Hb) as (s0 & E0 & Hh0 & Hl0 & _).
  do 2 eexists. cbv zeta.
  split; [apply (SharedPtr_ctor_ptr_Ok s s0 ptr E0)|].
  split; [unfold SharedPtr_use_count; simpl;
          erewrite use_count_Ok by (simpl; apply lookup_insert_eq); reflexivity|].
  split; [apply sole_pointer_owner_dtor; reflexivity|].
  split; [simpl; apply heap_restored; exact Hh0|].
  simpl. rewrite Hl0, <- app_assoc. reflexivity.
Qed.

(** X2.  [{ SharedPtr<T> h(ptr, del); }]: the same with the caller's deleter:
    [del] is called exactly once, on [ptr], before it is destroyed and before
    the block is deallocated. *)
Theorem deleter_handle_round_trip (ptr : option object) (del : Deleter) s :
  head (budget s) ≠ Some false →
  ∃ s1 s2,
    let a := fresh (dom (heap s)) in
    SharedPtr_ctor_ptr_del ptr del s
    = Ok {| element_ptr_ := ptr; control_ptr_ := Some a |} s1 ∧
    SharedPtr_use_count {| element_ptr_ := ptr; control_ptr_ := Some a |} s1 = Ok 1 s1 ∧
    SharedPtr_dtor {| element_ptr_ := ptr; control_ptr_ := Some a |} s1
    = Ok {| element_ptr_ := ptr; control_ptr_ := None |} s2 ∧
    heap s2 = heap s ∧
    log s2 = log s ++ [EvAllocate std_allocator a;
                       EvZeroShared a; EvDelete del ptr; EvDeleterDtor del;
                       EvZeroSharedAndWeak a; EvAllocDtor std_allocator;
                       EvDeallocate std_allocator a].
Proof.
  intros Hb.
  destruct (allocate_Ok std_allocator s Hb) as (s0 & E0 & Hh0 & Hl0 & _).
  do 2 eexists. cbv zeta.
  split; [apply (SharedPtr_ctor_ptr_del_Ok s s0 ptr del E0)|].
  split; [unfold SharedPtr_use_count; simpl;
          erewrite use_count_Ok by (simpl; apply lookup_insert_eq); reflexivity|].
  split; [apply sole_pointer_owner_dtor; reflexivity|].
  split; [simpl; apply heap_restored; exact Hh0|].
  simpl. rewrite Hl0, <- app_assoc. reflexivity.
Qed.

(** X3.  [{ SharedPtr<T> h(ptr, del, alloc); }]: the block is allocated
    through [alloc] and deallocated through [alloc], after [del] was called
    once on [ptr]; the heap is what it was before. *)
Theorem allocator_handle_round_trip (ptr : option object) (del : Deleter)
    (alloc : Alloc) s :
  head (budget s) ≠ Some false →
  ∃ s1 s2,
    let a := fresh (dom (heap s)) in
    SharedPtr_ctor_ptr_del_alloc ptr del alloc s
    = Ok {| element_ptr_ := ptr; control_ptr_ := Some a |} s1 ∧
    SharedPtr_use_count {| element_ptr_ := ptr; control_ptr_ := Some a |} s1 = Ok 1 s1 ∧
    SharedPtr_dtor {| element_ptr_ := ptr; control_ptr_ := Some a |} s1
    = Ok {| element_ptr_ := ptr; control_ptr_ := None |} s2 ∧
    heap s2 = heap s ∧
    log s2 = log s ++ [EvAllocate alloc a;
                       EvZeroShared a; EvDelete del ptr; EvDeleterDtor del;
                       EvZeroSharedAndWeak a; EvAllocDtor alloc;
                       EvDeallocate alloc a].
Proof.
  intros Hb.
  destruct (allocate_Ok alloc s Hb) as (s0 & E0 & Hh0 & Hl0 & _).
  do 2 eexists. cbv zeta.
  split; [apply (SharedPtr_ctor_ptr_del_alloc_Ok s s0 _ ptr del alloc E0)|].
  split; [unfold SharedPtr_use_count; simpl;
          erewrite use_count_Ok by (simpl; apply lookup_insert_eq); reflexivity|].
  split; [apply sole_pointer_owner_dtor; reflexivity|].
  split; [simpl; apply heap_restored; exact Hh0|].
  simpl. rewrite Hl0, <- app_assoc. reflexivity.
Qed.

End RoundTrips.

(** ** A block that outlives its object *)

Section Observed.

Context {T : Type}.

Implicit Types (s : State T) (a : addr).

(** The life of a block with one owner from the moment an observer is taken:
    the owner goes, the observer sees the block expired, the observer goes. *)
Lemma observed_block_life s a (d : Derived T) (al : Alloc) (e : option object)
    (m : gmap positive (cell T)) :
  heap s = <[a := Constructed {| shared_owners_ := 1; shared_weak_owners_ := 0;
                                 derived := d |}]> m →
  object_alive d = true →
  allocator_of d = Some al →
  ∃ s2 s3 s4,
    WeakPtr_from_shared {| element_ptr_ := e; control_ptr_ := Some a |} s
    = Ok {| weak_element_ptr_ := e; weak_control_ptr_ := Some a |} s2 ∧
    log s2 = log s ∧
    SharedPtr_use_count {| element_ptr_ := e; control_ptr_ := Some a |} s2 = Ok 1 s2 ∧
    SharedPtr_dtor {| element_ptr_ := e; control_ptr_ := Some a |} s2
    = Ok {| element_ptr_ := e; control_ptr_ := None |} s3 ∧
    heap s3 = <[a := Constructed {| shared_owners_ := 0; shared_weak_owners_ := 1;
                                    derived := spent d |}]> m ∧
    log s3 = log s ++ destroy_events a d ∧
    WeakPtr_expired {| weak_element_ptr_ := e; weak_control_ptr_ := Some a |} s3
    = Ok true s3 ∧
    WeakPtr_dtor {| weak_element_ptr_ := e; weak_control_ptr_ := Some a |} s3
    = Ok {| weak_element_ptr_ := e; weak_control_ptr_ := None |} s4 ∧
    heap s4 = delete a m ∧
    log s4 = log s3 ++ free_events a al.
Proof.
  intros Hh Halive Hal.
  set (c0 := {| shared_owners_ := 1; shared_weak_owners_ := 0; derived := d |}).
  set (c1 := {| shared_owners_ := 1; shared_weak_owners_ := 1; derived := d |}).
  set (c2 := {| shared_owners_ := 0; shared_weak_owners_ := 1; derived := spent d |}).
  assert (Hh0 : heap s !! a = Some (Constructed c0))
    by (rewrite Hh; apply lookup_insert_eq).
  set (s2 := set_heap (<[a := Constructed c1]> (heap s)) s).
  assert (E2 : WeakPtr_from_shared {| element_ptr_ := e; control_ptr_ := Some a |} s
               = Ok {| weak_element_ptr_ := e; weak_control_ptr_ := Some a |} s2).
  { unfold WeakPtr_from_shared. simpl control_ptr_. cbv iota.
    mstep (arrow_Ok a c0 add_weak s Hh0). reflexivity. }
  assert (Hh2 : heap s2 !! a = Some (Constructed c1)) by apply lookup_insert_eq.
  pose proof (SharedPtr_dtor_last_observed a c1 e s2 Hh2 eq_refl
                ltac:(simpl; lia) Halive (ex_intro _ al Hal)) as E3.
  simpl in E3. set (s3 := set_heap _ _) in E3.
  assert (Hh3 : heap s3 !! a = Some (Constructed c2)) by apply lookup_insert_eq.
  assert (Hal2 : allocator_of (derived c2) = Some al)
    by (simpl; destruct d; simpl in *; assumption).
  pose proof (WeakPtr_dtor_last a c2 e al s3 Hh3 eq_refl eq_refl Hal2) as E4.
  exists s2, s3. eexists.
  split; [exact E2|]. split; [reflexivity|].
  split; [unfold SharedPtr_use_count; simpl; rewrite (use_count_Ok _ _ _ Hh2);
          reflexivity|].
  split; [exact E3|].
  split; [simpl; rewrite insert_insert_eq, Hh, insert_insert_eq; reflexivity|].
  split; [reflexivity|].
  split.
  { unfold WeakPtr_expired. cbv beta iota delta [weak_control_ptr_].
          rewrite bind_eq, (use_count_Ok _ _ _ Hh3); reflexivity. }
  split; [exact E4|].
  split; [|reflexivity].
  simpl. rewrite !delete_insert_eq, Hh, delete_insert_eq. reflexivity.
Qed.

(** X4.  [{ auto h = AllocateShared<T>(alloc, args...); }]: when the
    allocation succeeds and the constructor returns, one block is allocated
    through [alloc] and the element constructed in it; when the handle is
    destroyed the element is destroyed in place, then the stored allocator,
    then the block is deallocated through [alloc]: the heap is what it was
    before. *)
Theorem factory_handle_round_trip {Args : Type} (alloc : Alloc)
    (construct : Args → option T) (args : Args) (v : T) s :
  head (budget s) ≠ Some false →
  construct args = Some v →
  ∃ s1 s2,
    let a := fresh (dom (heap s)) in
    let h := {| element_ptr_ := Some (inplace a); control_ptr_ := Some a |} in
    AllocateShared alloc construct args s = Ok h s1 ∧
    SharedPtr_dtor h s1
    = Ok {| element_ptr_ := Some (inplace a); control_ptr_ := None |} s2 ∧
    heap s2 = heap s ∧
    log s2 = log s ++ [EvAllocate alloc a; EvConstruct a;
                       EvZeroShared a; EvDestroy a;
                       EvZeroSharedAndWeak a; EvAllocDtor alloc;
                       EvDeallocate alloc a].
Proof.
  intros Hb Hv.
  destruct (allocate_Ok alloc s Hb) as (s0 & E0 & Hh0 & Hl0 & _).
  set (a := fresh (dom (heap s))) in *.
  pose proof (AllocateShared_Ok alloc construct args v s s0 a E0 Hv) as E1.
  set (s1 := set_heap _ _) in E1.
  set (c := {| shared_owners_ := 1; shared_weak_owners_ := 0;
               derived := SharedPtrEmplacer (Some alloc) (Some v) |}).
  assert (Hh1 : heap s1 !! a = Some (Constructed c)) by apply lookup_insert_eq.
  pose proof (SharedPtr_dtor_last a c (Some (inplace a)) alloc s1 Hh1
                eq_refl eq_refl eq_refl eq_refl) as E2.
  exists s1. eexists. cbv zeta.
  split; [exact E1|]. split; [exact E2|]. split.
  - simpl. rewrite !delete_insert_eq. apply heap_restored. exact Hh0.
  - simpl. rewrite Hl0, <- !app_assoc. reflexivity.
Qed.

(** X5.  [SharedPtr<T> h(ptr, del); WeakPtr<T> w(h);], then [h] goes, then
    [w]: taking the observer logs nothing and leaves [use_count()] at 1; when
    [h] goes the deleter is called on [ptr] and destroyed although [w] is
    there, and the block stays allocated with counts 0 and 1; [w.expired()] is
    true; when [w] goes the block is deallocated and the heap is what it was
    before. *)
Theorem observer_keeps_block_not_object (ptr : option object) (del : Deleter) s :
  head (budget s) ≠ Some false →
  ∃ s1 s2 s3 s4,
    let a := fresh (dom (heap s)) in
    let h := {| element_ptr_ := ptr; control_ptr_ := Some a |} in
    let w := {| weak_element_ptr_ := ptr; weak_control_ptr_ := Some a |} in
    SharedPtr_ctor_ptr_del ptr del s = Ok h s1 ∧
    WeakPtr_from_shared h s1 = Ok w s2 ∧
    log s2 = log s1 ∧
    SharedPtr_use_count h s2 = Ok 1 s2 ∧
    SharedPtr_dtor h s2 = Ok {| element_ptr_ := ptr; control_ptr_ := None |} s3 ∧
    heap s3 !! a
    = Some (Constructed {| shared_owners_ := 0; shared_weak_owners_ := 1;
                           derived := SharedPtrPointer ptr None (Some std_allocator) |}) ∧
    log s3 = log s ++ [EvAllocate std_allocator a;
                       EvZeroShared a; EvDelete del ptr; EvDeleterDtor del] ∧
    WeakPtr_expired w s3 = Ok true s3 ∧
    WeakPtr_dtor w s3
    = Ok {| weak_element_ptr_ := ptr; weak_control_ptr_ := None |} s4 ∧
    heap s4 = heap s ∧
    log s4 = log s3 ++ [EvZeroSharedAndWeak a; EvAllocDtor std_allocator;
                        EvDeallocate std_allocator a].
Proof.
  intros Hb.
  destruct (allocate_Ok std_allocator s Hb) as (s0 & E0 & Hh0 & Hl0 & _).
  pose proof (SharedPtr_ctor_ptr_del_Ok s s0 ptr del E0) as E1.
  set (a := fresh (dom (heap s))) in *. set (s1 := set_heap _ s0) in E1.
  destruct (observed_block_life s1 a
              (SharedPtrPointer ptr (Some del) (Some std_allocator)) std_allocator
              ptr (heap s0) eq_refl eq_refl eq_refl)
    as (s2 & s3 & s4 & E2 & Hl2 & Hu2 & E3 & Hh3 & Hl3 & Hx3 & E4 & Hh4 & Hl4).
  exists s1, s2, s3, s4. cbv zeta.
  split; [exact E1|]. split; [exact E2|]. split; [exact Hl2|]. split; [exact Hu2|].
  split; [exact E3|].
  split; [rewrite Hh3; apply lookup_insert_eq|].
  split; [rewrite Hl3; simpl; rewrite Hl0, <- app_assoc; reflexivity|].
  split; [exact Hx3|]. split; [exact E4|].
  split; [rewrite Hh4; apply heap_restored; exact Hh0|exact Hl4].
Qed.

(** X6.  The same for a handle made by [AllocateShared]: when the handle
    goes while an observer is left, the element is destroyed in place and the
    one block that holds it stays allocated, with the stored allocator, until
    the observer goes. *)
Theorem observer_keeps_combined_block {Args : Type} (alloc : Alloc)
    (construct : Args → option T) (args : Args) (v : T) s :
  head (budget s) ≠ Some false →
  construct args = Some v →
  ∃ s1 s2 s3 s4,
    let a := fresh (dom (heap s)) in
    let h := {| element_ptr_ := Some (inplace a); control_ptr_ := Some a |} in
    let w := {| weak_element_ptr_ := Some (inplace a); weak_control_ptr_ := Some a |} in
    AllocateShared alloc construct args s = Ok h s1 ∧
    WeakPtr_from_shared h s1 = Ok w s2 ∧
    get_elem s2 a = Some v ∧
    SharedPtr_dtor h s2
    = Ok {| element_ptr_ := Some (inplace a); control_ptr_ := None |} s3 ∧
    heap s3 !! a
    = Some (Constructed {| shared_owners_ := 0; shared_weak_owners_ := 1;
                           derived := SharedPtrEmplacer (Some alloc) None |}) ∧
    get_elem s3 a = None ∧
    log s3 = log s ++ [EvAllocate alloc a; EvConstruct a;
                       EvZeroShared a; EvDestroy a] ∧
    WeakPtr_expired w s3 = Ok true s3 ∧
    WeakPtr_dtor w s3
    = Ok {| weak_element_ptr_ := Some (inplace a); weak_control_ptr_ := None |} s4 ∧
    heap s4 = heap s ∧
    log s4 = log s3 ++ [EvZeroSharedAndWeak a; EvAllocDtor alloc;
                        EvDeallocate alloc a].
Proof.
  intros Hb Hv.
  destruct (allocate_Ok alloc s Hb) as (s0 & E0 & Hh0 & Hl0 & _).
  set (a := fresh (dom (heap s))) in *.
  pose proof (AllocateShared_Ok alloc construct args v s s0 a E0 Hv) as E1.
  set (s1 := set_heap _ _) in E1.
  destruct (observed_block_life s1 a (SharedPtrEmplacer (Some alloc) (Some v)) alloc
              (Some (inplace a)) (heap s0))
    as (s2 & s3 & s4 & E2 & Hl2 & Hu2 & E3 & Hh3 & Hl3 & Hx3 & E4 & Hh4 & Hl4);
    try reflexivity.
  { simpl. rewrite !insert_insert_eq. reflexivity. }
  exists s1, s2, s3, s4. cbv zeta.
  split; [exact E1|]. split; [exact E2|].
  split.
  { unfold WeakPtr_from_shared in E2. simpl in E2.
    assert (Hh1 : heap s1 !! a
                  = Some (Constructed {| shared_owners_ := 1; shared_weak_owners_ := 0;
                       derived := SharedPtrEmplacer (Some alloc) (Some v) |}))
      by apply lookup_insert_eq.
    rewrite (bind_Ok _ _ _ _ _ (arrow_Ok a _ add_weak s1 Hh1)) in E2.
    injection E2 as <-. unfold get_elem. simpl. rewrite lookup_insert_eq. reflexivity. }
  split; [exact E3|].
  split; [rewrite Hh3; apply lookup_insert_eq|].
  split; [unfold get_elem; rewrite Hh3, lookup_insert_eq; reflexivity|].
  split; [rewrite Hl3; simpl; rewrite Hl0, <- !app_assoc; reflexivity|].
  split; [exact Hx3|]. split; [exact E4|].
  split; [rewrite Hh4; apply heap_restored; exact Hh0|exact Hl4].
Qed.

End Observed.

(** ** Methods that do not look at the handles in scope *)

Section Frame.

Context {T : Type}.

Implicit Types (s : State T) (a : addr).

Lemma storage_only_ret {A} (x : A) : storage_only (T := T) (ret x).
Proof. intros lo lw s. reflexivity. Qed.

Lemma storage_only_bind {A B} (m : M T A) (k : A → M T B) :
  storage_only m → (∀ x, storage_only (k x)) → storage_only (bind m k).
Proof.
  intros Hm Hk lo lw s. unfold bind. rewrite Hm.
  destruct (m s) as [x s'| |]; simpl; [apply Hk|reflexivity|reflexivity].
Qed.

Lemma storage_only_undefined {A} : storage_only (T := T) (undefined (A := A)).
Proof. intros lo lw s. reflexivity. Qed.

Lemma storage_only_emit (e : event) : storage_only (T := T) (emit e).
Proof. intros lo lw s. reflexivity. Qed.

Lemma storage_only_get_block a : storage_only (T := T) (get_block a).
Proof.
  intros lo lw s. unfold get_block. simpl.
  destruct (heap s !! a) as [[|c]|]; reflexivity.
Qed.

Lemma storage_only_put_block a (c : ControlBlock T) : storage_only (put_block a c).
Proof. intros lo lw s. reflexivity. Qed.

Lemma storage_only_deallocate (al : Alloc) a : storage_only (T := T) (deallocate al a).
Proof.
  intros lo lw s. unfold deallocate. simpl.
  destruct (heap s !! a); reflexivity.
Qed.

Lemma storage_only_arrow a (f : ControlBlock T → ControlBlock T) :
  storage_only (a ->* f).
Proof.
  apply storage_only_bind; [apply storage_only_get_block|].
  intros c. apply storage_only_put_block.
Qed.

Lemma storage_only_use_count a : storage_only (T := T) (use_count a).
Proof.
  apply storage_only_bind; [apply storage_only_get_block|].
  intros c. apply storage_only_ret.
Qed.

Ltac storage_only_tac :=
  repeat first
    [ apply storage_only_ret
    | apply storage_only_undefined
    | apply storage_only_emit
    | apply storage_only_get_block
    | apply storage_only_put_block
    | apply storage_only_deallocate
    | apply storage_only_arrow
    | apply storage_only_use_count
    | apply storage_only_bind; [|intros ?]
    | match goal with
      | |- storage_only (match ?x with _ => _ end) => destruct x
      | |- storage_only (if ?x then _ else _) => destruct x
      end ].

Lemma storage_only_zero_shared a : storage_only (T := T) (zero_shared a).
Proof. unfold zero_shared. storage_only_tac. Qed.

Lemma storage_only_zero_shared_and_weak a :
  storage_only (T := T) (zero_shared_and_weak a).
Proof. unfold zero_shared_and_weak. storage_only_tac. Qed.

Lemma storage_only_release_shared a : storage_only (T := T) (release_shared a).
Proof.
  unfold release_shared. storage_only_tac.
Qed.

Lemma storage_only_release_weak a : storage_only (T := T) (release_weak a).
Proof.
  unfold release_weak. storage_only_tac.
Qed.

Lemma storage_only_SharedPtr_copy (p : SharedPtr) :
  storage_only (T := T) (SharedPtr_copy p).
Proof. unfold SharedPtr_copy. storage_only_tac. Qed.

Lemma storage_only_SharedPtr_dtor (p : SharedPtr) :
  storage_only (T := T) (SharedPtr_dtor p).
Proof.
  unfold SharedPtr_dtor. storage_only_tac.
Qed.

Lemma storage_only_WeakPtr_copy (w : WeakPtr) :
  storage_only (T := T) (WeakPtr_copy w).
Proof. unfold WeakPtr_copy. storage_only_tac. Qed.

Lemma storage_only_WeakPtr_from_shared (p : SharedPtr) :
  storage_only (T := T) (WeakPtr_from_shared p).
Proof. unfold WeakPtr_from_shared. storage_only_tac. Qed.

Lemma storage_only_WeakPtr_dtor (w : WeakPtr) :
  storage_only (T := T) (WeakPtr_dtor w).
Proof.
  unfold WeakPtr_dtor. storage_only_tac.
Qed.

Lemma with_store_same s : with_store (owning s) (observing s) s = s.
Proof. destruct s; reflexivity. Qed.

(** Such a method returns with the handles in scope it was called with. *)
Lemma storage_only_store {A} (m : M T A) s (x : A) s' :
  storage_only m → m s = Ok x s' →
  owning s' = owning s ∧ observing s' = observing s.
Proof.
  intros Hm E. specialize (Hm (owning s) (observing s) s).
  rewrite with_store_same, E in Hm. simpl in Hm. injection Hm as Hs.
  rewrite Hs. split; reflexivity.
Qed.

(** It can be run before or after the handles in scope are replaced. *)
Lemma storage_only_set_owning {A} (m : M T A) s (l : list (option SharedPtr)) :
  storage_only m →
  m (set_owning l s) = outcome_map (set_owning l) (m s).
Proof.
  intros Hm. pose proof (Hm l (observing s) s) as E.
  assert (E1 : with_store l (observing s) s = set_owning l s)
    by (destruct s; reflexivity).
  rewrite E1 in E. rewrite E.
  destruct (m s) as [x s'| |] eqn:E2; simpl; try reflexivity.
  - destruct (storage_only_store m s x s' Hm E2) as [_ Hb].
    f_equal. unfold with_store. rewrite <- Hb. destruct s'; reflexivity.
  - f_equal. (* the state an exception leaves in *)
    specialize (Hm (owning s) (observing s) s).
    rewrite with_store_same, E2 in Hm. simpl in Hm. injection Hm as Hs.
    rewrite Hs. destruct s0; reflexivity.
Qed.

Lemma storage_only_set_observing {A} (m : M T A) s (l : list (option WeakPtr)) :
  storage_only m →
  m (set_observing l s) = outcome_map (set_observing l) (m s).
Proof.
  intros Hm. pose proof (Hm (owning s) l s) as E.
  assert (E1 : with_store (owning s) l s = set_observing l s)
    by (destruct s; reflexivity).
  rewrite E1 in E. rewrite E.
  destruct (m s) as [x s'| |] eqn:E2; simpl; try reflexivity.
  - destruct (storage_only_store m s x s' Hm E2) as [Ho _].
    f_equal. unfold with_store. rewrite <- Ho. destruct s'; reflexivity.
  - f_equal.
    specialize (Hm (owning s) (observing s) s).
    rewrite with_store_same, E2 in Hm. simpl in Hm. injection Hm as Hs.
    rewrite Hs. destruct s0; reflexivity.
Qed.

(** What the copy constructors and the destructors return. *)
Lemma SharedPtr_copy_value (p q : SharedPtr) s s' :
  SharedPtr_copy p s = Ok q s' → q = p.
Proof.
  unfold SharedPtr_copy. rewrite bind_eq.
  destruct (match control_ptr_ p with Some a => a ->* add_shared | None => ret tt end s);
    intros E; inversion E. destruct p; reflexivity.
Qed.

Lemma WeakPtr_copy_value (w q : WeakPtr) s s' :
  WeakPtr_copy w s = Ok q s' → q = w.
Proof.
  unfold WeakPtr_copy. rewrite bind_eq.
  destruct (match weak_control_ptr_ w with Some a => a ->* add_weak | None => ret tt end s);
    intros E; inversion E. destruct w; reflexivity.
Qed.

End Frame.

(** ** What no statement does *)

Section Respects.

Context {T : Type}.

Variable R : State T → State T → Prop.

Hypothesis R_refl : ∀ s, R s s.
Hypothesis R_trans : ∀ s1 s2 s3, R s1 s2 → R s2 s3 → R s1 s3.

Lemma respects_ret {A} (x : A) : respects R (ret x).
Proof. intros s. apply R_refl. Qed.

Lemma respects_undefined {A} : respects R (undefined (A := A)).
Proof. intros s. exact I. Qed.

Lemma respects_bind {A B} (m : M T A) (k : A → M T B) :
  respects R m → (∀ x, respects R (k x)) → respects R (bind m k).
Proof.
  intros Hm Hk s. unfold bind. specialize (Hm s).
  destruct (m s) as [x s1| |]; [|contradiction|exact I].
  specialize (Hk x s1). destruct (k x s1) as [y s2| |]; eauto.
Qed.

End Respects.

Section FreesOnly.

Context {T : Type}.

Implicit Types (s : State T) (a : addr).

Lemma frees_only_intro s s' (evs : list event) :
  log s' = log s ++ evs →
  count_events is_allocate evs = 0 →
  budget s' = budget s →
  (∀ a, heap s !! a = None → heap s' !! a = None) →
  (∀ a, 0 < count_events (is_deallocate a) evs → heap s' !! a = None) →
  frees_only s s'.
Proof.
  intros Hl Ha Hb Hn Hd. split; [exists evs; auto|]. split; [exact Hb|].
  split; [exact Hn|]. intros a. unfold deallocated.
  rewrite Hl, count_events_app. intros H. apply Hd. lia.
Qed.

Lemma frees_only_same s s' :
  heap s' = heap s → log s' = log s → budget s' = budget s → frees_only s s'.
Proof.
  intros Hh Hl Hb. apply (frees_only_intro s s' []); auto.
  - rewrite app_nil_r. exact Hl.
  - intros a. rewrite Hh. auto.
  - simpl. lia.
Qed.

Lemma frees_only_refl s : frees_only s s.
Proof. apply frees_only_same; reflexivity. Qed.

Lemma frees_only_trans s1 s2 s3 :
  frees_only s1 s2 → frees_only s2 s3 → frees_only s1 s3.
Proof.
  intros ((e1 & Hl1 & Ha1) & Hb1 & Hn1 & Hd1) ((e2 & Hl2 & Ha2) & Hb2 & Hn2 & Hd2).
  split; [|split; [congruence|split; [auto|]]].
  - exists (e1 ++ e2). rewrite Hl2, Hl1, app_assoc, count_events_app. split; [reflexivity|lia].
  - intros a H.
    destruct (Z_lt_le_dec (deallocated a s1) (deallocated a s2)); [auto|].
    apply Hd2. lia.
Qed.

Lemma fo_ret {A} (x : A) : respects (T := T) frees_only (ret x).
Proof. apply respects_ret, frees_only_refl. Qed.

Lemma fo_bind {A B} (m : M T A) (k : A → M T B) :
  respects frees_only m → (∀ x, respects frees_only (k x)) →
  respects frees_only (bind m k).
Proof. apply respects_bind, frees_only_trans. Qed.

Lemma fo_get_block a : respects (T := T) frees_only (get_block a).
Proof.
  intros s. unfold get_block.
  destruct (heap s !! a) as [[|c]|]; try exact I. apply frees_only_refl.
Qed.

Lemma fo_use_count a : respects (T := T) frees_only (use_count a).
Proof.
  apply fo_bind; [apply fo_get_block|]. intros c. apply fo_ret.
Qed.

Lemma fo_arrow a (f : ControlBlock T → ControlBlock T) :
  respects frees_only (a ->* f).
Proof.
  intros s. unfold arrow, bind, get_block.
  destruct (heap s !! a) as [[|c]|] eqn:E; try exact I. simpl.
  apply (frees_only_intro _ _ []); simpl; try reflexivity.
  - rewrite app_nil_r. reflexivity.
  - intros a' H. rewrite lookup_insert_ne; [exact H|congruence].
  - intros a'. lia.
Qed.

Lemma fo_zero_shared a : respects (T := T) frees_only (zero_shared a).
Proof.
  intros s. unfold zero_shared, bind, get_block.
  destruct (heap s !! a) as [[|c]|] eqn:E; try exact I. simpl.
  destruct (derived c) as [v [del|] al|[al|] [el|]]; simpl; try exact I.
  - apply (frees_only_intro _ _ [EvZeroShared a; EvDelete del v; EvDeleterDtor del]);
      simpl; rewrite <- ?app_assoc; try reflexivity.
    + intros a' H. rewrite lookup_insert_ne; [exact H|congruence].
    + intros a'. lia.
  - apply (frees_only_intro _ _ [EvZeroShared a; EvDestroy a]);
      simpl; rewrite <- ?app_assoc; try reflexivity.
    + intros a' H. rewrite lookup_insert_ne; [exact H|congruence].
    + intros a'. lia.
Qed.

Lemma fo_zero_shared_and_weak a :
  respects (T := T) frees_only (zero_shared_and_weak a).
Proof.
  assert (Hfree : ∀ s (al : Alloc),
    frees_only s
      (set_log (((log s ++ [EvZeroSharedAndWeak a]) ++ [EvAllocDtor al])
                ++ [EvDeallocate al a])
         (set_heap (delete a (heap s)) s))).
  { intros s al.
    apply (frees_only_intro _ _ [EvZeroSharedAndWeak a; EvAllocDtor al; EvDeallocate al a]);
      simpl; rewrite <- ?app_assoc; try reflexivity.
    - intros a' H. destruct (decide (a' = a)) as [Heq|Hne].
      + rewrite Heq. apply lookup_delete_eq.
      + rewrite lookup_delete_ne by congruence. exact H.
    - intros a' H. destruct (decide (a = a')) as [Heq|Hne].
      + rewrite <- Heq. apply lookup_delete_eq.
      + rewrite bool_decide_eq_false_2 in H by exact Hne. lia. }
  intros s. unfold zero_shared_and_weak, bind, get_block.
  destruct (heap s !! a) as [[|c]|] eqn:E; try exact I. simpl.
  destruct (derived c) as [v del [al|]|[al|] el]; simpl; try exact I;
    unfold deallocate; simpl; rewrite E; exact (Hfree s al).
Qed.

Lemma fo_read_shared i : respects (T := T) frees_only (read_shared i).
Proof.
  intros s. unfold read_shared.
  destruct (owning s !! i) as [[p|]|]; try exact I. apply frees_only_refl.
Qed.

Lemma fo_write_shared i p : respects (T := T) frees_only (write_shared i p).
Proof.
  intros s. unfold write_shared.
  destruct (owning s !! i) as [[q|]|]; try exact I. apply frees_only_same; reflexivity.
Qed.

Lemma fo_end_shared i : respects (T := T) frees_only (end_shared i).
Proof.
  intros s. unfold end_shared.
  destruct (owning s !! i) as [[q|]|]; try exact I. apply frees_only_same; reflexivity.
Qed.

Lemma fo_declare_shared p : respects (T := T) frees_only (declare_shared p).
Proof. intros s. apply frees_only_same; reflexivity. Qed.

Lemma fo_read_weak i : respects (T := T) frees_only (read_weak i).
Proof.
  intros s. unfold read_weak.
  destruct (observing s !! i) as [[p|]|]; try exact I. apply frees_only_refl.
Qed.

Lemma fo_write_weak i w : respects (T := T) frees_only (write_weak i w).
Proof.
  intros s. unfold write_weak.
  destruct (observing s !! i) as [[q|]|]; try exact I. apply frees_only_same; reflexivity.
Qed.

Lemma fo_end_weak i : respects (T := T) frees_only (end_weak i).
Proof.
  intros s. unfold end_weak.
  destruct (observing s !! i) as [[q|]|]; try exact I. apply frees_only_same; reflexivity.
Qed.

Lemma fo_declare_weak w : respects (T := T) frees_only (declare_weak w).
Proof. intros s. apply frees_only_same; reflexivity. Qed.

Ltac fo_tac :=
  repeat first
    [ apply fo_ret
    | apply fo_get_block
    | apply fo_use_count
    | apply fo_arrow
    | apply fo_zero_shared
    | apply fo_zero_shared_and_weak
    | apply fo_read_shared
    | apply fo_write_shared
    | apply fo_end_shared
    | apply fo_declare_shared
    | apply fo_read_weak
    | apply fo_write_weak
    | apply fo_end_weak
    | apply fo_declare_weak
    | apply fo_bind; [|intros ?]
    | match goal with
      | |- respects _ (match ?x with _ => _ end) => destruct x
      | |- respects _ (if ?x then _ else _) => destruct x
      end ].

Lemma fo_release_shared a : respects (T := T) frees_only (release_shared a).
Proof. unfold release_shared. fo_tac. Qed.

Lemma fo_release_weak a : respects (T := T) frees_only (release_weak a).
Proof. unfold release_weak. fo_tac. Qed.

Lemma fo_SharedPtr_dtor p : respects (T := T) frees_only (SharedPtr_dtor p).
Proof.
  unfold SharedPtr_dtor. fo_tac;
    first [apply fo_release_shared | apply fo_release_weak].
Qed.

Lemma fo_WeakPtr_dtor w : respects (T := T) frees_only (WeakPtr_dtor w).
Proof. unfold WeakPtr_dtor. fo_tac; apply fo_release_weak. Qed.

Lemma fo_WeakPtr_copy w : respects (T := T) frees_only (WeakPtr_copy w).
Proof. unfold WeakPtr_copy. fo_tac. Qed.

Lemma fo_WeakPtr_from_shared p : respects (T := T) frees_only (WeakPtr_from_shared p).
Proof. unfold WeakPtr_from_shared. fo_tac. Qed.

Lemma fo_statement (o : op) : respects (T := T) frees_only (statement o).
Proof.
  destruct o; unfold statement, SharedPtr_assign, SharedPtr_move_assign,
    SharedPtr_reset, SharedPtr_ctor, SharedPtr_copy, SharedPtr_move, SharedPtr_swap,
    WeakPtr_assign, WeakPtr_move_assign, WeakPtr_ctor, WeakPtr_copy, WeakPtr_move,
    WeakPtr_swap, WeakPtr_from_shared, WeakPtr_lock;
    fo_tac; first [apply fo_SharedPtr_dtor | apply fo_WeakPtr_dtor].
Qed.

Lemma fo_step (o : op) : respects (T := T) frees_only (step o).
Proof.
  intros s. unfold step. destruct (well_scoped o s).
  - apply fo_statement.
  - apply frees_only_refl.
Qed.

Lemma fo_run (ops : list op) : respects (T := T) frees_only (run ops).
Proof.
  induction ops as [|o ops IH]; simpl.
  - apply fo_ret.
  - apply fo_bind; [apply fo_step|]. intros _. exact IH.
Qed.

(** The destructors return or are undefined; they do not throw. *)
Lemma SharedPtr_dtor_no_throw p s s' : SharedPtr_dtor p s ≠ Throw s'.
Proof.
  intros E. pose proof (fo_SharedPtr_dtor p s) as H. rewrite E in H. exact H.
Qed.

Lemma WeakPtr_dtor_no_throw w s s' : WeakPtr_dtor w s ≠ Throw s'.
Proof.
  intros E. pose proof (fo_WeakPtr_dtor w s) as H. rewrite E in H. exact H.
Qed.

(** X7.  No program of constructions from handles, assignments, resets,
    [lock()] calls and destructions throws, asks an allocator for storage or
    brings an address into use, in any state; the storage it deallocates is
    out of use afterwards.  From a consistent state a program without
    [lock()] returns, so that this is a statement about the state it returns
    in. *)
Theorem programs_only_give_storage_back (ops : list op) :
  respects (T := T) frees_only (run ops) ∧
  ∀ s, consistent s → lock_free ops → in_range s (length ops) →
       ∃ s', run ops s = Ok tt s' ∧ frees_only s s'.
Proof.
  split; [apply fo_run|].
  intros s Hc Hlf Hr. destruct (run_consistent ops s Hc Hlf Hr) as (s' & E & _).
  exists s'. split; [exact E|]. pose proof (fo_run ops s) as H.
  rewrite E in H. exact H.
Qed.

(** X8.  No leak and no dangling handle: after a program without [lock()]
    from a consistent state, the storage of a block that a handle referenced
    at the start is out of use exactly when no handle in scope references the
    block any more. *)
Theorem block_in_use_iff_referenced (ops : list op) s :
  consistent s → lock_free ops → in_range s (length ops) →
  ∃ s', run ops s = Ok tt s' ∧
        ∀ a, 1 ≤ owners a (owning s) + observers a (observing s) →
             (heap s' !! a = None ↔
              owners a (owning s') = 0 ∧ observers a (observing s') = 0).
Proof.
  intros Hc Hlf Hr.
  destruct (run_inv _ _ ops s 0 Hlf (consistent_Inv s Hc) (in_range_0 _ _ Hr))
    as (s' & E & HI & _).
  exists s'. split; [exact E|]. intros a Ha.
  pose proof (fo_run ops s) as Hfo. rewrite E in Hfo.
  destruct Hfo as (_ & _ & _ & Hd).
  destruct (HI a) as [Hcell _ Hdd]. simpl in Hdd.
  unfold strong_refs, weak_refs_total in *. rewrite !refs_null, !Z.add_0_r in *.
  pose proof (owners_nonneg a (owning s)).
  pose proof (observers_nonneg a (observing s)).
  split.
  - intros Hn. rewrite Hn in Hcell. exact Hcell.
  - intros [Ho Hw]. apply Hd. rewrite Ho, Hw in Hdd. simpl in Hdd.
    destruct (Z.eqb_spec (owners a (owning s)) 0);
      destruct (Z.eqb_spec (observers a (observing s)) 0); simpl in Hdd; lia.
Qed.

End FreesOnly.

(** ** Copies that come and go *)

Section Copies.

Context {T : Type}.

Implicit Types (s : State T) (a : addr).

Lemma set_heap_same s : set_heap (heap s) s = s.
Proof. destruct s; reflexivity. Qed.

Lemma add_shared_back (c : ControlBlock T) :
  0 ≤ shared_owners_ c < SIZE_MAX →
  set_shared_owners (shared_owners_ (add_shared c) - 1) (add_shared c) = c.
Proof.
  intros H. destruct c as [n m d]. unfold add_shared, set_shared_owners. simpl in *.
  rewrite wrap_small by (unfold SIZE_MAX in H; lia). f_equal. lia.
Qed.

Lemma add_weak_back (c : ControlBlock T) :
  0 ≤ shared_weak_owners_ c < SIZE_MAX →
  set_shared_weak_owners (shared_weak_owners_ (add_weak c) - 1) (add_weak c) = c.
Proof.
  intros H. destruct c as [n m d]. unfold add_weak, set_shared_weak_owners. simpl in *.
  rewrite wrap_small by (unfold SIZE_MAX in H; lia). f_equal. lia.
Qed.

Lemma block_put_back s a (c c1 : ControlBlock T) :
  heap s !! a = Some (Constructed c) →
  set_heap (<[a := Constructed c]>
              (heap (set_heap (<[a := Constructed c1]> (heap s)) s)))
    (set_heap (<[a := Constructed c1]> (heap s)) s) = s.
Proof.
  intros H. unfold set_heap. simpl. rewrite insert_insert_eq, (insert_id _ _ _ H).
  destruct s; reflexivity.
Qed.

(** X9.  [{ SharedPtr<T> q(p); }] for a handle [p] in its invariant: the
    copy raises the strong count by one and its destructor takes it back;
    the state after the destructor is the state before the copy, so the
    managed object is not touched. *)
Theorem copy_then_destructor_restores (p : SharedPtr) s :
  handle_ok s p →
  ∃ s1, SharedPtr_copy p s = Ok p s1 ∧
        (∀ a n, control_ptr_ p = Some a → strong_count s a = Some n →
                strong_count s1 a = Some (n + 1)) ∧
        SharedPtr_dtor p s1
        = Ok {| element_ptr_ := element_ptr_ p; control_ptr_ := None |} s.
Proof.
  destruct p as [e [a|]]; unfold handle_ok; simpl.
  - intros (c & Hh & Hr).
    exists (set_heap (<[a := Constructed (add_shared c)]> (heap s)) s).
    set (s1 := set_heap _ s).
    assert (Hh1 : heap s1 !! a = Some (Constructed (add_shared c)))
      by apply lookup_insert_eq.
    assert (Hw : shared_owners_ (add_shared c) = shared_owners_ c + 1).
    { destruct c as [n m d]. simpl in *. apply wrap_small. unfold SIZE_MAX in Hr. lia. }
    split; [|split].
    + unfold SharedPtr_copy. simpl control_ptr_. cbv iota.
      mstep (arrow_Ok a c add_shared s Hh). reflexivity.
    + intros a' n [= <-]. unfold strong_count. rewrite Hh, Hh1.
      intros [= <-]. rewrite Hw. reflexivity.
    + rewrite (SharedPtr_dtor_not_last a (add_shared c) e s1 Hh1) by lia.
      rewrite add_shared_back by lia. subst s1.
      rewrite (block_put_back s a c _ Hh). reflexivity.
  - intros _. exists s. split; [reflexivity|]. split; [|reflexivity].
    intros a n [=].
Qed.

(** X10.  [{ WeakPtr<T> w(h); }] for a handle [h] whose block has an
    owner: between the constructor and the destructor [h.use_count()] is what
    it was and [w.expired()] is false, and the state after the destructor is
    the state before the constructor. *)
Theorem observer_then_destructor_restores (e : option object) a
    (c : ControlBlock T) s :
  heap s !! a = Some (Constructed c) →
  1 ≤ shared_owners_ c →
  0 ≤ shared_weak_owners_ c < SIZE_MAX →
  ∃ s1,
    WeakPtr_from_shared {| element_ptr_ := e; control_ptr_ := Some a |} s
    = Ok {| weak_element_ptr_ := e; weak_control_ptr_ := Some a |} s1 ∧
    SharedPtr_use_count {| element_ptr_ := e; control_ptr_ := Some a |} s1
    = Ok (shared_owners_ c) s1 ∧
    WeakPtr_expired {| weak_element_ptr_ := e; weak_control_ptr_ := Some a |} s1
    = Ok false s1 ∧
    WeakPtr_dtor {| weak_element_ptr_ := e; weak_control_ptr_ := Some a |} s1
    = Ok {| weak_element_ptr_ := e; weak_control_ptr_ := None |} s.
Proof.
  intros Hh Hs Hw.
  exists (set_heap (<[a := Constructed (add_weak c)]> (heap s)) s).
  set (s1 := set_heap _ s).
  assert (Hh1 : heap s1 !! a = Some (Constructed (add_weak c)))
    by apply lookup_insert_eq.
  assert (Hw1 : shared_weak_owners_ (add_weak c) = shared_weak_owners_ c + 1).
  { destruct c as [n m d]. simpl in *. apply wrap_small. unfold SIZE_MAX in Hw. lia. }
  assert (Hs1 : shared_owners_ (add_weak c) = shared_owners_ c)
    by (destruct c; reflexivity).
  split; [|split; [|split]].
  - unfold WeakPtr_from_shared. simpl control_ptr_. cbv iota.
    mstep (arrow_Ok a c add_weak s Hh). reflexivity.
  - unfold SharedPtr_use_count. simpl. rewrite (use_count_Ok _ _ _ Hh1), Hs1.
    reflexivity.
  - unfold WeakPtr_expired. cbv beta iota delta [weak_control_ptr_].
    rewrite bind_eq, (use_count_Ok _ _ _ Hh1), Hs1. cbv beta iota. unfold ret.
    f_equal. apply Z.eqb_neq. lia.
  - rewrite (WeakPtr_dtor_not_last a (add_weak c) e s1 Hh1) by lia.
    rewrite add_weak_back by lia. subst s1.
    rewrite (block_put_back s a c _ Hh). reflexivity.
Qed.

(** X11.  [{ WeakPtr<T> v(w); }] for an observer [w] of a block, expired or
    not: the copy raises the weak count by one, and the state after its
    destructor is the state before the copy: the block is not freed under
    [w]. *)
Theorem observer_copy_then_destructor_restores (e : option object) a
    (c : ControlBlock T) s :
  heap s !! a = Some (Constructed c) →
  1 ≤ shared_weak_owners_ c < SIZE_MAX →
  ∃ s1,
    WeakPtr_copy {| weak_element_ptr_ := e; weak_control_ptr_ := Some a |} s
    = Ok {| weak_element_ptr_ := e; weak_control_ptr_ := Some a |} s1 ∧
    heap s1 !! a
    = Some (Constructed {| shared_owners_ := shared_owners_ c;
                           shared_weak_owners_ := shared_weak_owners_ c + 1;
                           derived := derived c |}) ∧
    WeakPtr_dtor {| weak_element_ptr_ := e; weak_control_ptr_ := Some a |} s1
    = Ok {| weak_element_ptr_ := e; weak_control_ptr_ := None |} s.
Proof.
  intros Hh Hw.
  exists (set_heap (<[a := Constructed (add_weak c)]> (heap s)) s).
  set (s1 := set_heap _ s).
  assert (Hh1 : heap s1 !! a = Some (Constructed (add_weak c)))
    by apply lookup_insert_eq.
  assert (Hw1 : shared_weak_owners_ (add_weak c) = shared_weak_owners_ c + 1).
  { destruct c as [n m d]. simpl in *. apply wrap_small. unfold SIZE_MAX in Hw. lia. }
  split; [|split].
  - unfold WeakPtr_copy. cbv beta iota delta [weak_control_ptr_].
    mstep (arrow_Ok a c add_weak s Hh). reflexivity.
  - rewrite Hh1. do 2 f_equal. destruct c as [n m d]. unfold add_weak in *.
    simpl in *. rewrite Hw1. reflexivity.
  - rewrite (WeakPtr_dtor_not_last a (add_weak c) e s1 Hh1) by lia.
    rewrite add_weak_back by lia. subst s1.
    rewrite (block_put_back s a c _ Hh). reflexivity.
Qed.

End Copies.

(** ** Assignment, [reset()] and move construction *)

Section Assignments.

Context {T : Type}.

Implicit Types (s : State T) (a : addr).

(** X12.  [h.reset()] is the destructor run on the members of [h], after
    which [h] is empty: the same value, the same state, and undefined exactly
    when the destructor is. *)
Theorem reset_is_destructor_then_empty (i : nat) (p : SharedPtr) s :
  owning s !! i = Some (Some p) →
  SharedPtr_reset i s
  = (SharedPtr_dtor p ;;
     write_shared i {| element_ptr_ := None; control_ptr_ := None |}) s.
Proof.
  intros Hp. unfold SharedPtr_reset, SharedPtr_ctor, SharedPtr_swap.
  rewrite bind_eq. unfold ret at 1. next.
  rewrite bind_eq, bind_eq, (read_shared_Ok _ _ _ Hp). next.
  rewrite bind_eq, (write_shared_Ok _ _ _ _ Hp). next. unfold ret at 1.
  rewrite !bind_eq.
  rewrite (storage_only_set_owning _ _ _ (storage_only_SharedPtr_dtor p)).
  destruct (SharedPtr_dtor p s) as [q s1| |] eqn:E; simpl.
  - destruct (storage_only_store _ _ _ _ (storage_only_SharedPtr_dtor p) E) as [Ho _].
    assert (Hp1 : owning s1 !! i = Some (Some p)) by (rewrite Ho; exact Hp).
    rewrite (write_shared_Ok _ _ _ _ Hp1), Ho. reflexivity.
  - exfalso. exact (SharedPtr_dtor_no_throw _ _ _ E).
  - reflexivity.
Qed.

(** Where the assignments leave the handles in scope. *)
Lemma SharedPtr_assign_store (dst src : nat) (pd ps : SharedPtr) s s' :
  owning s !! dst = Some (Some pd) →
  owning s !! src = Some (Some ps) →
  SharedPtr_assign dst src s = Ok tt s' →
  owning s' = <[dst := Some ps]> (owning s) ∧ observing s' = observing s.
Proof.
  intros Hd Hs. unfold SharedPtr_assign.
  rewrite bind_eq, (read_shared_Ok _ _ _ Hs). next. rewrite bind_eq.
  destruct (SharedPtr_copy ps s) as [t s1| |] eqn:E1; try discriminate.
  pose proof (SharedPtr_copy_value _ _ _ _ E1) as ->.
  destruct (storage_only_store _ _ _ _ (storage_only_SharedPtr_copy ps) E1)
    as [Ho1 Hb1].
  assert (Hd1 : owning s1 !! dst = Some (Some pd)) by (rewrite Ho1; exact Hd).
  unfold SharedPtr_swap.
  rewrite bind_eq, bind_eq, (read_shared_Ok _ _ _ Hd1). next.
  rewrite bind_eq, (write_shared_Ok _ _ _ _ Hd1). next. unfold ret at 1.
  rewrite bind_eq.
  destruct (SharedPtr_dtor pd _) as [q s3| |] eqn:E3; try discriminate.
  destruct (storage_only_store _ _ _ _ (storage_only_SharedPtr_dtor pd) E3)
    as [Ho3 Hb3].
  unfold ret. intros [= <-]. rewrite Ho3, Hb3. simpl. rewrite Ho1, Hb1. auto.
Qed.

Lemma SharedPtr_move_assign_store (dst src : nat) (pd ps : SharedPtr) s s' :
  dst ≠ src →
  owning s !! dst = Some (Some pd) →
  owning s !! src = Some (Some ps) →
  SharedPtr_move_assign dst src s = Ok tt s' →
  owning s'
  = <[dst := Some ps]>
      (<[src := Some {| element_ptr_ := None; control_ptr_ := None |}]> (owning s)) ∧
  observing s' = observing s.
Proof.
  intros Hne Hd Hs. unfold SharedPtr_move_assign, SharedPtr_move.
  rewrite bind_eq, bind_eq, (read_shared_Ok _ _ _ Hs). next.
  rewrite bind_eq, (write_shared_Ok _ _ _ _ Hs). next. unfold ret at 1.
  set (s1 := set_owning _ s).
  assert (Hd1 : owning s1 !! dst = Some (Some pd)).
  { simpl. rewrite list_lookup_insert_ne by congruence. exact Hd. }
  unfold SharedPtr_swap.
  rewrite bind_eq, bind_eq, (read_shared_Ok _ _ _ Hd1). next.
  rewrite bind_eq, (write_shared_Ok _ _ _ _ Hd1). next. unfold ret at 1.
  rewrite bind_eq.
  destruct (SharedPtr_dtor pd _) as [q s3| |] eqn:E3; try discriminate.
  destruct (storage_only_store _ _ _ _ (storage_only_SharedPtr_dtor pd) E3)
    as [Ho3 Hb3].
  unfold ret. intros [= <-]. rewrite Ho3, Hb3. simpl. destruct ps; auto.
Qed.

(** X13.  [dst = src;] in a consistent state: the assignment returns; [dst]
    has the two pointers of [src]; every other handle, owning or observing,
    is what it was; the state is consistent again, so the strong count of the
    block [src] manages is the number of owners in the new scope, [dst]
    among them. *)
Theorem copy_assignment_shares_ownership (dst src : nat) (pd ps : SharedPtr) s :
  consistent s → in_range s 1 →
  owning s !! dst = Some (Some pd) →
  owning s !! src = Some (Some ps) →
  ∃ s', SharedPtr_assign dst src s = Ok tt s' ∧
        owning s' = <[dst := Some ps]> (owning s) ∧
        observing s' = observing s ∧
        consistent s' ∧
        ∀ a, control_ptr_ ps = Some a →
             strong_count s' a = Some (owners a (<[dst := Some ps]> (owning s))) ∧
             1 ≤ owners a (<[dst := Some ps]> (owning s)).
Proof.
  intros Hc Hr Hd Hs.
  destruct (statement_Assign _ _ s dst src pd ps (consistent_Inv s Hc) Hr Hd Hs)
    as (s' & E & HI & _).
  change (statement (Assign dst src)) with (SharedPtr_assign (T := T) dst src) in E.
  destruct (SharedPtr_assign_store dst src pd ps s s' Hd Hs E) as [Ho Hb].
  exists s'. split; [exact E|]. split; [exact Ho|]. split; [exact Hb|].
  split; [eapply Inv_consistent; exact HI|].
  intros a Ha.
  assert (Hd' : owning s' !! dst = Some (Some ps)).
  { rewrite Ho. apply list_lookup_insert_eq. eapply lookup_lt_Some; eauto. }
  pose proof (owners_holds a _ _ _ Hd') as Hle.
  rewrite Ha, refs_same in Hle. rewrite <- Ho. split; [|lia].
  destruct (Inv_block _ _ None None s' a HI) as (c & Hh & Hso & _).
  { left. unfold strong_refs. rewrite refs_null. lia. }
  unfold strong_count. rewrite Hh, Hso. unfold strong_refs.
  rewrite refs_null, Z.add_0_r. reflexivity.
Qed.

(** X14.  [dst = std::move(src);] for two different handles in a
    consistent state: the assignment returns; [dst] has the two pointers of
    [src] and [src] is empty; every other handle is what it was; the state is
    consistent again, and the block [src] managed has as many owners as
    before unless [dst] was one of them. *)
Theorem move_assignment_transfers_ownership (dst src : nat) (pd ps : SharedPtr) s :
  consistent s →
  dst ≠ src →
  owning s !! dst = Some (Some pd) →
  owning s !! src = Some (Some ps) →
  ∃ s', SharedPtr_move_assign dst src s = Ok tt s' ∧
        owning s'
        = <[dst := Some ps]>
            (<[src := Some {| element_ptr_ := None; control_ptr_ := None |}]>
               (owning s)) ∧
        observing s' = observing s ∧
        consistent s' ∧
        ∀ a, control_ptr_ ps = Some a →
             strong_count s' a
             = Some (owners a (owning s) - refs a (control_ptr_ pd)).
Proof.
  intros Hc Hne Hd Hs.
  destruct (statement_MoveAssign _ _ s dst src pd ps (consistent_Inv s Hc) Hd Hs)
    as (s' & E & HI & _).
  change (statement (MoveAssign dst src))
    with (SharedPtr_move_assign (T := T) dst src) in E.
  destruct (SharedPtr_move_assign_store dst src pd ps s s' Hne Hd Hs E) as [Ho Hb].
  exists s'. split; [exact E|]. split; [exact Ho|]. split; [exact Hb|].
  split; [eapply Inv_consistent; exact HI|].
  intros a Ha.
  assert (Hd1 : <[src := Some {| element_ptr_ := None; control_ptr_ := None |}]>
                  (owning s) !! dst = Some (Some pd)).
  { rewrite list_lookup_insert_ne by congruence. exact Hd. }
  assert (Hcount : owners a (owning s') = owners a (owning s) - refs a (control_ptr_ pd)).
  { rewrite Ho, (owners_write _ _ _ _ _ Hd1), (owners_write _ _ _ _ _ Hs). simpl.
    rewrite Ha, refs_same, refs_null. lia. }
  assert (Hd' : owning s' !! dst = Some (Some ps)).
  { rewrite Ho. apply list_lookup_insert_eq. rewrite length_insert.
    eapply lookup_lt_Some; eauto. }
  pose proof (owners_holds a _ _ _ Hd') as Hle.
  rewrite Ha, refs_same in Hle.
  destruct (Inv_block _ _ None None s' a HI) as (c & Hh & Hso & _).
  { left. unfold strong_refs. rewrite refs_null. lia. }
  unfold strong_count. rewrite Hh, Hso. unfold strong_refs.
  rewrite refs_null, Z.add_0_r, Hcount. reflexivity.
Qed.

(** X15.  [SharedPtr<T> h(std::move(src));] and then the end of [src], in
    any state: the new handle has the two pointers [src] had, [src] is left
    empty, and neither the move nor the destructor of the moved-from handle
    reads or writes a control block or logs anything. *)
Theorem move_construction_transfers_ownership (src : nat) (p : SharedPtr) s :
  owning s !! src = Some (Some p) →
  ∃ s1 s2,
    statement (Move src) s = Ok tt s1 ∧
    heap s1 = heap s ∧ log s1 = log s ∧
    owning s1
    = <[src := Some {| element_ptr_ := None; control_ptr_ := None |}]> (owning s)
      ++ [Some p] ∧
    statement (Destroy src) s1 = Ok tt s2 ∧
    heap s2 = heap s ∧ log s2 = log s ∧
    owning s2 = <[src := None]> (owning s) ++ [Some p].
Proof.
  intros Hp. pose proof (lookup_lt_Some _ _ _ Hp) as Hlt.
  set (empty := {| element_ptr_ := None; control_ptr_ := None |}).
  set (s1 := set_owning (<[src := Some empty]> (owning s) ++ [Some p]) s).
  assert (E1 : statement (Move src) s = Ok tt s1).
  { unfold statement, SharedPtr_move.
    rewrite bind_eq, bind_eq, (read_shared_Ok _ _ _ Hp). next.
    rewrite bind_eq, (write_shared_Ok _ _ _ _ Hp). next.
    unfold ret, declare_shared. simpl. destruct p; reflexivity. }
  assert (Hp1 : owning s1 !! src = Some (Some empty)).
  { simpl. rewrite lookup_app_l by (rewrite length_insert; exact Hlt).
    apply list_lookup_insert_eq. exact Hlt. }
  exists s1. eexists. split; [exact E1|].
  split; [reflexivity|]. split; [reflexivity|]. split; [reflexivity|].
  split.
  - unfold statement. rewrite bind_eq, (read_shared_Ok _ _ _ Hp1). next.
    unfold SharedPtr_dtor. simpl control_ptr_. cbv iota.
    rewrite bind_eq, bind_eq. unfold ret at 1 2. next.
    rewrite bind_eq, (write_shared_Ok _ _ _ _ Hp1). next.
    unfold end_shared. simpl owning.
    rewrite list_lookup_insert_eq
      by (rewrite length_app, length_insert; simpl; lia).
    reflexivity.
  - simpl. split; [reflexivity|]. split; [reflexivity|].
    rewrite list_insert_insert_eq.
    rewrite insert_app_l by (rewrite length_insert; exact Hlt).
    rewrite list_insert_insert_eq. reflexivity.
Qed.

End Assignments.

(** ** Observing Handles and the owners *)

Section Observers.

Context {T : Type}.

Implicit Types (s : State T) (a : addr).

Lemma same_owners_refl s : same_owners s s.
Proof. reflexivity. Qed.

Lemma same_owners_trans s1 s2 s3 :
  same_owners s1 s2 → same_owners s2 s3 → same_owners s1 s3.
Proof. unfold same_owners. congruence. Qed.

Lemma so_ret {A} (x : A) : respects (T := T) same_owners (ret x).
Proof. apply respects_ret, same_owners_refl. Qed.

Lemma so_bind {A B} (m : M T A) (k : A → M T B) :
  respects same_owners m → (∀ x, respects same_owners (k x)) →
  respects same_owners (bind m k).
Proof. apply respects_bind, same_owners_trans. Qed.

(** A method on the storage that cannot throw leaves the owners alone. *)
Lemma so_storage_only {A} (m : M T A) :
  storage_only m → respects frees_only m → respects same_owners m.
Proof.
  intros Hs Hf s. specialize (Hf s).
  destruct (m s) as [x s'| |] eqn:E; [|contradiction|exact I].
  apply (storage_only_store m s x s' Hs E).
Qed.

Lemma so_read_shared i : respects (T := T) same_owners (read_shared i).
Proof.
  intros s. unfold read_shared.
  destruct (owning s !! i) as [[p|]|]; try exact I. reflexivity.
Qed.

Lemma so_read_weak i : respects (T := T) same_owners (read_weak i).
Proof.
  intros s. unfold read_weak.
  destruct (observing s !! i) as [[p|]|]; try exact I. reflexivity.
Qed.

Lemma so_write_weak i w : respects (T := T) same_owners (write_weak i w).
Proof.
  intros s. unfold write_weak.
  destruct (observing s !! i) as [[q|]|]; try exact I. reflexivity.
Qed.

Lemma so_end_weak i : respects (T := T) same_owners (end_weak i).
Proof.
  intros s. unfold end_weak.
  destruct (observing s !! i) as [[q|]|]; try exact I. reflexivity.
Qed.

Lemma so_declare_weak w : respects (T := T) same_owners (declare_weak w).
Proof. intros s. reflexivity. Qed.

Lemma so_WeakPtr_copy w : respects (T := T) same_owners (WeakPtr_copy w).
Proof. apply so_storage_only; [apply storage_only_WeakPtr_copy|apply fo_WeakPtr_copy]. Qed.

Lemma so_WeakPtr_from_shared p :
  respects (T := T) same_owners (WeakPtr_from_shared p).
Proof.
  apply so_storage_only;
    [apply storage_only_WeakPtr_from_shared|apply fo_WeakPtr_from_shared].
Qed.

Lemma so_WeakPtr_dtor w : respects (T := T) same_owners (WeakPtr_dtor w).
Proof. apply so_storage_only; [apply storage_only_WeakPtr_dtor|apply fo_WeakPtr_dtor]. Qed.

Lemma so_statement (o : op) :
  is_weak_op o = true → respects (T := T) same_owners (statement o).
Proof.
  destruct o; try discriminate; intros _;
    unfold statement, WeakPtr_assign, WeakPtr_move_assign, WeakPtr_ctor,
      WeakPtr_move, WeakPtr_swap;
    repeat first
      [ apply so_ret | apply so_read_shared | apply so_read_weak
      | apply so_write_weak | apply so_end_weak | apply so_declare_weak
      | apply so_WeakPtr_copy | apply so_WeakPtr_from_shared | apply so_WeakPtr_dtor
      | apply so_bind; [|intros ?] ].
Qed.

Lemma is_weak_op_not_lock (o : op) : is_weak_op o = true → is_lock o = false.
Proof. destruct o; simpl; congruence. Qed.

(** X16.  A statement on Observing Handles ([WeakPtr] construction from a
    handle, copy, move, assignment, destruction) in a consistent state
    returns and leaves the owners alone: the Owning Handles in scope have the
    members they had, no managed object is destroyed, and the strong count of
    every block that has an owner is what it was. *)
Theorem observer_statements_leave_owners (o : op) s :
  is_weak_op o = true →
  consistent s → in_range s 1 →
  ∃ s', step o s = Ok tt s' ∧
        owning s' = owning s ∧
        consistent s' ∧
        (∀ a, destroyed a s' = destroyed a s) ∧
        (∀ a, 1 ≤ owners a (owning s) → strong_count s' a = strong_count s a).
Proof.
  intros Hw Hc Hr.
  destruct (step_inv _ _ o s (is_weak_op_not_lock o Hw) (consistent_Inv s Hc) Hr)
    as (s' & E & HI & _).
  assert (Ho : owning s' = owning s).
  { unfold step in E. destruct (well_scoped o s).
    - pose proof (so_statement o Hw s) as H. rewrite E in H. exact H.
    - injection E as <-. reflexivity. }
  exists s'. split; [exact E|]. split; [exact Ho|].
  split; [eapply Inv_consistent; exact HI|]. split.
  - intros a. destruct (HI a) as [_ Hz _]. simpl in Hz.
    unfold strong_refs in Hz. rewrite !refs_null, !Z.add_0_r, Ho in Hz. lia.
  - intros a Ha.
    destruct (Inv_block _ _ None None s' a HI) as (c' & Hh' & Hso' & _).
    { left. unfold strong_refs. rewrite refs_null, Ho. lia. }
    destruct (Inv_block _ _ None None s a (consistent_Inv s Hc)) as (c & Hh & Hso & _).
    { left. unfold strong_refs. rewrite refs_null. lia. }
    unfold strong_count. rewrite Hh, Hh', Hso, Hso'. unfold strong_refs.
    rewrite Ho. reflexivity.
Qed.

End Observers.

(** ** Constructors: failure of the allocation, and the invariant *)

Section MoreConstructors.

Context {T : Type}.

Implicit Types (s : State T) (a : addr).

(** X17.  [SharedPtr(Y* ptr)] when the allocation of the control block
    fails: the exception leaves the constructor with the heap and the log as
    they were; no deleter is called on [ptr]. *)
Theorem raw_pointer_ctor_allocation_failure (ptr : option object) s
    (rest : list bool) :
  budget s = false :: rest →
  SharedPtr_ctor_ptr (T := T) ptr s = Throw (set_budget rest s).
Proof.
  intros Hb. unfold SharedPtr_ctor_ptr, operator_new.
  rewrite !bind_assoc, bind_eq, (allocate_fails _ _ _ Hb). reflexivity.
Qed.

(** X18.  [SharedPtr(Y* ptr, Deleter del)] when the allocation of the
    control block fails: [del(ptr)] is called once, nothing else is logged,
    the heap is as it was, and the exception leaves the constructor. *)
Theorem deleter_ctor_allocation_failure (ptr : option object) (del : Deleter) s
    (rest : list bool) :
  budget s = false :: rest →
  SharedPtr_ctor_ptr_del (T := T) ptr del s
  = Throw (set_log (log s ++ [EvDelete del ptr]) (set_budget rest s)).
Proof.
  apply SharedPtr_ctor_ptr_del_fails.
Qed.

(** X19.  [AllocateShared<T>(alloc, args...)] when the allocation fails:
    the exception leaves the function before anything is constructed; the
    heap and the log are as they were. *)
Theorem factory_allocation_failure {Args : Type} (alloc : Alloc)
    (construct : Args → option T) (args : Args) s (rest : list bool) :
  budget s = false :: rest →
  AllocateShared alloc construct args s = Throw (set_budget rest s).
Proof.
  intros Hb. unfold AllocateShared.
  rewrite bind_eq, (allocate_fails _ _ _ Hb). reflexivity.
Qed.

(** X20.  Every constructor that makes a control block keeps the state
    consistent: when the allocation succeeds (and, for [AllocateShared], the
    constructor of the element returns), the state with the new handle in
    scope is consistent if the state before was. *)
Theorem constructors_keep_consistency {Args : Type} (ptr : option object)
    (del : Deleter) (alloc : Alloc) (construct : Args → option T) (args : Args)
    (v : T) s :
  consistent s →
  head (budget s) ≠ Some false →
  construct args = Some v →
  (∃ s', (let* h := SharedPtr_ctor_ptr ptr in declare_shared h) s = Ok tt s' ∧
         consistent s') ∧
  (∃ s', (let* h := SharedPtr_ctor_ptr_del ptr del in declare_shared h) s = Ok tt s' ∧
         consistent s') ∧
  (∃ s', (let* h := SharedPtr_ctor_ptr_del_alloc ptr del alloc in declare_shared h) s
         = Ok tt s' ∧
         consistent s') ∧
  (∃ s', (let* h := AllocateShared alloc construct args in declare_shared h) s
         = Ok tt s' ∧
         consistent s').
Proof.
  intros Hc Hb Hv.
  split; [apply SharedPtr_ctor_ptr_consistent; assumption|].
  split; [apply SharedPtr_ctor_ptr_del_consistent; assumption|].
  split; [apply SharedPtr_ctor_ptr_del_alloc_consistent; assumption|].
  apply (AllocateShared_consistent alloc construct args v); assumption.
Qed.

End MoreConstructors.

(** ** The weak count *)

Section WeakCount.

Context {T : Type}.

Implicit Types (s : State T) (a : addr).

(** X21.  After every prefix of a program without [lock()] from a
    consistent state, every block that a handle in scope references is
    constructed, and its weak count is the number of Observing Handles in
    scope that reference it: Owning Handles are not counted in it. *)
Theorem weak_count_is_number_of_observers (ops : list op) s (k : nat) :
  consistent s → lock_free ops → in_range s (length ops) →
  ∃ s', run (take k ops) s = Ok tt s' ∧
        ∀ a, 1 ≤ owners a (owning s') + observers a (observing s') →
             ∃ c, heap s' !! a = Some (Constructed c) ∧
                  shared_weak_owners_ c = observers a (observing s').
Proof.
  intros Hc Hlf Hr.
  destruct (run_consistent (take k ops) s Hc (lock_free_take _ k Hlf))
    as (s' & E & Hc').
  { eapply in_range_le; [|exact Hr]. rewrite length_take. lia. }
  exists s'. split; [exact E|]. intros a Ha. specialize (Hc' a).
  pose proof (owners_nonneg a (owning s')).
  pose proof (observers_nonneg a (observing s')).
  destruct (heap s' !! a) as [[|c]|]; simpl in Hc'; try lia.
  exists c. split; [reflexivity|]. tauto.
Qed.

End WeakCount.

(** ** One block at a time *)

Section Untouched.

Context {T : Type}.

Implicit Types (s : State T) (a b : addr).

Lemma untouched_refl b s : untouched b s s.
Proof. repeat split. Qed.

Lemma untouched_trans b s1 s2 s3 :
  untouched b s1 s2 → untouched b s2 s3 → untouched b s1 s3.
Proof. unfold untouched. intros (? & ? & ?) (? & ? & ?). repeat split; congruence. Qed.

Lemma ut_ret b {A} (x : A) : respects (T := T) (untouched b) (ret x).
Proof. apply respects_ret, untouched_refl. Qed.

Lemma ut_bind b {A B} (m : M T A) (k : A → M T B) :
  respects (untouched b) m → (∀ x, respects (untouched b) (k x)) →
  respects (untouched b) (bind m k).
Proof. apply respects_bind, untouched_trans. Qed.

Lemma ut_undefined b {A} : respects (T := T) (untouched b) (undefined (A := A)).
Proof. intros s. exact I. Qed.

Lemma ut_emit b (e : event) :
  is_zero_shared b e = false → is_deallocate b e = false →
  respects (T := T) (untouched b) (emit e).
Proof.
  intros Hz Hd s. unfold emit, untouched, destroyed, deallocated. simpl.
  rewrite !count_events_app. simpl. rewrite Hz, Hd. repeat split; lia.
Qed.

Lemma ut_get_block b a : respects (T := T) (untouched b) (get_block a).
Proof.
  intros s. unfold get_block.
  destruct (heap s !! a) as [[|c]|]; try exact I. apply untouched_refl.
Qed.

Lemma ut_put_block b a (c : ControlBlock T) :
  a ≠ b → respects (untouched b) (put_block a c).
Proof.
  intros Hne s. unfold put_block, untouched, destroyed, deallocated. simpl.
  rewrite lookup_insert_ne by exact Hne. repeat split.
Qed.

Lemma ut_deallocate b (al : Alloc) a :
  a ≠ b → respects (T := T) (untouched b) (deallocate al a).
Proof.
  intros Hne s. unfold deallocate.
  destruct (heap s !! a); [|exact I].
  unfold untouched, destroyed, deallocated. simpl.
  rewrite lookup_delete_ne by exact Hne. rewrite !count_events_app. simpl.
  rewrite bool_decide_eq_false_2 by exact Hne. repeat split; lia.
Qed.

Lemma ut_arrow b a (f : ControlBlock T → ControlBlock T) :
  a ≠ b → respects (untouched b) (a ->* f).
Proof.
  intros Hne. apply ut_bind; [apply ut_get_block|].
  intros c. apply ut_put_block, Hne.
Qed.

Lemma ut_use_count b a : respects (T := T) (untouched b) (use_count a).
Proof. apply ut_bind; [apply ut_get_block|]. intros c. apply ut_ret. Qed.

Ltac ut_tac Hne :=
  repeat first
    [ apply ut_ret
    | apply ut_undefined
    | apply ut_get_block
    | apply ut_use_count
    | apply ut_put_block; exact Hne
    | apply ut_deallocate; exact Hne
    | apply ut_arrow; exact Hne
    | apply ut_emit;
      [ first [reflexivity | simpl; apply bool_decide_eq_false_2; exact Hne]
      | first [reflexivity | simpl; apply bool_decide_eq_false_2; exact Hne] ]
    | apply ut_bind; [|intros ?]
    | match goal with
      | |- respects _ (match ?x with _ => _ end) => destruct x
      | |- respects _ (if ?x then _ else _) => destruct x
      end ].

Lemma ut_zero_shared b a : a ≠ b → respects (T := T) (untouched b) (zero_shared a).
Proof. intros Hne. unfold zero_shared. ut_tac Hne. Qed.

Lemma ut_zero_shared_and_weak b a :
  a ≠ b → respects (T := T) (untouched b) (zero_shared_and_weak a).
Proof. intros Hne. unfold zero_shared_and_weak. ut_tac Hne. Qed.

Lemma ut_release_shared b a :
  a ≠ b → respects (T := T) (untouched b) (release_shared a).
Proof.
  intros Hne. unfold release_shared. ut_tac Hne.
Qed.

Lemma ut_release_weak b a :
  a ≠ b → respects (T := T) (untouched b) (release_weak a).
Proof.
  intros Hne. unfold release_weak. ut_tac Hne.
Qed.

(** X22.  The copy constructors and the destructors of both handles work
    on the block the handle points to and on no other: for every other
    address [b] they return with the storage at [b] as it was and with
    neither hook run on it; and they do not throw. *)
Theorem methods_touch_only_their_block (p : SharedPtr) (w : WeakPtr) b :
  control_ptr_ p ≠ Some b →
  weak_control_ptr_ w ≠ Some b →
  respects (T := T) (untouched b) (SharedPtr_copy p) ∧
  respects (T := T) (untouched b) (SharedPtr_dtor p) ∧
  respects (T := T) (untouched b) (WeakPtr_from_shared p) ∧
  respects (T := T) (untouched b) (WeakPtr_copy w) ∧
  respects (T := T) (untouched b) (WeakPtr_dtor w).
Proof.
  intros Hp Hw.
  destruct p as [e [a|]]; destruct w as [e' [a'|]]; simpl in *;
    try (assert (Hne : a ≠ b) by congruence);
    try (assert (Hne' : a' ≠ b) by congruence);
    repeat split;
    unfold SharedPtr_copy, SharedPtr_dtor, WeakPtr_from_shared, WeakPtr_copy,
      WeakPtr_dtor; simpl;
    repeat first
      [ apply ut_ret
      | apply ut_use_count
      | apply ut_arrow; assumption
      | apply ut_release_shared; assumption
      | apply ut_release_weak; assumption
      | apply ut_bind; [|intros ?]
      | match goal with
        | |- respects _ (if ?x then _ else _) => destruct x
        end ].
Qed.

End Untouched.

(** ** Assignment of Observing Handles *)

Section WeakAssignments.

Context {T : Type}.

Implicit Types (s : State T) (a : addr).

Lemma WeakPtr_assign_store (dst src : nat) (wd ws : WeakPtr) s s' :
  observing s !! dst = Some (Some wd) →
  observing s !! src = Some (Some ws) →
  WeakPtr_assign dst src s = Ok tt s' →
  observing s' = <[dst := Some ws]> (observing s) ∧ owning s' = owning s.
Proof.
  intros Hd Hs. unfold WeakPtr_assign.
  rewrite bind_eq, (read_weak_Ok _ _ _ Hs). next. rewrite bind_eq.
  destruct (WeakPtr_copy ws s) as [t s1| |] eqn:E1; try discriminate.
  pose proof (WeakPtr_copy_value _ _ _ _ E1) as ->.
  destruct (storage_only_store _ _ _ _ (storage_only_WeakPtr_copy ws) E1)
    as [Ho1 Hb1].
  assert (Hd1 : observing s1 !! dst = Some (Some wd)) by (rewrite Hb1; exact Hd).
  unfold WeakPtr_swap.
  rewrite bind_eq, bind_eq, (read_weak_Ok _ _ _ Hd1). next.
  rewrite bind_eq, (write_weak_Ok _ _ _ _ Hd1). next. unfold ret at 1.
  rewrite bind_eq.
  destruct (WeakPtr_dtor wd _) as [q s3| |] eqn:E3; try discriminate.
  destruct (storage_only_store _ _ _ _ (storage_only_WeakPtr_dtor wd) E3)
    as [Ho3 Hb3].
  unfold ret. intros [= <-]. rewrite Ho3, Hb3. simpl. rewrite Ho1, Hb1. auto.
Qed.

Lemma WeakPtr_move_assign_store (dst src : nat) (wd ws : WeakPtr) s s' :
  dst ≠ src →
  observing s !! dst = Some (Some wd) →
  observing s !! src = Some (Some ws) →
  WeakPtr_move_assign dst src s = Ok tt s' →
  observing s'
  = <[dst := Some ws]>
      (<[src := Some {| weak_element_ptr_ := None; weak_control_ptr_ := None |}]>
         (observing s)) ∧
  owning s' = owning s.
Proof.
  intros Hne Hd Hs. unfold WeakPtr_move_assign, WeakPtr_move.
  rewrite bind_eq, bind_eq, (read_weak_Ok _ _ _ Hs). next.
  rewrite bind_eq, (write_weak_Ok _ _ _ _ Hs). next. unfold ret at 1.
  set (s1 := set_observing _ s).
  assert (Hd1 : observing s1 !! dst = Some (Some wd)).
  { simpl. rewrite list_lookup_insert_ne by congruence. exact Hd. }
  unfold WeakPtr_swap.
  rewrite bind_eq, bind_eq, (read_weak_Ok _ _ _ Hd1). next.
  rewrite bind_eq, (write_weak_Ok _ _ _ _ Hd1). next. unfold ret at 1.
  rewrite bind_eq.
  destruct (WeakPtr_dtor wd _) as [q s3| |] eqn:E3; try discriminate.
  destruct (storage_only_store _ _ _ _ (storage_only_WeakPtr_dtor wd) E3)
    as [Ho3 Hb3].
  unfold ret. intros [= <-]. rewrite Ho3, Hb3. simpl. destruct ws; auto.
Qed.

(** X23.  [dst = src;] and [dst = std::move(src);] on Observing Handles in
    a consistent state: the assignment returns; [dst] has the two pointers of
    [src]; after the move [src] is empty (for two different handles); every
    other handle is what it was, and the state is consistent again. *)
Theorem observer_assignments_replace_the_target (dst src : nat) (wd ws : WeakPtr) s :
  consistent s → in_range s 1 →
  observing s !! dst = Some (Some wd) →
  observing s !! src = Some (Some ws) →
  (∃ s', WeakPtr_assign dst src s = Ok tt s' ∧
         observing s' = <[dst := Some ws]> (observing s) ∧
         owning s' = owning s ∧
         consistent s') ∧
  (dst ≠ src →
   ∃ s', WeakPtr_move_assign dst src s = Ok tt s' ∧
         observing s'
         = <[dst := Some ws]>
             (<[src := Some {| weak_element_ptr_ := None;
                               weak_control_ptr_ := None |}]> (observing s)) ∧
         owning s' = owning s ∧
         consistent s').
Proof.
  intros Hc Hr Hd Hs. split.
  - destruct (statement_WAssign _ _ s dst src wd ws (consistent_Inv s Hc) Hr Hd Hs)
      as (s' & E & HI & _).
    change (statement (WAssign dst src)) with (WeakPtr_assign (T := T) dst src) in E.
    destruct (WeakPtr_assign_store dst src wd ws s s' Hd Hs E) as [Hb Ho].
    exists s'. split; [exact E|]. split; [exact Hb|]. split; [exact Ho|].
    eapply Inv_consistent; exact HI.
  - intros Hne.
    destruct (statement_WMoveAssign _ _ s dst src wd ws (consistent_Inv s Hc) Hd Hs)
      as (s' & E & HI & _).
    change (statement (WMoveAssign dst src))
      with (WeakPtr_move_assign (T := T) dst src) in E.
    destruct (WeakPtr_move_assign_store dst src wd ws s s' Hne Hd Hs E) as [Hb Ho].
    exists s'. split; [exact E|]. split; [exact Hb|]. split; [exact Ho|].
    eapply Inv_consistent; exact HI.
Qed.

End WeakAssignments.

(** ** From the constructor to the last handle *)

Section Lifetime.

Context {T : Type}.

Implicit Types (s : State T) (a : addr).

(** X24.  [SharedPtr<T> h(ptr, del);] in a program that has no other
    handle, followed by any statements on handles without [lock()]: the
    program returns, and if at its end no handle references the block, the
    first hook has run on the block exactly once, its storage was
    deallocated exactly once, and the heap is empty as at the start. *)
Theorem handle_lifetime_leaves_nothing (ptr : option object) (del : Deleter)
    (answers : list bool) (ops : list op) :
  head answers ≠ Some false →
  lock_free ops →
  Z.of_nat (length ops) + 1 < SIZE_MAX →
  ∃ s0 s' : State T,
    let a := fresh (dom (heap (start (T := T) answers))) in
    (let* h := SharedPtr_ctor_ptr_del ptr del in declare_shared h) (start answers)
    = Ok tt s0 ∧
    run ops s0 = Ok tt s' ∧
    (owners a (owning s') = 0 → observers a (observing s') = 0 →
     heap s' = ∅ ∧ destroyed a s' = 1 ∧ deallocated a s' = 1).
Proof.
  intros Hb Hlf Hlen.
  set (s := start (T := T) answers).
  assert (Hbs : head (budget s) ≠ Some false) by exact Hb.
  destruct (allocate_Ok std_allocator s Hbs) as (s1 & E1 & Hh1 & Hl1 & Ho1 & Hw1).
  pose proof (SharedPtr_ctor_ptr_del_Ok s s1 ptr del E1) as Ector.
  set (a := fresh (dom (heap s))) in *.
  destruct (SharedPtr_ctor_ptr_del_consistent s ptr del (start_consistent answers) Hbs)
    as (s0 & E0 & Hc0).
  exists s0.
  assert (Hs0 : heap s0 = <[a := Constructed
                              {| shared_owners_ := 1; shared_weak_owners_ := 0;
                                 derived := SharedPtrPointer ptr (Some del)
                                              (Some std_allocator) |}]> ∅ ∧
                log s0 = [EvAllocate std_allocator a] ∧
                owning s0 = [Some {| element_ptr_ := ptr; control_ptr_ := Some a |}] ∧
                observing s0 = []).
  { rewrite (bind_Ok _ _ _ _ _ Ector) in E0. unfold declare_shared in E0.
    injection E0 as <-. simpl. rewrite Hh1, Hl1, Ho1, Hw1.
    rewrite insert_insert_eq. repeat split. }
  destruct Hs0 as (Hh0 & Hl0 & Hown0 & Hobs0).
  assert (Hr0 : in_range s0 (length ops)).
  { unfold in_range. rewrite Hown0, Hobs0. simpl. lia. }
  destruct (run_inv _ _ ops s0 0 Hlf (consistent_Inv s0 Hc0) (in_range_0 _ _ Hr0))
    as (s' & E & HI & _).
  exists s'. cbv zeta. split; [exact E0|]. split; [exact E|].
  intros Hown Hobs.
  pose proof (fo_run ops s0) as Hfo. rewrite E in Hfo.
  destruct Hfo as (_ & _ & Hnone & Hfree).
  destruct (HI a) as [_ Hz Hd]. simpl in Hz, Hd.
  unfold strong_refs, weak_refs_total in Hz, Hd.
  rewrite !refs_null, !Z.add_0_r, Hown in Hz, Hd. rewrite Hobs in Hd.
  assert (Hone : owners a (owning s0) = 1).
  { rewrite Hown0. unfold owners. simpl. rewrite refs_same. reflexivity. }
  rewrite Hone in Hz, Hd. simpl in Hz, Hd.
  assert (Hz0 : destroyed a s0 = 0).
  { unfold destroyed. rewrite Hl0. reflexivity. }
  assert (Hd0 : deallocated a s0 = 0).
  { unfold deallocated. rewrite Hl0. reflexivity. }
  split; [|split; lia].
  apply map_eq. intros a'. rewrite lookup_empty.
  destruct (decide (a' = a)) as [->|Hne].
  - apply Hfree. lia.
  - apply Hnone. rewrite Hh0, lookup_insert_ne by congruence. apply lookup_empty.
Qed.

End Lifetime.

(** ** The further properties at the scenarios *)

Module MoreScenarioFacts.

Import Scenario MoreScenarios.

Lemma with_H_E_consistent : consistent with_H_E.
Proof.
  intros a. destruct (decide (a = 1%positive)) as [->|Hne].
  - vm_compute. repeat split; eauto.
  - unfold with_H_E; simpl. rewrite lookup_singleton_ne by congruence.
    unfold owners; simpl. rewrite refs_other by congruence. rewrite refs_null.
    split; reflexivity.
Qed.

Lemma with_H_E_in_range (n : nat) : (n ≤ 1000)%nat → in_range with_H_E n.
Proof. unfold in_range, SIZE_MAX. simpl. lia. Qed.

Lemma with_H_W_V_consistent : consistent with_H_W_V.
Proof.
  intros a. destruct (decide (a = 1%positive)) as [->|Hne].
  - vm_compute. repeat split; eauto.
  - unfold with_H_W_V; simpl. rewrite lookup_singleton_ne by congruence.
    unfold owners, observers; simpl. rewrite !refs_other by congruence.
    rewrite refs_null. split; reflexivity.
Qed.

Lemma with_H_W_V_in_range (n : nat) : (n ≤ 1000)%nat → in_range with_H_W_V n.
Proof. unfold in_range, SIZE_MAX. simpl. lia. Qed.

End MoreScenarioFacts.

Lemma raw_pointer_handle_round_trip_witness :
  ∃ s1 s2 : State unit,
    let a := fresh (dom (heap (start (T := unit) []))) in
    SharedPtr_ctor_ptr Scenario.X (start [])
    = Ok {| element_ptr_ := Scenario.X; control_ptr_ := Some a |} s1 ∧
    SharedPtr_use_count {| element_ptr_ := Scenario.X; control_ptr_ := Some a |} s1
    = Ok 1 s1 ∧
    SharedPtr_dtor {| element_ptr_ := Scenario.X; control_ptr_ := Some a |} s1
    = Ok {| element_ptr_ := Scenario.X; control_ptr_ := None |} s2 ∧
    heap s2 = heap (start (T := unit) []) ∧
    log s2 = log (start (T := unit) [])
             ++ [EvAllocate std_allocator a;
                 EvZeroShared a; EvDelete default_delete Scenario.X;
                 EvDeleterDtor default_delete;
                 EvZeroSharedAndWeak a; EvAllocDtor std_allocator;
                 EvDeallocate std_allocator a].
Proof.
  apply (raw_pointer_handle_round_trip Scenario.X (start [])).
  simpl. discriminate.
Defined.

Lemma deleter_handle_round_trip_witness :
  ∃ s1 s2 : State unit,
    let a := fresh (dom (heap (start (T := unit) []))) in
    SharedPtr_ctor_ptr_del Scenario.X Scenario.D (start [])
    = Ok {| element_ptr_ := Scenario.X; control_ptr_ := Some a |} s1 ∧
    SharedPtr_use_count {| element_ptr_ := Scenario.X; control_ptr_ := Some a |} s1
    = Ok 1 s1 ∧
    SharedPtr_dtor {| element_ptr_ := Scenario.X; control_ptr_ := Some a |} s1
    = Ok {| element_ptr_ := Scenario.X; control_ptr_ := None |} s2 ∧
    heap s2 = heap (start (T := unit) []) ∧
    log s2 = log (start (T := unit) [])
             ++ [EvAllocate std_allocator a;
                 EvZeroShared a; EvDelete Scenario.D Scenario.X;
                 EvDeleterDtor Scenario.D;
                 EvZeroSharedAndWeak a; EvAllocDtor std_allocator;
                 EvDeallocate std_allocator a].
Proof.
  apply (deleter_handle_round_trip Scenario.X Scenario.D (start [])).
  simpl. discriminate.
Defined.

Lemma allocator_handle_round_trip_witness :
  ∃ s1 s2 : State unit,
    let a := fresh (dom (heap (start (T := unit) []))) in
    SharedPtr_ctor_ptr_del_alloc Scenario.X Scenario.D (custom_alloc 0) (start [])
    = Ok {| element_ptr_ := Scenario.X; control_ptr_ := Some a |} s1 ∧
    SharedPtr_use_count {| element_ptr_ := Scenario.X; control_ptr_ := Some a |} s1
    = Ok 1 s1 ∧
    SharedPtr_dtor {| element_ptr_ := Scenario.X; control_ptr_ := Some a |} s1
    = Ok {| element_ptr_ := Scenario.X; control_ptr_ := None |} s2 ∧
    heap s2 = heap (start (T := unit) []) ∧
    log s2 = log (start (T := unit) [])
             ++ [EvAllocate (custom_alloc 0) a;
                 EvZeroShared a; EvDelete Scenario.D Scenario.X;
                 EvDeleterDtor Scenario.D;
                 EvZeroSharedAndWeak a; EvAllocDtor (custom_alloc 0);
                 EvDeallocate (custom_alloc 0) a].
Proof.
  apply (allocator_handle_round_trip Scenario.X Scenario.D (custom_alloc 0) (start [])).
  simpl. discriminate.
Defined.

Lemma factory_handle_round_trip_witness :
  ∃ s1 s2 : State (Z * Z),
    let a := fresh (dom (heap (start (T := Z * Z) []))) in
    let h := {| element_ptr_ := Some (inplace a); control_ptr_ := Some a |} in
    AllocateShared (custom_alloc 0) Scenario.pair_ctor (3, 4) (start []) = Ok h s1 ∧
    SharedPtr_dtor h s1
    = Ok {| element_ptr_ := Some (inplace a); control_ptr_ := None |} s2 ∧
    heap s2 = heap (start (T := Z * Z) []) ∧
    log s2 = log (start (T := Z * Z) [])
             ++ [EvAllocate (custom_alloc 0) a; EvConstruct a;
                 EvZeroShared a; EvDestroy a;
                 EvZeroSharedAndWeak a; EvAllocDtor (custom_alloc 0);
                 EvDeallocate (custom_alloc 0) a].
Proof.
  apply (factory_handle_round_trip (custom_alloc 0) Scenario.pair_ctor (3, 4) (3, 4)
           (start [])).
  - simpl. discriminate.
  - reflexivity.
Defined.

Lemma observer_keeps_block_not_object_witness :
  ∃ s1 s2 s3 s4 : State unit,
    let a := fresh (dom (heap (start (T := unit) []))) in
    let h := {| element_ptr_ := Scenario.X; control_ptr_ := Some a |} in
    let w := {| weak_element_ptr_ := Scenario.X; weak_control_ptr_ := Some a |} in
    SharedPtr_ctor_ptr_del Scenario.X Scenario.D (start []) = Ok h s1 ∧
    WeakPtr_from_shared h s1 = Ok w s2 ∧
    log s2 = log s1 ∧
    SharedPtr_use_count h s2 = Ok 1 s2 ∧
    SharedPtr_dtor h s2
    = Ok {| element_ptr_ := Scenario.X; control_ptr_ := None |} s3 ∧
    heap s3 !! a
    = Some (Constructed {| shared_owners_ := 0; shared_weak_owners_ := 1;
                           derived := SharedPtrPointer Scenario.X None
                                        (Some std_allocator) |}) ∧
    log s3 = log (start (T := unit) [])
             ++ [EvAllocate std_allocator a;
                 EvZeroShared a; EvDelete Scenario.D Scenario.X;
                 EvDeleterDtor Scenario.D] ∧
    WeakPtr_expired w s3 = Ok true s3 ∧
    WeakPtr_dtor w s3
    = Ok {| weak_element_ptr_ := Scenario.X; weak_control_ptr_ := None |} s4 ∧
    heap s4 = heap (start (T := unit) []) ∧
    log s4 = log s3 ++ [EvZeroSharedAndWeak a; EvAllocDtor std_allocator;
                        EvDeallocate std_allocator a].
Proof.
  apply (observer_keeps_block_not_object Scenario.X Scenario.D (start [])).
  simpl. discriminate.
Defined.

Lemma observer_keeps_combined_block_witness :
  ∃ s1 s2 s3 s4 : State (Z * Z),
    let a := fresh (dom (heap (start (T := Z * Z) []))) in
    let h := {| element_ptr_ := Some (inplace a); control_ptr_ := Some a |} in
    let w := {| weak_element_ptr_ := Some (inplace a); weak_control_ptr_ := Some a |} in
    AllocateShared (custom_alloc 0) Scenario.pair_ctor (3, 4) (start []) = Ok h s1 ∧
    WeakPtr_from_shared h s1 = Ok w s2 ∧
    get_elem s2 a = Some (3, 4) ∧
    SharedPtr_dtor h s2
    = Ok {| element_ptr_ := Some (inplace a); control_ptr_ := None |} s3 ∧
    heap s3 !! a
    = Some (Constructed {| shared_owners_ := 0; shared_weak_owners_ := 1;
                           derived := SharedPtrEmplacer (Some (custom_alloc 0)) None |}) ∧
    get_elem s3 a = None ∧
    log s3 = log (start (T := Z * Z) [])
             ++ [EvAllocate (custom_alloc 0) a; EvConstruct a;
                 EvZeroShared a; EvDestroy a] ∧
    WeakPtr_expired w s3 = Ok true s3 ∧
    WeakPtr_dtor w s3
    = Ok {| weak_element_ptr_ := Some (inplace a); weak_control_ptr_ := None |} s4 ∧
    heap s4 = heap (start (T := Z * Z) []) ∧
    log s4 = log s3 ++ [EvZeroSharedAndWeak a; EvAllocDtor (custom_alloc 0);
                        EvDeallocate (custom_alloc 0) a].
Proof.
  apply (observer_keeps_combined_block (custom_alloc 0) Scenario.pair_ctor (3, 4) (3, 4)
           (start [])).
  - simpl. discriminate.
  - reflexivity.
Defined.

Lemma programs_only_give_storage_back_witness :
  ∃ s', run Scenario.scenario_A Scenario.with_H = Ok tt s' ∧
        frees_only Scenario.with_H s'.
Proof.
  apply (proj2 (programs_only_give_storage_back (T := unit) Scenario.scenario_A)
           Scenario.with_H).
  - exact ScenarioFacts.with_H_consistent.
  - exact ScenarioFacts.scenario_A_lock_free.
  - apply ScenarioFacts.with_H_in_range. simpl. lia.
Defined.

Lemma block_in_use_iff_referenced_witness :
  ∃ s', run Scenario.scenario_A Scenario.with_H = Ok tt s' ∧
        ∀ a, 1 ≤ owners a (owning Scenario.with_H)
                 + observers a (observing Scenario.with_H) →
             (heap s' !! a = None ↔
              owners a (owning s') = 0 ∧ observers a (observing s') = 0).
Proof.
  apply (block_in_use_iff_referenced Scenario.scenario_A Scenario.with_H).
  - exact ScenarioFacts.with_H_consistent.
  - exact ScenarioFacts.scenario_A_lock_free.
  - apply ScenarioFacts.with_H_in_range. simpl. lia.
Defined.

Lemma copy_then_destructor_restores_witness :
  ∃ s1, SharedPtr_copy Scenario.H Scenario.with_H = Ok Scenario.H s1 ∧
        (∀ a n, control_ptr_ Scenario.H = Some a →
                strong_count Scenario.with_H a = Some n →
                strong_count s1 a = Some (n + 1)) ∧
        SharedPtr_dtor Scenario.H s1
        = Ok {| element_ptr_ := element_ptr_ Scenario.H; control_ptr_ := None |}
            Scenario.with_H.
Proof.
  apply (copy_then_destructor_restores Scenario.H Scenario.with_H).
  eexists. split; [reflexivity|]. vm_compute. split; [discriminate | reflexivity].
Defined.

Lemma observer_then_destructor_restores_witness :
  ∃ s1,
    WeakPtr_from_shared Scenario.H Scenario.with_H = Ok Scenario.W s1 ∧
    SharedPtr_use_count Scenario.H s1
    = Ok (shared_owners_ (MoreScenarios.block_of_X 1 0)) s1 ∧
    WeakPtr_expired Scenario.W s1 = Ok false s1 ∧
    WeakPtr_dtor Scenario.W s1
    = Ok {| weak_element_ptr_ := Scenario.X; weak_control_ptr_ := None |}
        Scenario.with_H.
Proof.
  apply (observer_then_destructor_restores Scenario.X 1%positive
           (MoreScenarios.block_of_X 1 0) Scenario.with_H).
  - reflexivity.
  - simpl. lia.
  - vm_compute. split; [discriminate | reflexivity].
Defined.

Lemma observer_copy_then_destructor_restores_witness :
  ∃ s1,
    WeakPtr_copy Scenario.W Scenario.with_H_W = Ok Scenario.W s1 ∧
    heap s1 !! 1%positive
    = Some (Constructed
              {| shared_owners_ := shared_owners_ (MoreScenarios.block_of_X 1 1);
                 shared_weak_owners_
                 := shared_weak_owners_ (MoreScenarios.block_of_X 1 1) + 1;
                 derived := derived (MoreScenarios.block_of_X 1 1) |}) ∧
    WeakPtr_dtor Scenario.W s1
    = Ok {| weak_element_ptr_ := Scenario.X; weak_control_ptr_ := None |}
        Scenario.with_H_W.
Proof.
  apply (observer_copy_then_destructor_restores Scenario.X 1%positive
           (MoreScenarios.block_of_X 1 1) Scenario.with_H_W).
  - reflexivity.
  - vm_compute. split; [discriminate | reflexivity].
Defined.

Lemma reset_is_destructor_then_empty_witness :
  SharedPtr_reset 0 Scenario.with_H
  = (SharedPtr_dtor Scenario.H ;;
     write_shared 0 {| element_ptr_ := None; control_ptr_ := None |}) Scenario.with_H.
Proof.
  apply (reset_is_destructor_then_empty 0 Scenario.H Scenario.with_H).
  reflexivity.
Defined.

Lemma copy_assignment_shares_ownership_witness :
  ∃ s', SharedPtr_assign 1 0 MoreScenarios.with_H_E = Ok tt s' ∧
        owning s' = <[1%nat := Some Scenario.H]> (owning MoreScenarios.with_H_E) ∧
        observing s' = observing MoreScenarios.with_H_E ∧
        consistent s' ∧
        ∀ a, control_ptr_ Scenario.H = Some a →
             strong_count s' a
             = Some (owners a (<[1%nat := Some Scenario.H]>
                                 (owning MoreScenarios.with_H_E))) ∧
             1 ≤ owners a (<[1%nat := Some Scenario.H]> (owning MoreScenarios.with_H_E)).
Proof.
  apply (copy_assignment_shares_ownership 1 0
           {| element_ptr_ := None; control_ptr_ := None |} Scenario.H
           MoreScenarios.with_H_E).
  - exact MoreScenarioFacts.with_H_E_consistent.
  - apply MoreScenarioFacts.with_H_E_in_range. lia.
  - reflexivity.
  - reflexivity.
Defined.

Lemma move_assignment_transfers_ownership_witness :
  ∃ s', SharedPtr_move_assign 1 0 MoreScenarios.with_H_E = Ok tt s' ∧
        owning s'
        = <[1%nat := Some Scenario.H]>
            (<[0%nat := Some {| element_ptr_ := None; control_ptr_ := None |}]>
               (owning MoreScenarios.with_H_E)) ∧
        observing s' = observing MoreScenarios.with_H_E ∧
        consistent s' ∧
        ∀ a, control_ptr_ Scenario.H = Some a →
             strong_count s' a
             = Some (owners a (owning MoreScenarios.with_H_E)
                     - refs a (control_ptr_ {| element_ptr_ := None;
                                               control_ptr_ := None |})).
Proof.
  apply (move_assignment_transfers_ownership 1 0
           {| element_ptr_ := None; control_ptr_ := None |} Scenario.H
           MoreScenarios.with_H_E).
  - exact MoreScenarioFacts.with_H_E_consistent.
  - lia.
  - reflexivity.
  - reflexivity.
Defined.

Lemma move_construction_transfers_ownership_witness :
  ∃ s1 s2,
    statement (Move 0) Scenario.with_H = Ok tt s1 ∧
    heap s1 = heap Scenario.with_H ∧ log s1 = log Scenario.with_H ∧
    owning s1
    = <[0%nat := Some {| element_ptr_ := None; control_ptr_ := None |}]>
        (owning Scenario.with_H) ++ [Some Scenario.H] ∧
    statement (Destroy 0) s1 = Ok tt s2 ∧
    heap s2 = heap Scenario.with_H ∧ log s2 = log Scenario.with_H ∧
    owning s2 = <[0%nat := None]> (owning Scenario.with_H) ++ [Some Scenario.H].
Proof.
  apply (move_construction_transfers_ownership 0 Scenario.H Scenario.with_H).
  reflexivity.
Defined.

Lemma observer_statements_leave_owners_witness :
  ∃ s', step (WDestroy 0) Scenario.with_H_W = Ok tt s' ∧
        owning s' = owning Scenario.with_H_W ∧
        consistent s' ∧
        (∀ a, destroyed a s' = destroyed a Scenario.with_H_W) ∧
        (∀ a, 1 ≤ owners a (owning Scenario.with_H_W) →
              strong_count s' a = strong_count Scenario.with_H_W a).
Proof.
  apply (observer_statements_leave_owners (WDestroy 0) Scenario.with_H_W).
  - reflexivity.
  - exact ScenarioFacts.with_H_W_consistent.
  - apply ScenarioFacts.with_H_W_in_range. lia.
Defined.

Lemma raw_pointer_ctor_allocation_failure_witness :
  SharedPtr_ctor_ptr (T := unit) Scenario.X (start [false; true])
  = Throw (set_budget [true] (start [false; true])).
Proof.
  apply (raw_pointer_ctor_allocation_failure Scenario.X (start [false; true]) [true]).
  reflexivity.
Defined.

Lemma deleter_ctor_allocation_failure_witness :
  SharedPtr_ctor_ptr_del (T := unit) Scenario.X Scenario.D (start [false; true])
  = Throw (set_log (log (start (T := unit) [false; true])
                    ++ [EvDelete Scenario.D Scenario.X])
             (set_budget [true] (start [false; true]))).
Proof.
  apply (deleter_ctor_allocation_failure Scenario.X Scenario.D (start [false; true])
           [true]).
  reflexivity.
Defined.

Lemma factory_allocation_failure_witness :
  AllocateShared (custom_alloc 0) Scenario.pair_ctor (3, 4) (start [false; true])
  = Throw (set_budget [true] (start [false; true])).
Proof.
  apply (factory_allocation_failure (custom_alloc 0) Scenario.pair_ctor (3, 4)
           (start [false; true]) [true]).
  reflexivity.
Defined.

Lemma constructors_keep_consistency_witness :
  (∃ s', (let* h := SharedPtr_ctor_ptr Scenario.X in declare_shared h)
           (start (T := Z * Z) []) = Ok tt s' ∧
         consistent s') ∧
  (∃ s', (let* h := SharedPtr_ctor_ptr_del Scenario.X Scenario.D in declare_shared h)
           (start (T := Z * Z) []) = Ok tt s' ∧
         consistent s') ∧
  (∃ s', (let* h := SharedPtr_ctor_ptr_del_alloc Scenario.X Scenario.D (custom_alloc 0)
          in declare_shared h) (start (T := Z * Z) [])
         = Ok tt s' ∧
         consistent s') ∧
  (∃ s', (let* h := AllocateShared (custom_alloc 0) Scenario.pair_ctor (3, 4)
          in declare_shared h) (start (T := Z * Z) [])
         = Ok tt s' ∧
         consistent s').
Proof.
  apply (constructors_keep_consistency Scenario.X Scenario.D (custom_alloc 0)
           Scenario.pair_ctor (3, 4) (3, 4) (start [])).
  - apply start_consistent.
  - simpl. discriminate.
  - reflexivity.
Defined.

Lemma weak_count_is_number_of_observers_witness :
  ∃ s', run (take 2 [WFromShared 0; WCopy 0; Destroy 0]) Scenario.with_H = Ok tt s' ∧
        ∀ a, 1 ≤ owners a (owning s') + observers a (observing s') →
             ∃ c, heap s' !! a = Some (Constructed c) ∧
                  shared_weak_owners_ c = observers a (observing s').
Proof.
  apply (weak_count_is_number_of_observers [WFromShared 0; WCopy 0; Destroy 0]
           Scenario.with_H 2).
  - exact ScenarioFacts.with_H_consistent.
  - repeat constructor.
  - apply ScenarioFacts.with_H_in_range. simpl. lia.
Defined.

Lemma methods_touch_only_their_block_witness :
  respects (T := unit) (untouched 2%positive) (SharedPtr_copy Scenario.H) ∧
  respects (T := unit) (untouched 2%positive) (SharedPtr_dtor Scenario.H) ∧
  respects (T := unit) (untouched 2%positive) (WeakPtr_from_shared Scenario.H) ∧
  respects (T := unit) (untouched 2%positive) (WeakPtr_copy Scenario.W) ∧
  respects (T := unit) (untouched 2%positive) (WeakPtr_dtor Scenario.W).
Proof.
  apply (methods_touch_only_their_block Scenario.H Scenario.W 2%positive).
  - simpl. discriminate.
  - simpl. discriminate.
Defined.

Lemma observer_assignments_replace_the_target_witness :
  (∃ s', WeakPtr_assign 1 0 MoreScenarios.with_H_W_V = Ok tt s' ∧
         observing s'
         = <[1%nat := Some Scenario.W]> (observing MoreScenarios.with_H_W_V) ∧
         owning s' = owning MoreScenarios.with_H_W_V ∧
         consistent s') ∧
  (1%nat ≠ 0%nat →
   ∃ s', WeakPtr_move_assign 1 0 MoreScenarios.with_H_W_V = Ok tt s' ∧
         observing s'
         = <[1%nat := Some Scenario.W]>
             (<[0%nat := Some {| weak_element_ptr_ := None;
                                 weak_control_ptr_ := None |}]>
                (observing MoreScenarios.with_H_W_V)) ∧
         owning s' = owning MoreScenarios.with_H_W_V ∧
         consistent s').
Proof.
  apply (observer_assignments_replace_the_target 1 0
           {| weak_element_ptr_ := None; weak_control_ptr_ := None |} Scenario.W
           MoreScenarios.with_H_W_V).
  - exact MoreScenarioFacts.with_H_W_V_consistent.
  - apply MoreScenarioFacts.with_H_W_V_in_range. lia.
  - reflexivity.
  - reflexivity.
Defined.

Lemma handle_lifetime_leaves_nothing_witness :
  ∃ s0 s' : State unit,
    let a := fresh (dom (heap (start (T := unit) []))) in
    (let* h := SharedPtr_ctor_ptr_del Scenario.X Scenario.D in declare_shared h)
      (start [])
    = Ok tt s0 ∧
    run Scenario.scenario_A s0 = Ok tt s' ∧
    (owners a (owning s') = 0 → observers a (observing s') = 0 →
     heap s' = ∅ ∧ destroyed a s' = 1 ∧ deallocated a s' = 1).
Proof.
  apply (handle_lifetime_leaves_nothing Scenario.X Scenario.D [] Scenario.scenario_A).
  - simpl. discriminate.
  - exact ScenarioFacts.scenario_A_lock_free.
  - vm_compute. reflexivity.
Defined.
